(** * useStore: the synchronisation hook between a tldraw store and a Yjs document

    A shallow embedding of [src/hooks/useStore.ts].  The hook owns three
    pieces of mutable state: the Local Store (a tldraw [TLStore]), the
    Replicated Log (a [YKeyValue] over a [Y.Array], plus the [meta] map that
    holds the shared schema), and the React state [storeWithStatus].  Every
    handler of the hook is a computation over one [World] record holding all
    of them; a handler that throws keeps the writes it made before throwing.

    The collaborators the hook only consumes are modelled by their interface:
    the store schema is a type class, with the validator and the integrity
    checker the store takes from it; the tldraw store is a finite map from
    record ids to records together with the change it has not delivered to
    its listeners yet; [YKeyValue] is its key-value contents; and the
    transport and the awareness protocol appear as the events they deliver.
    Where the hook calls into a collaborator that calls back into the hook
    before it returns ([store.listen], [setLocalStateField], [yDoc.destroy]),
    the callback is part of the call.  The model covers one activation of the
    effect, from its first statement to just before its cleanup function
    runs. *)

From stdpp Require Import gmap strings list fin_maps pretty.

(** ** Data model *)

(** A [TLRecord]: the hook reads [id] only; [typeName] decides the scope of
    the record in the store schema and [body] stands for every other field. *)
Record TLRecord := mkTLRecord {
  id : string;
  typeName : string;
  body : string
}.

#[global] Instance TLRecord_eq_dec : EqDecision TLRecord.
Proof. solve_decision. Defined.

(** The three record scopes of a tldraw schema.  Only [document] records are
    persisted; [session] and [presenceScope] records stay on this client. *)
Inductive RecordScope := document | session | presenceScope.

#[global] Instance RecordScope_eq_dec : EqDecision RecordScope.
Proof. solve_decision. Defined.

Record SerializedSchema := mkSchema {
  schemaVersion : nat;
  sequences : list (string * nat)
}.

#[global] Instance SerializedSchema_eq_dec : EqDecision SerializedSchema.
Proof. solve_decision. Defined.

(** [Result<T, string>] of tldraw's utilities. *)
Inductive Result (A : Type) :=
  | Ok (value : A)
  | NotOk (error : string).
Arguments Ok {A} value.
Arguments NotOk {A} error.

(** [MigrationResult<SerializedStore>]: [type === 'success'] or ['error']. *)
Inductive MigrationResult :=
  | MigrationSuccess (value : gmap string TLRecord)
  | MigrationError (reason : string).

(** [store.schema] and what the store derives from it: the scope table, the
    validator [store.put] runs on every record it is given (it throws when
    [validateRecord] rejects one), and the integrity checker behind
    [store.ensureStoreIsUsable], which creates the records an editor cannot
    do without when they are missing. *)
Class StoreSchema := {
  scopeOf : string → RecordScope;
  serialize : SerializedSchema;
  getMigrationsSince : SerializedSchema → Result (list string);
  migrateStoreSnapshot : SerializedSchema → gmap string TLRecord → MigrationResult;
  validateRecord : TLRecord → bool;
  ensureStoreIsUsable : gmap string TLRecord → gmap string TLRecord
}.

(** [room.awareness.clientID] of this participant, and what
    [presenceDerivation.get()] computes from the store: the fields of this
    participant's presence record, or nothing when the derivation is [null]. *)
Class Session := {
  clientID : N;
  presenceFields : gmap string TLRecord → option string
}.

Inductive ConnectionStatus := online | offline.

#[global] Instance ConnectionStatus_eq_dec : EqDecision ConnectionStatus.
Proof. solve_decision. Defined.

(** [TLStoreWithStatus]; the store handle carried by the non-loading cases is
    always the one store of the hook and is left out. *)
Inductive TLStoreWithStatus :=
  | loading
  | synced_remote (connectionStatus : ConnectionStatus)
  | error.

#[global] Instance TLStoreWithStatus_eq_dec : EqDecision TLStoreWithStatus.
Proof. solve_decision. Defined.

(** The payload of the provider's ['status'] event, as the hook types it. *)
Inductive TransportStatus := disconnected | connected.

#[global] Instance TransportStatus_eq_dec : EqDecision TransportStatus.
Proof. solve_decision. Defined.

(** One entry of the map a [YKeyValue] ['change'] event delivers. *)
Inductive Change :=
  | ActAdd (newValue : TLRecord)
  | ActUpdate (oldValue newValue : TLRecord)
  | ActDelete (oldValue : TLRecord).

(** [RecordsDiff]: [Object.values] of the three tables of a store change. *)
Module RecordsDiff.
Record t := mk {
  added : list TLRecord;
  updated : list (TLRecord * TLRecord);
  removed : list TLRecord
}.
End RecordsDiff.

(** The argument of the awareness ['update'] event. *)
Module AwarenessUpdate.
Record t := mk {
  added : list N;
  updated : list N;
  removed : list N
}.
End AwarenessUpdate.

(** One awareness state; the [presence] field may be missing. *)
Record AwarenessState := mkAwarenessState { presence : option TLRecord }.

(** A write to the Yjs document inside a transaction. *)
Inductive LogOp :=
  | YSet (key : string) (val : TLRecord)      (* yStore.set(key, val) *)
  | YDelete (key : string)                    (* yStore.delete(key) *)
  | MetaSet (schema : SerializedSchema).      (* meta.set('schema', schema) *)

(** What the hook does to the outside, in order. *)
Inductive Effect :=
  | Transact (ops : list LogOp)               (* one committed yDoc.transact *)
  | MergeRemoteChanges                        (* one store.mergeRemoteChanges *)
  | Alert (message : string)                  (* window.alert *)
  | ConsoleError (reason : string).           (* console.error *)

(** ** The state of one activation of the hook's effect *)

Record World := mkWorld {
  store : gmap string TLRecord;               (* Local Store, keyed by id *)
  storeWithStatus : TLStoreWithStatus;        (* the exposed React state *)
  yStore : gmap string TLRecord;              (* Replicated Log contents *)
  meta : option SerializedSchema;             (* meta.get('schema') *)
  docDestroyed : bool;                        (* yDoc.destroy() was called *)
  syncedSubscribed : bool;                    (* handleSync listens to 'synced' *)
  hasConnectedBefore : bool;
  activations : nat;                          (* runs of handleSync so far: each one
                                                 registers its own store listener,
                                                 handleChange and handleMetaUpdate,
                                                 and none is removed before
                                                 teardown *)
  trace : list Effect;
  awarenessListeners : nat;                   (* handleUpdate listeners on
                                                 room.awareness: one per run of
                                                 handleSync since the awareness
                                                 was last destroyed *)
  pendingHistory : option RecordsDiff.t       (* a user-source change of the store
                                                 that its listeners have not
                                                 heard of yet *)
}.

Definition with_store (s : gmap string TLRecord) (w : World) : World :=
  mkWorld s (storeWithStatus w) (yStore w) (meta w) (docDestroyed w)
          (syncedSubscribed w) (hasConnectedBefore w) (activations w) (trace w)
          (awarenessListeners w) (pendingHistory w).

Definition with_storeWithStatus (st : TLStoreWithStatus) (w : World) : World :=
  mkWorld (store w) st (yStore w) (meta w) (docDestroyed w)
          (syncedSubscribed w) (hasConnectedBefore w) (activations w) (trace w)
          (awarenessListeners w) (pendingHistory w).

Definition with_yStore (y : gmap string TLRecord) (w : World) : World :=
  mkWorld (store w) (storeWithStatus w) y (meta w) (docDestroyed w)
          (syncedSubscribed w) (hasConnectedBefore w) (activations w) (trace w)
          (awarenessListeners w) (pendingHistory w).

Definition with_meta (m : option SerializedSchema) (w : World) : World :=
  mkWorld (store w) (storeWithStatus w) (yStore w) m (docDestroyed w)
          (syncedSubscribed w) (hasConnectedBefore w) (activations w) (trace w)
          (awarenessListeners w) (pendingHistory w).

Definition with_docDestroyed (b : bool) (w : World) : World :=
  mkWorld (store w) (storeWithStatus w) (yStore w) (meta w) b
          (syncedSubscribed w) (hasConnectedBefore w) (activations w) (trace w)
          (awarenessListeners w) (pendingHistory w).

Definition with_syncedSubscribed (b : bool) (w : World) : World :=
  mkWorld (store w) (storeWithStatus w) (yStore w) (meta w) (docDestroyed w)
          b (hasConnectedBefore w) (activations w) (trace w)
          (awarenessListeners w) (pendingHistory w).

Definition with_hasConnectedBefore (b : bool) (w : World) : World :=
  mkWorld (store w) (storeWithStatus w) (yStore w) (meta w) (docDestroyed w)
          (syncedSubscribed w) b (activations w) (trace w)
          (awarenessListeners w) (pendingHistory w).

Definition with_activations (n : nat) (w : World) : World :=
  mkWorld (store w) (storeWithStatus w) (yStore w) (meta w) (docDestroyed w)
          (syncedSubscribed w) (hasConnectedBefore w) n (trace w)
          (awarenessListeners w) (pendingHistory w).

Definition with_trace (t : list Effect) (w : World) : World :=
  mkWorld (store w) (storeWithStatus w) (yStore w) (meta w) (docDestroyed w)
          (syncedSubscribed w) (hasConnectedBefore w) (activations w) t
          (awarenessListeners w) (pendingHistory w).

Definition with_awarenessListeners (n : nat) (w : World) : World :=
  mkWorld (store w) (storeWithStatus w) (yStore w) (meta w) (docDestroyed w)
          (syncedSubscribed w) (hasConnectedBefore w) (activations w) (trace w)
          n (pendingHistory w).

Definition with_pendingHistory (h : option RecordsDiff.t) (w : World) : World :=
  mkWorld (store w) (storeWithStatus w) (yStore w) (meta w) (docDestroyed w)
          (syncedSubscribed w) (hasConnectedBefore w) (activations w) (trace w)
          (awarenessListeners w) h.

(** The world right after [useEffect] starts: status [loading], nothing
    subscribed but [handleStatusChange]. *)
Definition activate (s y : gmap string TLRecord) (m : option SerializedSchema) : World :=
  mkWorld s loading y m false false false 0 [] 0 None.

(** ** Handlers as state-and-exception computations *)

Inductive Completion (A : Type) :=
  | Normal (a : A)
  | Throw (message : string).
Arguments Normal {A} a.
Arguments Throw {A} message.

Definition M (A : Type) : Type := World → Completion A * World.

Definition ret {A} (a : A) : M A := λ w, (Normal a, w).

Definition bind {A B} (c : M A) (k : A → M B) : M B :=
  λ w, match c w with
       | (Normal a, w') => k a w'
       | (Throw e, w') => (Throw e, w')
       end.

Definition throw {A} (message : string) : M A := λ w, (Throw message, w).
Definition get : M World := λ w, (Normal w, w).
Definition modify (f : World → World) : M unit := λ w, (Normal tt, f w).

Notation "x <~ c ;; k" := (bind c (λ x, k))
  (at level 100, c at next level, right associativity).
Notation "c ;;; k" := (bind c (λ _, k))
  (at level 100, right associativity).

Definition effect (e : Effect) : M unit :=
  modify (λ w, with_trace (trace w ++ [e]) w).

(** Calls a listener once per registration, stopping at the first throw. *)
Fixpoint each (n : nat) (c : M unit) : M unit :=
  match n with
  | 0 => ret tt
  | S n' => c ;;; each n' c
  end.

(** The world a computation leaves, whether it returned or threw. *)
Definition exec {A} (c : M A) (w : World) : World := (c w).2.

(** ** The Local Store, by the interface the hook uses *)

(** [store.put(records)] on records that are all defined. *)
Definition putAll (records : list TLRecord) (s : gmap string TLRecord)
  : gmap string TLRecord :=
  foldl (λ acc record, <[id record := record]> acc) s records.

(** [store.put(records)]: the store takes the elements in order, reads
    [record.id] (a TypeError on an [undefined] element) and validates the
    record (a validation error when the schema rejects it).  The call is
    atomic: when it throws, nothing it wrote remains. *)
Fixpoint store_put `{StoreSchema} (records : list (option TLRecord))
    (s : gmap string TLRecord) : Result (gmap string TLRecord) :=
  match records with
  | [] => Ok s
  | None :: _ =>
      NotOk "TypeError: Cannot read properties of undefined (reading 'id')"%string
  | Some record :: records' =>
      if validateRecord record then store_put records' (<[id record := record]> s)
      else NotOk "ValidationError"%string
  end.

(** [store.remove(ids)]; ids that are not in the store are ignored. *)
Definition store_remove (ids : list string) (s : gmap string TLRecord)
  : gmap string TLRecord :=
  foldl (λ acc k, delete k acc) s ids.

(** [store.allRecords()]. *)
Definition allRecords (s : gmap string TLRecord) : list TLRecord :=
  (map_to_list s).*2.

(** [store.mergeRemoteChanges(fn)]: [fn] runs as one atomic operation whose
    changes carry the source ['remote'], so no listener filtered on
    [source: "user"] hears of them; when [fn] throws the operation is rolled
    back and the exception goes to the caller. *)
Definition mergeRemoteChanges
    (fn : gmap string TLRecord → Result (gmap string TLRecord)) : M unit :=
  effect MergeRemoteChanges ;;;
  w <~ get ;;
  match fn (store w) with
  | Ok s' => modify (with_store s')
  | NotOk message => throw message
  end.

(** The body both remote handlers pass to [mergeRemoteChanges]:
    [if (remove.length) store.remove(remove); if (put.length) store.put(put)]. *)
Definition mergeBatch `{StoreSchema} (remove : list string)
    (put : list (option TLRecord)) (s : gmap string TLRecord)
  : Result (gmap string TLRecord) :=
  let s1 := if decide (length remove ≠ 0) then store_remove remove s else s in
  if decide (length put ≠ 0) then store_put put s1 else Ok s1.

(** The change of the store that takes its contents from [before] to
    [after] in one operation that cleared the store first: the records under
    new ids are added, the records under ids that were there already count as
    updated, and the records whose ids are gone are removed. *)
Definition recordsDiff (before after : gmap string TLRecord) : RecordsDiff.t :=
  RecordsDiff.mk
    (filter (λ entry, before !! entry.1 = None) (map_to_list after)).*2
    (omap (λ entry : string * TLRecord,
             (λ old, (old, entry.2)) <$> before !! entry.1) (map_to_list after))
    (filter (λ entry, after !! entry.1 = None) (map_to_list before)).*2.

(** [store.loadSnapshot({ store: snapshot, schema })] under the store's own
    schema: the store is cleared, the records of the snapshot are put and the
    integrity checker runs, all in one operation of source ['user'], which
    the listeners of the store hear of when the store next delivers its
    history. *)
Definition loadSnapshot `{StoreSchema} (snapshot : gmap string TLRecord) : M unit :=
  w <~ get ;;
  match store_put (Some <$> (map_to_list snapshot).*2) ∅ with
  | Ok loaded =>
      let usable := ensureStoreIsUsable loaded in
      modify (with_store usable) ;;;
      modify (with_pendingHistory (Some (recordsDiff (store w) usable)))
  | NotOk message => throw message
  end.

(** The change a user edit makes to the store, and the part of it a listener
    registered with [scope: "document"] receives. *)
Definition applyDiff (d : RecordsDiff.t) (s : gmap string TLRecord)
  : gmap string TLRecord :=
  store_remove (id <$> RecordsDiff.removed d)
    (putAll (RecordsDiff.added d ++ (RecordsDiff.updated d).*2) s).

Definition inScope `{StoreSchema} (scope : RecordScope) (record : TLRecord) : bool :=
  bool_decide (scopeOf (typeName record) = scope).

Definition filterChangesByScope `{StoreSchema} (scope : RecordScope)
    (d : RecordsDiff.t) : RecordsDiff.t :=
  RecordsDiff.mk
    (filter (λ record, inScope scope record) (RecordsDiff.added d))
    (filter (λ fromTo, inScope scope fromTo.2) (RecordsDiff.updated d))
    (filter (λ record, inScope scope record) (RecordsDiff.removed d)).

Definition isEmptyDiff (d : RecordsDiff.t) : bool :=
  bool_decide (RecordsDiff.added d = [] ∧ RecordsDiff.updated d = []
               ∧ RecordsDiff.removed d = []).

(** ** Remote → local: [handleChange] (lines 63-94) *)

(** The [changes.forEach] loop: what it leaves in [remove] and [put].
    [yStore.get(id)!] is [undefined] at run time when the key is absent; the
    [!] only silences the type checker. *)
Definition stageChanges (log : gmap string TLRecord)
    (changes : list (string * Change)) : list string * list (option TLRecord) :=
  foldl (λ (acc : list string * list (option TLRecord)) (entry : string * Change),
           match entry.2 with
           | ActAdd _ | ActUpdate _ _ => (acc.1, acc.2 ++ [log !! entry.1])
           | ActDelete _ => (acc.1 ++ [entry.1], acc.2)
           end) ([], []) changes.

Definition handleChange `{StoreSchema} (changes : list (string * Change))
    (local : bool) : M unit :=
  if local then ret tt
  else
    w <~ get ;;
    let staged := stageChanges (yStore w) changes in
    mergeRemoteChanges (mergeBatch staged.1 staged.2).

(** ** Presence: [handleUpdate] (lines 138-171) *)

(** [InstancePresenceRecordType.createId]. *)
Definition createId (suffix : string) : string :=
  String.append "instance_presence:" suffix.

Definition presenceId `{Session} : string := createId (pretty clientID).

(** The body of the two [for (const clientId of ...)] loops over [added] and
    [updated]. *)
Definition pushPresence `{Session} (states : gmap N AwarenessState)
    (put : list TLRecord) (clientId : N) : list TLRecord :=
  match states !! clientId with
  | Some state =>
      match presence state with
      | Some p => if decide (id p ≠ presenceId) then put ++ [p] else put
      | None => put
      end
  | None => put
  end.

Definition stagePut `{Session} (states : gmap N AwarenessState)
    (update : AwarenessUpdate.t) : list TLRecord :=
  foldl (pushPresence states)
    (foldl (pushPresence states) [] (AwarenessUpdate.added update))
    (AwarenessUpdate.updated update).

Definition stageRemove (update : AwarenessUpdate.t) : list string :=
  foldl (λ remove clientId, remove ++ [createId (pretty clientId)]) []
    (AwarenessUpdate.removed update).

Definition handleUpdate `{StoreSchema} `{Session} (states : gmap N AwarenessState)
    (update : AwarenessUpdate.t) : M unit :=
  let put := stagePut states update in
  let remove := stageRemove update in
  mergeRemoteChanges (mergeBatch remove (Some <$> put)).

(** ** The schema observer: [handleMetaUpdate] (lines 173-184) *)

(** [yDoc.destroy()].  The awareness instance of the room listens to the
    document's ['destroy'] event and destroys itself: it sets the local state
    to [null], which every registered [handleUpdate] hears as the removal of
    this client, and then drops its listeners.  The document drops its own
    event listeners too, the awareness among them, so a second call reaches
    nothing.  The observers of [yStore] and [meta] are registered on the
    shared types, not on the document, and stay; so does the store listener. *)
Definition destroy `{StoreSchema} `{Session} : M unit :=
  w <~ get ;;
  if docDestroyed w then ret tt
  else
    modify (with_docDestroyed true) ;;;
    each (awarenessListeners w)
         (handleUpdate ∅ (AwarenessUpdate.mk [] [] [clientID])) ;;;
    modify (with_awarenessListeners 0).

Definition handleMetaUpdate `{StoreSchema} `{Session} : M unit :=
  w <~ get ;;
  match meta w with
  | None => throw "No schema found"%string
  | Some theirSchema =>
      match getMigrationsSince theirSchema with
      | Ok [] => ret tt
      | Ok (_ :: _) | NotOk _ =>
          effect (Alert "Please refresh the page, schema is updated"%string) ;;;
          destroy
      end
  end.

(** ** Transactions on the Yjs document *)

Definition applyOp (w : World) (op : LogOp) : World :=
  match op with
  | YSet key val => with_yStore (<[key := val]> (yStore w)) w
  | YDelete key => with_yStore (delete key (yStore w)) w
  | MetaSet schema => with_meta (Some schema) w
  end.

Definition isMetaOp (op : LogOp) : bool :=
  match op with MetaSet _ => true | _ => false end.

(** The entries of the ['change'] event a transaction of this client causes. *)
Definition changesOf (before : gmap string TLRecord) (ops : list LogOp)
  : list (string * Change) :=
  omap (λ op,
          match op with
          | YSet key val =>
              Some (key, from_option (λ old, ActUpdate old val) (ActAdd val) (before !! key))
          | YDelete key => (λ old, (key, ActDelete old)) <$> before !! key
          | MetaSet _ => None
          end) ops.

(** [yDoc.transact(fn)] for an [fn] that performs [ops]: the writes commit
    together, then the observers run: every registered [handleChange] with
    [transaction.local] set, and every registered [handleMetaUpdate] when the
    [meta] map was written. *)
Definition transact `{StoreSchema} `{Session} (ops : list LogOp) : M unit :=
  before <~ get ;;
  modify (λ w, foldl applyOp w ops) ;;;
  effect (Transact ops) ;;;
  each (activations before) (handleChange (changesOf (yStore before) ops) true) ;;;
  if existsb isMetaOp ops then each (activations before) handleMetaUpdate
  else ret tt.

(** ** Local → remote: [syncStoreChangesToYjsDoc] (lines 41-60) *)

(** The writes of the three [forEach] loops, in the order they run. *)
Definition syncOps (changes : RecordsDiff.t) : list LogOp :=
  ((λ record, YSet (id record) record) <$> RecordsDiff.added changes)
  ++ ((λ fromTo, YSet (id fromTo.2) fromTo.2) <$> RecordsDiff.updated changes)
  ++ ((λ record, YDelete (id record)) <$> RecordsDiff.removed changes).

Definition syncStoreChangesToYjsDoc `{StoreSchema} `{Session}
    (changes : RecordsDiff.t) : M unit :=
  transact (syncOps changes).

(** The store delivers its history: every listener registered with
    [{ source: "user", scope: "document" }] is called with the document part
    of the change it has not heard of yet, unless that part is empty.  The
    store does this on the animation frame after a change, and at once when
    [store.listen] registers a new listener. *)
Definition flushHistory `{StoreSchema} `{Session} : M unit :=
  w <~ get ;;
  match pendingHistory w with
  | None => ret tt
  | Some changes =>
      modify (with_pendingHistory None) ;;;
      let filtered := filterChangesByScope document changes in
      if isEmptyDiff filtered then ret tt
      else each (activations w) (syncStoreChangesToYjsDoc filtered)
  end.

(** ** Initial reconciliation: [handleSync] (lines 38-252) *)

(** [Object.fromEntries(records.map((record) => [record.id, record]))]: a
    later entry with the same id replaces an earlier one. *)
Definition fromEntries (records : list TLRecord) : gmap string TLRecord :=
  foldl (λ acc record, <[id record := record]> acc) ∅ records.

(** How a call of [handleSync] that does not throw ends: at its last
    statement, or at the [return] of the migration-error branch. *)
Inductive SyncOutcome := Reconciled | MigrationFailed.

(** The writes of the transaction of lines 219-230. *)
Definition migrationOps (records : list TLRecord) (value : gmap string TLRecord)
    (ourSchema : SerializedSchema) : list LogOp :=
  ((λ rec, YDelete (id rec)) <$>
     filter (λ rec, value !! id rec = None) records)
  ++ ((λ r, YSet (id r) r) <$> (map_to_list value).*2)
  ++ [MetaSet ourSchema].

(** The writes of the transaction of lines 238-243. *)
Definition seedOps `{StoreSchema} (s : gmap string TLRecord) : list LogOp :=
  ((λ rec, YSet (id rec) rec) <$> allRecords s) ++ [MetaSet serialize].

(** The presence record [presenceDerivation.get()] yields: its id is
    [presenceId], the second argument of [createPresenceStateDerivation]. *)
Definition localPresence `{Session} (s : gmap string TLRecord) : option TLRecord :=
  (λ fields, mkTLRecord presenceId "instance_presence" fields) <$> presenceFields s.

(** [room.awareness.setLocalStateField('presence', ...)] of line 123.  The
    awareness emits ['update'] with this client as the one updated
    participant, and the [handleUpdate] listeners of earlier runs are called
    before the call returns; they read this client's state only.  After the
    awareness was destroyed the local state is [null] and the call does
    nothing. *)
Definition publishPresence `{StoreSchema} `{Session} : M unit :=
  w <~ get ;;
  if docDestroyed w then ret tt
  else
    each (awarenessListeners w)
         (handleUpdate {[clientID := mkAwarenessState (localPresence (store w))]}
                       (AwarenessUpdate.mk [] [clientID] [])).

(** In the order of the source: [store.listen] (lines 41-60) first delivers
    the history the store still holds to the listeners it has and then adds
    one; [yStore.on('change')] and [meta.observe] each gain a listener, which
    no statement between here and the first transaction can tell from gaining
    it later (lines 96 and 186); the presence is published (line 123) and
    only then does [room.awareness] gain this run's [handleUpdate] (line 190).
    The reaction of lines 127-134 publishes the presence again on later
    frames; those publications reach the hook as awareness updates. *)
Definition handleSync `{StoreSchema} `{Session} : M SyncOutcome :=
  flushHistory ;;;
  modify (λ w, with_activations (S (activations w)) w) ;;;
  publishPresence ;;;
  modify (λ w, with_awarenessListeners (S (awarenessListeners w)) w) ;;;
  w <~ get ;;
  let finish : M SyncOutcome :=
    modify (with_storeWithStatus (synced_remote online)) ;;; ret Reconciled in
  if decide (size (yStore w) ≠ 0) then
    let ourSchema := serialize in
    match meta w with
    | None => throw "No schema found"%string
    | Some theirSchema =>
        let records := (map_to_list (yStore w)).*2 in
        match migrateStoreSnapshot theirSchema (fromEntries records) with
        | MigrationError reason =>
            effect (ConsoleError reason) ;;;
            effect (Alert "The schema has been updated. Please refresh the page"%string) ;;;
            ret MigrationFailed
        | MigrationSuccess value =>
            transact (migrationOps records value ourSchema) ;;;
            loadSnapshot value ;;;
            finish
        end
    end
  else
    transact (seedOps (store w)) ;;;
    finish.

(** ** Connection lifecycle: [handleStatusChange] (lines 254-277) *)

Definition handleStatusChange (status : TransportStatus) : M unit :=
  if decide (status = disconnected) then
    modify (with_storeWithStatus (synced_remote offline))
  else
    modify (with_syncedSubscribed false) ;;;     (* room.off('synced', handleSync) *)
    if decide (status = connected) then
      w <~ get ;;
      if hasConnectedBefore w then ret tt
      else
        modify (with_hasConnectedBefore true) ;;;
        modify (with_syncedSubscribed true)      (* room.on('synced', handleSync) *)
    else ret tt.

(** ** Events *)

(** What reaches the hook from outside while its effect is active.  A user
    edit stands for the edit and the store's delivery of it on the next
    frame; it comes after the store has delivered what it held before. *)
Inductive Event :=
  | EvStatus (status : TransportStatus)          (* room emits 'status' *)
  | EvSynced                                     (* room emits 'synced' *)
  | EvLocalEdit (changes : RecordsDiff.t)        (* a user edit of the store *)
  | EvRemoteChange (log : gmap string TLRecord)  (* a remote transaction on yStore *)
                   (changes : list (string * Change))
  | EvRemoteMeta (schema : option SerializedSchema)  (* a remote write of meta *)
  | EvAwareness (states : gmap N AwarenessState)     (* awareness emits 'update' *)
                (update : AwarenessUpdate.t)
  | EvHistory.                                   (* the store delivers its history *)

Definition dispatch `{StoreSchema} `{Session} (e : Event) : M unit :=
  match e with
  | EvStatus status => handleStatusChange status
  | EvSynced =>
      w <~ get ;;
      if syncedSubscribed w then (handleSync ;;; ret tt) else ret tt
  | EvLocalEdit changes =>
      flushHistory ;;;
      modify (λ w, with_store (applyDiff changes (store w)) w) ;;;
      let filtered := filterChangesByScope document changes in
      if isEmptyDiff filtered then ret tt
      else w <~ get ;; each (activations w) (syncStoreChangesToYjsDoc filtered)
  | EvRemoteChange log changes =>
      modify (with_yStore log) ;;;
      w <~ get ;; each (activations w) (handleChange changes false)
  | EvRemoteMeta schema =>
      modify (with_meta schema) ;;;
      w <~ get ;; each (activations w) handleMetaUpdate
  | EvAwareness states update =>
      w <~ get ;; each (awarenessListeners w) (handleUpdate states update)
  | EvHistory => flushHistory
  end.

(** One event: its handlers run to the end or to the first throw. *)
Definition step `{StoreSchema} `{Session} (w : World) (e : Event) : World :=
  exec (dispatch e) w.

Definition run `{StoreSchema} `{Session} (w : World) (events : list Event) : World :=
  foldl step w events.

(** ** A concrete schema, session and records *)

Module Demo.

Definition S_old : SerializedSchema := mkSchema 2 [("com.tldraw.shape"%string, 1)].
Definition S_new : SerializedSchema := mkSchema 2 [("com.tldraw.shape"%string, 2)].

(** A schema of a newer client, unknown to this one. *)
Definition S_future : SerializedSchema := mkSchema 2 [("com.tldraw.shape"%string, 3)].

(** The migration from [S_old] to [S_new] rewrites the body of a record. *)
Definition migrateRecord (r : TLRecord) : TLRecord :=
  mkTLRecord (id r) (typeName r) (String.append (body r) "'").

(** The record types of the schema, and the records the integrity checker
    creates when the store has none under their ids. *)
Definition recordTypes : list string :=
  ["document"; "page"; "shape"; "camera"; "instance"; "instance_page_state";
   "pointer"; "instance_presence"]%string.

Definition defaultRecords : gmap string TLRecord :=
  list_to_map
    ((λ r, (id r, r)) <$>
       [mkTLRecord "document:document" "document" "";
        mkTLRecord "pointer:pointer" "pointer" "";
        mkTLRecord "page:page" "page" "Page 1";
        mkTLRecord "instance:instance" "instance" "page:page";
        mkTLRecord "camera:page:page" "camera" "x=0";
        mkTLRecord "instance_page_state:page:page" "instance_page_state" ""])%string.

#[global] Instance schema : StoreSchema := {|
  scopeOf name :=
    if decide (name = "instance_presence"%string) then presenceScope
    else if decide (name ∈ ["camera"; "instance"; "instance_page_state"; "pointer"]%string)
         then session
    else document;
  serialize := S_new;
  getMigrationsSince theirs :=
    if decide (theirs = S_new) then Ok []
    else if decide (theirs = S_old) then Ok ["com.tldraw.shape/2"%string]
    else NotOk "target-version-too-new";
  migrateStoreSnapshot theirs snapshot :=
    if decide (theirs = S_new) then MigrationSuccess snapshot
    else if decide (theirs = S_old) then MigrationSuccess (migrateRecord <$> snapshot)
    else MigrationError "target-version-too-new";
  validateRecord record := bool_decide (typeName record ∈ recordTypes);
  ensureStoreIsUsable s := s ∪ defaultRecords
|}.

(** This participant is client 7 of the room; it has a presence once the
    store holds the instance record. *)
#[global] Instance session : Session := {|
  clientID := 7;
  presenceFields s := (λ _, "blue"%string) <$> s !! "instance:instance"%string
|}.

Definition r1 : TLRecord := mkTLRecord "shape:a" "shape" "rect".
Definition r1' : TLRecord := mkTLRecord "shape:a" "shape" "rect'".
Definition r2 : TLRecord := mkTLRecord "shape:b" "shape" "oval".
Definition camera : TLRecord := mkTLRecord "camera:page:1" "camera" "x=0".
Definition r2' : TLRecord := mkTLRecord "shape:b" "shape" "oval, filled".
Definition camera' : TLRecord := mkTLRecord "camera:page:1" "camera" "x=5".
Definition presenceA : TLRecord :=
  mkTLRecord "instance_presence:11" "instance_presence" "red".
Definition ownPresence : TLRecord :=
  mkTLRecord "instance_presence:7" "instance_presence" "blue".

(** A record of a type this client's schema does not know. *)
Definition sticker : TLRecord := mkTLRecord "sticker:s" "sticker" "star".
Definition presenceB : TLRecord :=
  mkTLRecord "instance_presence:12" "cursor" "green".

(** A synced world: one activation, the log mirrors the one document
    record, the camera lives in the store only. *)
Definition synced : World :=
  mkWorld (<["camera:page:1"%string := camera]> {["shape:a"%string := r1]})
          (synced_remote online)
          {["shape:a"%string := r1]} (Some S_new) false true true 1 [] 1 None.

(** Two user edits: the first adds [r2] and moves the camera, the second
    rewrites [r2] and removes [r1]. *)
Definition edits : list RecordsDiff.t :=
  [RecordsDiff.mk [r2] [(camera, camera')] [];
   RecordsDiff.mk [] [(r2, r2')] [r1]].

(** The same world after a remote client wrote an older schema to [meta]. *)
Definition stale : World := step synced (EvRemoteMeta (Some S_old)).

(** A fresh activation facing a log written under a given schema. *)
Definition joining (theirs : SerializedSchema) : World :=
  activate ∅ {["shape:a"%string := r1]} (Some theirs).


(** Awareness states: client 11 published a presence, client 7 is this
    participant, client 5 has a state without presence, client 3 has none. *)
Definition states : gmap N AwarenessState :=
  {[ 11%N := mkAwarenessState (Some presenceA);
     7%N := mkAwarenessState (Some ownPresence);
     5%N := mkAwarenessState None ]}.

End Demo.

(** ** Observations on a trace *)

Definition isTransact (e : Effect) : bool :=
  match e with Transact _ => true | _ => false end.

Definition isMerge (e : Effect) : bool :=
  match e with MergeRemoteChanges => true | _ => false end.

(** How many transactions this client committed, and how many times it
    merged remote changes into the store. *)
Definition transactions (w : World) : nat := length (List.filter isTransact (trace w)).
Definition merges (w : World) : nat := length (List.filter isMerge (trace w)).

(** What the world looks like apart from the log, the trace and the
    history the store holds. *)
Definition besidesLog (w : World)
  : gmap string TLRecord * TLStoreWithStatus * option SerializedSchema * bool
    * bool * bool * nat * nat :=
  (store w, storeWithStatus w, meta w, docDestroyed w, syncedSubscribed w,
   hasConnectedBefore w, activations w, awarenessListeners w).

(** The world once the store has delivered the history it holds, and the
    number of transactions the delivery costs: one per store listener when a
    document record changed. *)
Definition delivered `{StoreSchema} `{Session} (w : World) : World :=
  exec flushHistory w.

Definition historyTransactions `{StoreSchema} (w : World) : nat :=
  match pendingHistory w with
  | Some changes =>
      if isEmptyDiff (filterChangesByScope document changes) then 0 else activations w
  | None => 0
  end.

(** How many [handleUpdate] listeners hear this client publish its own
    presence: all that are registered, as long as the awareness lives. *)
Definition publications (w : World) : nat :=
  if docDestroyed w then 0 else awarenessListeners w.

(** The listeners of one more run of [handleSync] are registered: the
    store listener with the observers of the log, then, after the presence
    was published to the handlers of earlier runs, this run's [handleUpdate]. *)
Definition registered (w : World) : World :=
  with_awarenessListeners (S (awarenessListeners w))
    (with_trace (trace w ++ replicate (publications w) MergeRemoteChanges)
       (with_activations (S (activations w)) w)).

(** ** Presence, restated

    What [handleUpdate] stages, said without the loops. *)

(** The presence a participant contributes to [put]: the one it published,
    unless it has no state, no [presence] field, or the record is this
    participant's own. *)
Definition remotePresence `{Session} (states : gmap N AwarenessState)
    (clientId : N) : option TLRecord :=
  state ← states !! clientId;
  p ← presence state;
  if decide (id p ≠ presenceId) then Some p else None.

(** ** Remote changes, restated

    What [handleChange] stages, said without the loop: the key of every
    delete entry, and the log's answer for the key of every other entry. *)

Definition removedKey (entry : string * Change) : option string :=
  match entry.2 with
  | ActDelete _ => Some entry.1
  | ActAdd _ | ActUpdate _ _ => None
  end.

Definition fetchedValue (log : gmap string TLRecord) (entry : string * Change)
  : option (option TLRecord) :=
  match entry.2 with
  | ActDelete _ => None
  | ActAdd _ | ActUpdate _ _ => Some (log !! entry.1)
  end.

(** The same with the keys that have no value in the log left out. *)
Definition fetchedRecord (log : gmap string TLRecord) (entry : string * Change)
  : option TLRecord :=
  match entry.2 with
  | ActDelete _ => None
  | ActAdd _ | ActUpdate _ _ => log !! entry.1
  end.

(** ** Well-keyed maps

    The store, a store snapshot and the log are all meant to hold a record
    under its own id; every write of the hook is [yStore.set(r.id, r)]. *)

Definition keyedById (m : gmap string TLRecord) : Prop :=
  ∀ k r, m !! k = Some r → id r = k.

(** The effect of one write on the contents of [yStore]. *)
Definition applyKeyOp (log : gmap string TLRecord) (op : LogOp)
  : gmap string TLRecord :=
  match op with
  | YSet key val => <[key := val]> log
  | YDelete key => delete key log
  | MetaSet _ => log
  end.

(** ** Mirror equivalence, stated

    The log mirrors the store when it holds exactly the store's records of
    document scope: the records that are persisted, as opposed to the
    session and presence records that live on one client only. *)

Definition documentRecords `{StoreSchema} (s : gmap string TLRecord)
  : gmap string TLRecord :=
  filter (λ entry, inScope document entry.2) s.

Definition mirror `{StoreSchema} (w : World) : Prop :=
  yStore w = documentRecords (store w).

(** The records a diff writes. *)
Definition puts (d : RecordsDiff.t) : list TLRecord :=
  RecordsDiff.added d ++ (RecordsDiff.updated d).*2.

(** A diff is the change of a store [s] when it names every id once, its
    added records are new to [s], its updated records replace the record [s]
    holds under the same id by one of the same type, and its removed records
    are records of [s]. *)
Definition validDiff (s : gmap string TLRecord) (d : RecordsDiff.t) : Prop :=
  NoDup (id <$> (puts d ++ RecordsDiff.removed d))
  ∧ Forall (λ r, s !! id r = None) (RecordsDiff.added d)
  ∧ Forall (λ fromTo : TLRecord * TLRecord,
              s !! id fromTo.2 = Some fromTo.1
              ∧ typeName fromTo.2 = typeName fromTo.1) (RecordsDiff.updated d)
  ∧ Forall (λ r, s !! id r = Some r) (RecordsDiff.removed d).

(** A sequence of edits, each the change of the store the previous one left. *)
Fixpoint validEdits (s : gmap string TLRecord) (edits : list RecordsDiff.t) : Prop :=
  match edits with
  | [] => True
  | d :: edits' => validDiff s d ∧ validEdits (applyDiff d s) edits'
  end.

(** ** The connection lifecycle, stated *)

(** The part of the world the lifecycle controller owns. *)
Definition lifecycle (w : World) : TLStoreWithStatus * bool * bool * nat :=
  (storeWithStatus w, syncedSubscribed w, hasConnectedBefore w, activations w).

(** A computation preserves an observation when it leaves it as it was,
    however the computation ends. *)
Definition preserves {A B} (f : World → B) (c : M A) : Prop :=
  ∀ w, f (c w).2 = f w.

Definition isReconciled (r : Completion SyncOutcome) : bool :=
  match r with Normal Reconciled => true | _ => false end.

(** Whether an event makes [handleSync] run to its last statement. *)
Definition completesSync `{StoreSchema} `{Session} (w : World) (e : Event) : bool :=
  match e with
  | EvSynced => syncedSubscribed w && isReconciled (handleSync w).1
  | _ => false
  end.

(** Whether some event of a sequence completes an initial reconciliation. *)
Fixpoint reconciles `{StoreSchema} `{Session} (w : World) (events : list Event) : bool :=
  match events with
  | [] => false
  | e :: events' => completesSync w e || reconciles (step w e) events'
  end.

Definition isConnected (e : Event) : bool :=
  match e with EvStatus connected => true | _ => false end.

Definition isDisconnected (e : Event) : bool :=
  match e with EvStatus disconnected => true | _ => false end.

Definition isSynced (e : Event) : bool :=
  match e with EvSynced => true | _ => false end.

(** The events that follow the first ['connected'] status. *)
Fixpoint afterFirstConnected (events : list Event) : list Event :=
  match events with
  | [] => []
  | e :: events' => if isConnected e then events' else afterFirstConnected events'
  end.

(** The events that precede the next ['connected'] status. *)
Fixpoint untilConnected (events : list Event) : list Event :=
  match events with
  | [] => []
  | e :: events' => if isConnected e then [] else e :: untilConnected events'
  end.

(** The events between the first and the second ['connected'] status. *)
Definition firstConnection (events : list Event) : list Event :=
  untilConnected (afterFirstConnected events).

Definition syncedCount (events : list Event) : nat :=
  length (List.filter isSynced events).

(** The transport contract of the spec: ['synced'] fires once per resync, so
    no two ['synced'] events come without a ['connected'] between them.
    [seen] tells whether the current connection already synced. *)
Fixpoint syncedOncePerConnection (seen : bool) (events : list Event) : bool :=
  match events with
  | [] => true
  | e :: events' =>
      if isConnected e then syncedOncePerConnection false events'
      else if isSynced e then negb seen && syncedOncePerConnection true events'
      else syncedOncePerConnection seen events'
  end.

(** ** What the remaining handlers and branches do, stated *)

(** The log as other participants see it, and the count of this client's
    transactions on it. *)
Definition logView (w : World) : gmap string TLRecord * option SerializedSchema * nat :=
  (yStore w, meta w, transactions w).

(** What one merge of a batch of defined records does to the store. *)
Definition mergeInto (remove : list string) (put : list TLRecord)
    (s : gmap string TLRecord) : gmap string TLRecord :=
  putAll put (store_remove remove s).

(** A ['change'] notification tells the truth about a remote transaction
    that took the log from [log] to [log']: it names every key once, every
    key it does not name is untouched, a key it reports deleted is gone and
    a key it reports added or updated has a value. *)
Definition faithfulChanges (log log' : gmap string TLRecord)
    (changes : list (string * Change)) : Prop :=
  NoDup changes.*1
  ∧ (∀ k, k ∉ changes.*1 → log' !! k = log !! k)
  ∧ Forall (λ entry : string * Change,
              match entry.2 with
              | ActDelete _ => log' !! entry.1 = None
              | ActAdd _ | ActUpdate _ _ => is_Some (log' !! entry.1)
              end) changes.

(** A computation maintains a property of the world when the world it
    leaves has the property whenever the world it starts in has, however the
    computation ends. *)
Definition maintains {A} (P : World → Prop) (c : M A) : Prop :=
  ∀ w, P w → P (c w).2.

(** A write to the log that puts a record under its own id, or deletes, or
    writes the marker. *)
Definition keyedOp (op : LogOp) : Prop :=
  match op with
  | YSet key val => id val = key
  | YDelete _ | MetaSet _ => True
  end.

(** Store and log both hold every record under its own id. *)
Definition wellKeyed (w : World) : Prop :=
  keyedById (store w) ∧ keyedById (yStore w).

(** A remote transaction leaves a log keyed by id; other events carry no
    log. *)
Definition keyedEvent (e : Event) : Prop :=
  match e with
  | EvRemoteChange log _ => keyedById log
  | _ => True
  end.

(** Migrating a snapshot keyed by id gives a snapshot keyed by id, as a
    [SerializedStore] is, and the integrity checker puts the records it
    creates under their ids, as every write to a store does. *)
Definition keyedMigration `{StoreSchema} : Prop :=
  (∀ theirSchema snapshot value,
     keyedById snapshot →
     migrateStoreSnapshot theirSchema snapshot = MigrationSuccess value →
     keyedById value)
  ∧ (∀ s, keyedById s → keyedById (ensureStoreIsUsable s)).

(** ** More concrete worlds *)

Module Scenes.

(** A fresh activation with a camera and a shape in the store and nothing in
    the log. *)
Definition first : World :=
  activate (<["camera:page:1"%string := Demo.camera]> {["shape:a"%string := Demo.r1]})
           ∅ None.

(** A subscribed activation whose log holds a record but no schema marker. *)
Definition unmarked : World :=
  mkWorld ∅ loading {["shape:a"%string := Demo.r1]} None false true true 0 [] 0 None.

(** A reconnected session: it synced, lost the connection and connected
    again. *)
Definition reconnected : World :=
  run (Demo.joining Demo.S_old)
      [EvStatus connected; EvSynced; EvStatus disconnected; EvStatus connected].

(** A remote transaction on [Demo.synced] that deletes ["shape:a"] and adds
    ["shape:b"]. *)
Definition remoteLog : gmap string TLRecord := {["shape:b"%string := Demo.r2]}.
Definition remoteChanges : list (string * Change) :=
  [("shape:a"%string, ActDelete Demo.r1); ("shape:b"%string, ActAdd Demo.r2)].

(** An edit that adds a shape and moves the camera. *)
Definition edit : RecordsDiff.t :=
  RecordsDiff.mk [Demo.r2] [(Demo.camera, Demo.camera')] [].

End Scenes.

(** * Properties *)

(** ** Running computations *)

Lemma each_local_handleChange `{StoreSchema} n changes w :
  each n (handleChange changes true) w = (Normal tt, w).
Proof. induction n as [|n IH]; [done|]. cbn. apply IH. Qed.

Lemma existsb_app' {A} (f : A → bool) (l1 l2 : list A) :
  existsb f (l1 ++ l2) = existsb f l1 || existsb f l2.
Proof. induction l1 as [|a l1 IH]; cbn; [done|]. by rewrite IH, orb_assoc. Qed.

Lemma forallb_elem_of {A} (f : A → bool) (l : list A) :
  forallb f l = true ↔ ∀ x, x ∈ l → f x = true.
Proof.
  induction l as [|a l IH]; cbn.
  - split; [|done]. intros _ x Hx. by apply elem_of_nil in Hx.
  - rewrite andb_true_iff, IH. split.
    + intros [Ha Hl] x [->|Hx]%elem_of_cons; [done|by apply Hl].
    + intros Hall. split; [apply Hall; by left|]. intros x Hx. apply Hall. by right.
Qed.

Lemma syncOps_no_meta changes : existsb isMetaOp (syncOps changes) = false.
Proof.
  unfold syncOps. rewrite !existsb_app'.
  assert (Hs : ∀ {A} (f : A → LogOp) (l : list A),
             (∀ a, isMetaOp (f a) = false) → existsb isMetaOp (f <$> l) = false).
  { intros A f l Hf. induction l as [|a l IH]; cbn; [done|]. by rewrite Hf, IH. }
  rewrite !Hs; done.
Qed.

(** A transaction that leaves [meta] alone: the writes, one [Transact], and
    observers that discard the local notification. *)
Lemma transact_no_meta `{StoreSchema} `{Session} ops w :
  existsb isMetaOp ops = false →
  transact ops w =
    (Normal tt, with_trace (trace (foldl applyOp w ops) ++ [Transact ops])
                           (foldl applyOp w ops)).
Proof.
  intros Hm. unfold transact, bind at 1, get. cbn.
  unfold bind. change (ret ()) with (handleChange [] true).
  by rewrite each_local_handleChange, Hm.
Qed.

Lemma foldl_applyOp_frame ops w :
  store (foldl applyOp w ops) = store w
  ∧ storeWithStatus (foldl applyOp w ops) = storeWithStatus w
  ∧ docDestroyed (foldl applyOp w ops) = docDestroyed w
  ∧ syncedSubscribed (foldl applyOp w ops) = syncedSubscribed w
  ∧ hasConnectedBefore (foldl applyOp w ops) = hasConnectedBefore w
  ∧ activations (foldl applyOp w ops) = activations w
  ∧ trace (foldl applyOp w ops) = trace w.
Proof.
  revert w. induction ops as [|op ops IH]; intros w; [done|].
  cbn. destruct (IH (applyOp w op)) as (-> & -> & -> & -> & -> & -> & ->).
  by destruct op.
Qed.

(** ** Batches merged into the store *)

(** What [store.put] answers on defined records: it writes them all when
    the schema accepts every one, and throws otherwise. *)
Lemma store_put_defined `{StoreSchema} put s :
  store_put (Some <$> put) s
  = if forallb validateRecord put then Ok (putAll put s)
    else NotOk "ValidationError"%string.
Proof.
  revert s. induction put as [|record put IH]; intros s; [done|].
  cbn [fmap list_fmap store_put forallb].
  destruct (validateRecord record); [|done]. apply IH.
Qed.

(** With every staged record defined, the callback removes and then puts. *)
Lemma mergeBatch_defined `{StoreSchema} remove put s :
  mergeBatch remove (Some <$> put) s
  = if forallb validateRecord put then Ok (putAll put (store_remove remove s))
    else NotOk "ValidationError"%string.
Proof.
  unfold mergeBatch.
  assert (Hr : (if decide (length remove ≠ 0) then store_remove remove s else s)
               = store_remove remove s).
  { destruct remove; done. }
  rewrite Hr. destruct put as [|record put]; [done|]. cbn [fmap list_fmap length].
  rewrite decide_True by done. apply (store_put_defined (_ :: _)).
Qed.

Lemma mergeRemoteChanges_defined fn s' w :
  fn (store w) = Ok s' →
  mergeRemoteChanges fn w
  = (Normal tt, with_store s' (with_trace (trace w ++ [MergeRemoteChanges]) w)).
Proof. intros Hfn. unfold mergeRemoteChanges, bind. cbn. by rewrite Hfn. Qed.

(** A callback that throws leaves the store as it was: the merge is undone
    and only the attempt shows. *)
Lemma mergeRemoteChanges_throws fn message w :
  fn (store w) = NotOk message →
  mergeRemoteChanges fn w
  = (Throw message, with_trace (trace w ++ [MergeRemoteChanges]) w).
Proof. intros Hfn. unfold mergeRemoteChanges, bind. cbn. by rewrite Hfn. Qed.

(** A loop that pushes at most one element per round collects [omap]. *)
Lemma foldl_push_omap {A B} (f : A → option B) (l : list A) (acc : list B) :
  foldl (λ acc a, match f a with Some b => acc ++ [b] | None => acc end) acc l
  = acc ++ omap f l.
Proof.
  revert acc. induction l as [|a l IH]; intros acc; cbn.
  - by rewrite app_nil_r.
  - rewrite IH. destruct (f a); [by rewrite <- app_assoc|done].
Qed.

(** ** C9 and C10: presence updates *)

Lemma pushPresence_remotePresence `{Session} states put clientId :
  pushPresence states put clientId
  = match remotePresence states clientId with
    | Some p => put ++ [p]
    | None => put
    end.
Proof.
  unfold pushPresence, remotePresence.
  destruct (states !! clientId) as [state|]; cbn; [|done].
  destruct (presence state) as [p|]; cbn; [|done].
  by destruct (decide (id p ≠ presenceId)).
Qed.

Lemma foldl_pushPresence `{Session} states (l : list N) (acc : list TLRecord) :
  foldl (pushPresence states) acc l = acc ++ omap (remotePresence states) l.
Proof.
  revert acc. induction l as [|c l IH]; intros acc; cbn.
  - by rewrite app_nil_r.
  - rewrite IH, pushPresence_remotePresence.
    destruct (remotePresence states c); [by rewrite <- app_assoc|done].
Qed.

Lemma stagePut_omap `{Session} states update :
  stagePut states update
  = omap (remotePresence states)
         (AwarenessUpdate.added update ++ AwarenessUpdate.updated update).
Proof. unfold stagePut. by rewrite omap_app, !foldl_pushPresence. Qed.

Lemma stageRemove_fmap update :
  stageRemove update
  = (λ clientId, createId (pretty clientId)) <$> AwarenessUpdate.removed update.
Proof.
  unfold stageRemove.
  assert (Hgen : ∀ (l : list N) acc,
    foldl (λ remove clientId, remove ++ [createId (pretty clientId)]) acc l
    = acc ++ ((λ clientId, createId (pretty clientId)) <$> l)).
  { induction l as [|c l IH]; intros acc; cbn; [by rewrite app_nil_r|].
    by rewrite IH, <- app_assoc. }
  by rewrite Hgen.
Qed.

(** What [handleUpdate] does with what it staged. *)
Lemma handleUpdate_staged `{StoreSchema} `{Session} states update w :
  handleUpdate states update w
  = if forallb validateRecord (stagePut states update)
    then (Normal tt,
          with_store (putAll (stagePut states update)
                             (store_remove (stageRemove update) (store w)))
                     (with_trace (trace w ++ [MergeRemoteChanges]) w))
    else (Throw "ValidationError", with_trace (trace w ++ [MergeRemoteChanges]) w).
Proof.
  unfold handleUpdate. cbv zeta.
  pose proof (mergeBatch_defined (stageRemove update) (stagePut states update) (store w))
    as Hbatch.
  destruct (forallb validateRecord (stagePut states update)).
  - by apply mergeRemoteChanges_defined.
  - by apply mergeRemoteChanges_throws.
Qed.

Lemma remotePresence_not_own `{Session} states c p :
  remotePresence states c = Some p → id p ≠ presenceId.
Proof.
  unfold remotePresence. intros Hc.
  destruct (states !! c) as [state|]; cbn in Hc; [|done].
  destruct (presence state) as [q|]; cbn in Hc; [|done].
  destruct (decide (id q ≠ presenceId)); [|done]. by injection Hc as ->.
Qed.

(** C9.  [handleUpdate] stages for put the published presence of every added
    and then every updated participant whose record id is not this
    participant's presence id, stages for removal the presence id made from
    every removed participant id, and applies both in one
    [mergeRemoteChanges]: removals first, then puts.  The merge is atomic:
    when the store rejects a staged record, nothing of the batch is applied
    and the exception reaches the caller. *)
Theorem presence_update_merge `{StoreSchema} `{Session} (states : gmap N AwarenessState)
    (update : AwarenessUpdate.t) (w : World) :
  stagePut states update
    = omap (remotePresence states)
           (AwarenessUpdate.added update ++ AwarenessUpdate.updated update)
  ∧ (∀ p, p ∈ stagePut states update → id p ≠ presenceId)
  ∧ stageRemove update
    = (λ clientId, createId (pretty clientId)) <$> AwarenessUpdate.removed update
  ∧ handleUpdate states update w
    = if forallb validateRecord (stagePut states update)
      then (Normal tt,
            with_store (putAll (stagePut states update)
                               (store_remove (stageRemove update) (store w)))
                       (with_trace (trace w ++ [MergeRemoteChanges]) w))
      else (Throw "ValidationError", with_trace (trace w ++ [MergeRemoteChanges]) w).
Proof.
  split_and!.
  - apply stagePut_omap.
  - intros p. rewrite stagePut_omap, list_elem_of_omap.
    intros (c & _ & Hc). by eapply remotePresence_not_own.
  - apply stageRemove_fmap.
  - apply handleUpdate_staged.
Qed.

(** C10, as the code has it.  A participant listed as added or updated
    whose awareness state is absent or has no [presence] field adds nothing
    to [put], and a participant that published a presence other than this
    participant's own adds exactly that record; dropping the participants
    without presence from the update changes nothing of what is staged.
    [handleUpdate] completes normally, with the whole batch applied, exactly
    when the store accepts every staged presence; a presence that is there
    but malformed is staged like any other and aborts the merge, which then
    applies nothing. *)
Theorem missing_presence_is_skipped `{StoreSchema} `{Session}
    (states : gmap N AwarenessState) (update : AwarenessUpdate.t) (w : World) :
  (∀ put clientId, states !! clientId ≫= presence = None →
                   pushPresence states put clientId = put)
  ∧ (∀ put clientId p, states !! clientId ≫= presence = Some p →
                       id p ≠ presenceId →
                       pushPresence states put clientId = put ++ [p])
  ∧ stagePut states update
    = stagePut states
        (AwarenessUpdate.mk
           (filter (λ c, is_Some (states !! c ≫= presence)) (AwarenessUpdate.added update))
           (filter (λ c, is_Some (states !! c ≫= presence)) (AwarenessUpdate.updated update))
           (AwarenessUpdate.removed update))
  ∧ (forallb validateRecord (stagePut states update) = true →
     handleUpdate states update w
     = (Normal tt,
        with_store (putAll (stagePut states update)
                           (store_remove (stageRemove update) (store w)))
                   (with_trace (trace w ++ [MergeRemoteChanges]) w)))
  ∧ (forallb validateRecord (stagePut states update) = false →
     handleUpdate states update w
     = (Throw "ValidationError", with_trace (trace w ++ [MergeRemoteChanges]) w)).
Proof.
  assert (Hskip : ∀ c, states !! c ≫= presence = None → remotePresence states c = None).
  { intros c Hc. unfold remotePresence.
    destruct (states !! c) as [state|]; cbn in *; [|done]. by rewrite Hc. }
  split_and!.
  - intros put c Hc. by rewrite pushPresence_remotePresence, Hskip.
  - intros put c p Hc Hid. unfold pushPresence.
    destruct (states !! c) as [state|]; cbn in Hc; [|done].
    rewrite Hc. by rewrite decide_True.
  - rewrite !stagePut_omap. cbn. rewrite <- filter_app.
    induction (AwarenessUpdate.added update ++ AwarenessUpdate.updated update)
      as [|c l IH]; [done|].
    rewrite filter_cons. destruct (decide (is_Some (states !! c ≫= presence))) as [|Hn].
    + cbn. by rewrite IH.
    + cbn. rewrite Hskip; [done|]. by apply eq_None_not_Some.
  - intros Hvalid. by rewrite handleUpdate_staged, Hvalid.
  - intros Hinvalid. by rewrite handleUpdate_staged, Hinvalid.
Qed.

Lemma presence_update_merge_witness :
  stagePut Demo.states (AwarenessUpdate.mk [11; 7; 5]%N [3]%N [11]%N) = [Demo.presenceA]
  ∧ (Demo.ownPresence ∉ stagePut Demo.states (AwarenessUpdate.mk [11; 7; 5]%N [3]%N [11]%N))
  ∧ stageRemove (AwarenessUpdate.mk [11; 7; 5]%N [3]%N [11]%N)
    = ["instance_presence:11"%string]
  ∧ (handleUpdate Demo.states (AwarenessUpdate.mk [11; 7; 5]%N [3]%N [11]%N) Demo.synced).1
    = Normal tt
  ∧ store (handleUpdate Demo.states (AwarenessUpdate.mk [11; 7; 5]%N [3]%N [11]%N)
                        Demo.synced).2 !! "instance_presence:11"%string
    = Some Demo.presenceA.
Proof.
  destruct (presence_update_merge Demo.states
              (AwarenessUpdate.mk [11; 7; 5]%N [3]%N [11]%N) Demo.synced)
    as (Hput & Hown & Hrem & Hrun).
  split_and!.
  - rewrite Hput. vm_compute. reflexivity.
  - intros Hin. by apply Hown in Hin.
  - rewrite Hrem. vm_compute. reflexivity.
  - rewrite Hrun. vm_compute. reflexivity.
  - rewrite Hrun. vm_compute. reflexivity.
Defined.

Lemma missing_presence_is_skipped_witness :
  Demo.states !! 3%N ≫= presence = None
  ∧ Demo.states !! 5%N ≫= presence = None
  ∧ Demo.states !! 11%N ≫= presence = Some Demo.presenceA
  ∧ pushPresence Demo.states [] 3%N = []
  ∧ pushPresence Demo.states [] 5%N = []
  ∧ pushPresence Demo.states [] 11%N = [Demo.presenceA]
  ∧ handleUpdate Demo.states (AwarenessUpdate.mk [3; 5; 11]%N [] []) Demo.synced
    = (Normal tt,
       with_store (<["instance_presence:11"%string := Demo.presenceA]> (store Demo.synced))
                  (with_trace [MergeRemoteChanges] Demo.synced)).
Proof.
  assert (H3 : Demo.states !! 3%N ≫= presence = None) by (vm_compute; reflexivity).
  assert (H5 : Demo.states !! 5%N ≫= presence = None) by (vm_compute; reflexivity).
  assert (H11 : Demo.states !! 11%N ≫= presence = Some Demo.presenceA)
    by (vm_compute; reflexivity).
  assert (Hother : id Demo.presenceA ≠ presenceId) by (vm_compute; discriminate).
  destruct (missing_presence_is_skipped Demo.states
              (AwarenessUpdate.mk [3; 5; 11]%N [] []) Demo.synced)
    as (Hskip & Hpush & _ & Hvalid & _).
  split_and!; [exact H3|exact H5|exact H11|exact (Hskip _ _ H3)|exact (Hskip _ _ H5)| |].
  - exact (Hpush [] _ _ H11 Hother).
  - rewrite Hvalid by (vm_compute; reflexivity). vm_compute. reflexivity.
Defined.

(** C10 (as the spec states it) fails on a presence that is there but
    malformed.  Client 12 published a presence of a record type the schema
    does not have, next to client 11 and its valid presence: both are
    staged, the store rejects the second, the merge throws, and the presence
    of client 11 does not reach the store, which it does when client 11 is
    added alone. *)
Lemma malformed_presence_aborts_the_merge :
  validateRecord Demo.presenceA = true
  ∧ validateRecord Demo.presenceB = false
  ∧ stagePut (<[12%N := mkAwarenessState (Some Demo.presenceB)]> Demo.states)
             (AwarenessUpdate.mk [11; 12]%N [] [])
    = [Demo.presenceA; Demo.presenceB]
  ∧ (handleUpdate (<[12%N := mkAwarenessState (Some Demo.presenceB)]> Demo.states)
                  (AwarenessUpdate.mk [11; 12]%N [] []) Demo.synced).1
    = Throw "ValidationError"
  ∧ store (step Demo.synced
             (EvAwareness (<[12%N := mkAwarenessState (Some Demo.presenceB)]> Demo.states)
                          (AwarenessUpdate.mk [11; 12]%N [] [])))
    = store Demo.synced
  ∧ store (step Demo.synced
             (EvAwareness (<[12%N := mkAwarenessState (Some Demo.presenceB)]> Demo.states)
                          (AwarenessUpdate.mk [11]%N [] [])))
      !! "instance_presence:11"%string = Some Demo.presenceA.
Proof. vm_compute. done. Qed.

(** ** C3: remote changes *)

Lemma foldl_stage log (changes : list (string * Change))
    (acc : list string * list (option TLRecord)) :
  foldl (λ (acc : list string * list (option TLRecord)) (entry : string * Change),
           match entry.2 with
           | ActAdd _ | ActUpdate _ _ => (acc.1, acc.2 ++ [log !! entry.1])
           | ActDelete _ => (acc.1 ++ [entry.1], acc.2)
           end) acc changes
  = (acc.1 ++ omap removedKey changes, acc.2 ++ omap (fetchedValue log) changes).
Proof.
  revert acc. induction changes as [|[k c] changes IH]; intros [remove put]; cbn.
  - by rewrite !app_nil_r.
  - rewrite IH. unfold removedKey, fetchedValue.
    destruct c; cbn; by rewrite <- ?app_assoc.
Qed.

Lemma stageChanges_omap log changes :
  stageChanges log changes
  = (omap removedKey changes, omap (fetchedValue log) changes).
Proof. unfold stageChanges. by rewrite foldl_stage. Qed.

(** When the log answers for every add and update key, nothing staged is
    undefined. *)
Lemma fetchedValue_defined log (changes : list (string * Change)) :
  (∀ entry, entry ∈ changes → removedKey entry = None → is_Some (log !! entry.1)) →
  omap (fetchedValue log) changes = Some <$> omap (fetchedRecord log) changes.
Proof.
  induction changes as [|[k c] changes IH]; intros Hall; [done|].
  assert (Htl : omap (fetchedValue log) changes = Some <$> omap (fetchedRecord log) changes).
  { apply IH. intros entry Hin. apply Hall. by right. }
  specialize (Hall (k, c) ltac:(by left)).
  unfold removedKey, fetchedValue, fetchedRecord in *. cbn in *.
  destruct c; cbn in *; rewrite ?Htl; try done.
  all: destruct Hall as [r Hr]; [done|]; by rewrite Hr.
Qed.

(** What [handleChange] does with a remote notification whose keys all
    have their value. *)
Lemma handleChange_fetched `{StoreSchema} w changes :
  (∀ entry, entry ∈ changes → removedKey entry = None →
            is_Some (yStore w !! entry.1)) →
  handleChange changes false w
  = if forallb validateRecord (omap (fetchedRecord (yStore w)) changes)
    then (Normal tt,
          with_store (putAll (omap (fetchedRecord (yStore w)) changes)
                             (store_remove (omap removedKey changes) (store w)))
                     (with_trace (trace w ++ [MergeRemoteChanges]) w))
    else (Throw "ValidationError", with_trace (trace w ++ [MergeRemoteChanges]) w).
Proof.
  intros Hall. unfold handleChange, bind at 1. cbn [get].
  rewrite stageChanges_omap, fetchedValue_defined by done. cbn [fst snd].
  pose proof (mergeBatch_defined (omap removedKey changes)
                (omap (fetchedRecord (yStore w)) changes) (store w)) as Hbatch.
  destruct (forallb validateRecord (omap (fetchedRecord (yStore w)) changes)).
  - by apply mergeRemoteChanges_defined.
  - by apply mergeRemoteChanges_throws.
Qed.




(** ** Writes to maps *)

Lemma lookup_store_remove ks (m : gmap string TLRecord) k :
  store_remove ks m !! k = if decide (k ∈ ks) then None else m !! k.
Proof.
  revert m. induction ks as [|k' ks IH]; intros m.
  - cbn. rewrite decide_False; [done|]. by apply not_elem_of_nil.
  - change (store_remove (k' :: ks) m) with (store_remove ks (delete k' m)).
    rewrite IH. destruct (decide (k ∈ ks)) as [Hin|Hout].
    + rewrite decide_True; [done|]. by right.
    + destruct (decide (k = k')) as [->|Hne].
      * rewrite decide_True by left. apply lookup_delete_eq.
      * rewrite decide_False, lookup_delete_ne; [done..|].
        intros [?|?]%elem_of_cons; done.
Qed.

Lemma lookup_putAll_other records (m : gmap string TLRecord) k :
  k ∉ id <$> records → putAll records m !! k = m !! k.
Proof.
  revert m. induction records as [|r records IH]; intros m Hout; [done|].
  cbn in *. apply not_elem_of_cons in Hout as [Hne Hout].
  unfold putAll in IH. rewrite IH by done. by rewrite lookup_insert_ne.
Qed.

Lemma lookup_putAll_elem records (m : gmap string TLRecord) r :
  NoDup (id <$> records) → r ∈ records → putAll records m !! id r = Some r.
Proof.
  revert m. induction records as [|r' records IH]; intros m Hnd Hin.
  - by apply elem_of_nil in Hin.
  - cbn in Hnd. apply NoDup_cons in Hnd as [Hfresh Hnd].
    apply elem_of_cons in Hin as [->|Hin].
    + change (putAll (r' :: records) m) with (putAll records (<[id r' := r']> m)).
      rewrite lookup_putAll_other by done. apply lookup_insert_eq.
    + change (putAll (r' :: records) m) with (putAll records (<[id r' := r']> m)).
      by apply IH.
Qed.

Lemma foldl_applyOp_yStore ops w :
  yStore (foldl applyOp w ops) = foldl applyKeyOp (yStore w) ops.
Proof.
  revert w. induction ops as [|op ops IH]; intros w; [done|].
  cbn. rewrite IH. by destruct op.
Qed.

Lemma foldl_applyOp_meta_last ops schema w :
  meta (foldl applyOp w (ops ++ [MetaSet schema])) = Some schema.
Proof. by rewrite foldl_app. Qed.

Lemma foldl_applyKeyOp_sets {A} (f : A → TLRecord) (l : list A) log :
  foldl applyKeyOp log ((λ a, YSet (id (f a)) (f a)) <$> l) = putAll (f <$> l) log.
Proof. revert log. induction l as [|a l IH]; intros log; [done|]. cbn. apply IH. Qed.

Lemma foldl_applyKeyOp_deletes (l : list TLRecord) log :
  foldl applyKeyOp log ((λ r, YDelete (id r)) <$> l) = store_remove (id <$> l) log.
Proof. revert log. induction l as [|a l IH]; intros log; [done|]. cbn. apply IH. Qed.

(** The writes of [syncStoreChangesToYjsDoc] do to the log what the diff
    they come from does to a store. *)
Lemma foldl_applyKeyOp_syncOps changes log :
  foldl applyKeyOp log (syncOps changes) = applyDiff changes log.
Proof.
  unfold syncOps, applyDiff. rewrite !foldl_app.
  rewrite (foldl_applyKeyOp_sets (λ r, r)), (foldl_applyKeyOp_sets snd).
  rewrite foldl_applyKeyOp_deletes. rewrite list_fmap_id.
  unfold putAll. by rewrite foldl_app.
Qed.

(** The values of a well-keyed map have pairwise different ids. *)
Lemma keyedById_values m :
  keyedById m → id <$> (map_to_list m).*2 = (map_to_list m).*1.
Proof.
  intros Hk. rewrite <- list_fmap_compose.
  apply list_fmap_ext. intros i [k r] Hi. cbn.
  apply Hk. apply elem_of_map_to_list. by eapply list_elem_of_lookup_2.
Qed.

Lemma keyedById_values_NoDup m : keyedById m → NoDup (id <$> (map_to_list m).*2).
Proof. intros Hk. rewrite keyedById_values by done. apply NoDup_fst_map_to_list. Qed.

Lemma elem_of_values (m : gmap string TLRecord) r :
  r ∈ (map_to_list m).*2 ↔ ∃ k, m !! k = Some r.
Proof.
  rewrite list_elem_of_fmap. split.
  - intros ([k r'] & -> & Hin). exists k. by apply elem_of_map_to_list.
  - intros (k & Hk). exists (k, r). split; [done|]. by apply elem_of_map_to_list.
Qed.

(** Putting the values of a well-keyed map over what is left of a well-keyed
    log after removing its records that the map lacks gives the map. *)
Lemma migrate_log log value :
  keyedById log → keyedById value →
  putAll (map_to_list value).*2
    (store_remove (id <$> filter (λ rec, value !! id rec = None) (map_to_list log).*2) log)
  = value.
Proof.
  intros Hlog Hvalue. apply map_eq. intros k.
  destruct (value !! k) as [r|] eqn:Hk.
  - rewrite <- (Hvalue _ _ Hk).
    apply lookup_putAll_elem; [by apply keyedById_values_NoDup|].
    apply elem_of_values. by exists k.
  - rewrite lookup_putAll_other.
    + rewrite lookup_store_remove. case_decide as Hin; [done|].
      destruct (log !! k) as [r|] eqn:Hlk; [|done].
      exfalso. apply Hin. apply list_elem_of_fmap. exists r.
      pose proof (Hlog _ _ Hlk) as Hid. split; [done|].
      apply list_elem_of_filter. split; [by rewrite Hid|].
      apply elem_of_values. by exists k.
    + rewrite keyedById_values by done.
      intros Hin. apply list_elem_of_fmap in Hin as ([k' r] & -> & Hin).
      apply elem_of_map_to_list in Hin. cbn in Hk. congruence.
Qed.

(** ** Observers of a transaction *)

(** Counting on a trace. *)
Lemma transactions_app w t :
  length (List.filter isTransact (trace w ++ t))
  = transactions w + length (List.filter isTransact t).
Proof. unfold transactions. by rewrite List.filter_app, length_app. Qed.

Lemma merges_app w t :
  length (List.filter isMerge (trace w ++ t))
  = merges w + length (List.filter isMerge t).
Proof. unfold merges. by rewrite List.filter_app, length_app. Qed.

Lemma filter_replicate_merge n :
  List.filter isTransact (replicate n MergeRemoteChanges) = []
  ∧ length (List.filter isMerge (replicate n MergeRemoteChanges)) = n.
Proof. induction n as [|n [IH1 IH2]]; [done|]. cbn. by rewrite IH1, IH2. Qed.

Lemma filter_replicate_transact n ops :
  length (List.filter isTransact (replicate n (Transact ops))) = n
  ∧ List.filter isMerge (replicate n (Transact ops)) = [].
Proof. induction n as [|n [IH1 IH2]]; [done|]. cbn. by rewrite IH1, IH2. Qed.

Lemma store_remove_replicate_S n k (s : gmap string TLRecord) :
  store_remove (replicate (S n) k) s = store_remove (replicate n k) (delete k s).
Proof. done. Qed.

(** A presence update that only removes participants: one merge that
    deletes their presence records. *)
Lemma handleUpdate_removed `{StoreSchema} `{Session} states removed w :
  handleUpdate states (AwarenessUpdate.mk [] [] removed) w
  = (Normal tt,
     with_store (store_remove ((λ c, createId (pretty c)) <$> removed) (store w))
                (with_trace (trace w ++ [MergeRemoteChanges]) w)).
Proof.
  rewrite handleUpdate_staged.
  change (stagePut states (AwarenessUpdate.mk [] [] removed)) with (@nil TLRecord).
  by rewrite stageRemove_fmap.
Qed.

(** The listeners of earlier runs hear this client's own presence and stage
    nothing: each one makes a merge that leaves the store as it is. *)
Lemma handleUpdate_own `{StoreSchema} `{Session} s w :
  handleUpdate {[clientID := mkAwarenessState (localPresence s)]}
               (AwarenessUpdate.mk [] [clientID] []) w
  = (Normal tt, with_trace (trace w ++ [MergeRemoteChanges]) w).
Proof.
  rewrite handleUpdate_staged.
  assert (Hput : stagePut {[clientID := mkAwarenessState (localPresence s)]}
                          (AwarenessUpdate.mk [] [clientID] []) = []).
  { unfold stagePut. cbn [AwarenessUpdate.added AwarenessUpdate.updated foldl].
    unfold pushPresence. rewrite lookup_singleton_eq. cbn [presence].
    unfold localPresence. destruct (presenceFields s); cbn; [|done].
    by rewrite decide_False by (intros Hne; by apply Hne). }
  rewrite Hput. by destruct w.
Qed.

Lemma each_handleUpdate_own `{StoreSchema} `{Session} n s w :
  each n (handleUpdate {[clientID := mkAwarenessState (localPresence s)]}
                       (AwarenessUpdate.mk [] [clientID] [])) w
  = (Normal tt, with_trace (trace w ++ replicate n MergeRemoteChanges) w).
Proof.
  revert w. induction n as [|n IH]; intros w.
  - cbn. rewrite app_nil_r. by destruct w.
  - cbn [each]. unfold bind. rewrite handleUpdate_own, IH.
    cbn [trace with_trace replicate]. rewrite <- app_assoc. by destruct w.
Qed.

Lemma publishPresence_run `{StoreSchema} `{Session} w :
  publishPresence w
  = (Normal tt, with_trace (trace w ++ replicate (publications w) MergeRemoteChanges) w).
Proof.
  unfold publishPresence, publications, bind, get.
  destruct (docDestroyed w) eqn:Hd.
  - cbn. rewrite app_nil_r. by destruct w.
  - apply each_handleUpdate_own.
Qed.

Lemma each_handleUpdate_removed `{StoreSchema} `{Session} n states c w :
  each n (handleUpdate states (AwarenessUpdate.mk [] [] [c])) w
  = (Normal tt,
     with_store (store_remove (replicate n (createId (pretty c))) (store w))
                (with_trace (trace w ++ replicate n MergeRemoteChanges) w)).
Proof.
  revert w. induction n as [|n IH]; intros w.
  - cbn. rewrite app_nil_r. by destruct w.
  - cbn [each]. unfold bind. rewrite handleUpdate_removed, IH.
    cbn [trace store with_trace with_store replicate fmap list_fmap].
    rewrite <- app_assoc. by destruct w.
Qed.

(** [yDoc.destroy()], the first time: the presence handlers run for the
    removal of this client and are gone; a later call does nothing. *)
Lemma destroy_run `{StoreSchema} `{Session} w :
  destroy w
  = (Normal tt,
     if docDestroyed w then w
     else with_awarenessListeners 0
            (with_store (store_remove (replicate (awarenessListeners w) presenceId)
                                      (store w))
               (with_trace (trace w ++ replicate (awarenessListeners w) MergeRemoteChanges)
                  (with_docDestroyed true w)))).
Proof.
  unfold destroy, bind at 1, get. destruct (docDestroyed w) eqn:Hd; [done|].
  unfold bind at 1. cbn [modify]. unfold bind.
  by rewrite each_handleUpdate_removed.
Qed.

(** With a schema in [meta], the schema observer never throws.  It leaves
    the log, the marker, the status, the subscriptions and the store
    listeners alone; when it destroys the document, the presence handlers
    make their last merges, which can only delete this participant's own
    presence record from the store. *)
Lemma handleMetaUpdate_frame `{StoreSchema} `{Session} w schema :
  meta w = Some schema →
  ∃ w' k, handleMetaUpdate w = (Normal tt, w')
    ∧ store w' = store_remove (replicate k presenceId) (store w)
    ∧ storeWithStatus w' = storeWithStatus w
    ∧ yStore w' = yStore w
    ∧ meta w' = meta w
    ∧ syncedSubscribed w' = syncedSubscribed w
    ∧ hasConnectedBefore w' = hasConnectedBefore w
    ∧ activations w' = activations w
    ∧ pendingHistory w' = pendingHistory w
    ∧ transactions w' = transactions w
    ∧ merges w' = merges w + k.
Proof.
  intros Hmeta.
  assert (Hrun : handleMetaUpdate w
    = match getMigrationsSince schema with
      | Ok [] => (Normal tt, w)
      | _ => (effect (Alert "Please refresh the page, schema is updated") ;;; destroy) w
      end).
  { unfold handleMetaUpdate, bind at 1. cbn [get]. rewrite Hmeta.
    by destruct (getMigrationsSince schema) as [[|m ms]|e]. }
  rewrite Hrun. clear Hrun.
  assert (Hstale : ∃ w' k,
    (effect (Alert "Please refresh the page, schema is updated") ;;; destroy) w
      = (Normal tt, w')
    ∧ store w' = store_remove (replicate k presenceId) (store w)
    ∧ storeWithStatus w' = storeWithStatus w
    ∧ yStore w' = yStore w
    ∧ meta w' = meta w
    ∧ syncedSubscribed w' = syncedSubscribed w
    ∧ hasConnectedBefore w' = hasConnectedBefore w
    ∧ activations w' = activations w
    ∧ pendingHistory w' = pendingHistory w
    ∧ transactions w' = transactions w
    ∧ merges w' = merges w + k).
  { unfold bind. cbn [effect modify]. rewrite destroy_run.
    cbn [docDestroyed with_trace].
    destruct (docDestroyed w) eqn:Hd.
    - eexists _, 0. split; [reflexivity|].
      unfold transactions, merges. cbn -[List.filter].
      rewrite !List.filter_app, !length_app. cbn. split_and!; try done; lia.
    - eexists _, (awarenessListeners w). split; [reflexivity|].
      unfold transactions, merges. cbn -[List.filter replicate].
      rewrite <- !app_assoc, !List.filter_app, !length_app.
      destruct (filter_replicate_merge (awarenessListeners w)) as [-> ->].
      cbn. split_and!; try done; lia. }
  destruct (getMigrationsSince schema) as [[|m ms]|e]; [|exact Hstale..].
  exists w, 0. split_and!; try done; lia.
Qed.

Lemma store_remove_app ids1 ids2 (s : gmap string TLRecord) :
  store_remove (ids1 ++ ids2) s = store_remove ids2 (store_remove ids1 s).
Proof. unfold store_remove. by rewrite foldl_app. Qed.

Lemma each_handleMetaUpdate `{StoreSchema} `{Session} n w schema :
  meta w = Some schema →
  ∃ w' k, each n handleMetaUpdate w = (Normal tt, w')
    ∧ store w' = store_remove (replicate k presenceId) (store w)
    ∧ storeWithStatus w' = storeWithStatus w
    ∧ yStore w' = yStore w
    ∧ meta w' = meta w
    ∧ syncedSubscribed w' = syncedSubscribed w
    ∧ hasConnectedBefore w' = hasConnectedBefore w
    ∧ activations w' = activations w
    ∧ pendingHistory w' = pendingHistory w
    ∧ transactions w' = transactions w
    ∧ merges w' = merges w + k.
Proof.
  revert w. induction n as [|n IH]; intros w Hmeta.
  - exists w, 0. split_and!; first [done|lia].
  - destruct (handleMetaUpdate_frame w schema Hmeta)
      as (w1 & k1 & Hrun & Hs & Hst & Hy & Hm & Hsub & Hcon & Hact & Hp & Htr & Hmg).
    destruct (IH w1 ltac:(by rewrite Hm))
      as (w2 & k2 & Hrun2 & Hs2 & Hst2 & Hy2 & Hm2 & Hsub2 & Hcon2 & Hact2 & Hp2
          & Htr2 & Hmg2).
    exists w2, (k1 + k2). split.
    + cbn [each]. unfold bind. by rewrite Hrun.
    + rewrite replicate_add, store_remove_app, <- Hs, <- Hs2.
      split_and!; first [congruence|lia].
Qed.

(** When the marker needs no migration, the observers change nothing. *)
Lemma each_handleMetaUpdate_compatible `{StoreSchema} `{Session} n w schema :
  meta w = Some schema →
  getMigrationsSince schema = Ok [] →
  each n handleMetaUpdate w = (Normal tt, w).
Proof.
  intros Hmeta Hok. induction n as [|n IH]; [done|].
  cbn [each]. unfold bind.
  assert (Hone : handleMetaUpdate w = (Normal tt, w)).
  { unfold handleMetaUpdate, bind, get. by rewrite Hmeta, Hok. }
  by rewrite Hone.
Qed.

(** A transaction that ends by writing [meta]. *)
Lemma transact_meta_last `{StoreSchema} `{Session} ops schema w :
  transact (ops ++ [MetaSet schema]) w
  = each (activations w) handleMetaUpdate
      (with_trace (trace w ++ [Transact (ops ++ [MetaSet schema])])
                  (foldl applyOp w (ops ++ [MetaSet schema]))).
Proof.
  unfold transact, bind at 1, get. cbn.
  unfold bind. change (ret ()) with (handleChange [] true).
  rewrite each_local_handleChange.
  assert (Hm : existsb isMetaOp (ops ++ [MetaSet schema]) = true).
  { rewrite existsb_app'. cbn. apply orb_true_r. }
  rewrite Hm.
  by destruct (foldl_applyOp_frame (ops ++ [MetaSet schema]) w)
    as (_ & _ & _ & _ & _ & _ & ->).
Qed.

(** ** The writes of a reconciliation *)

Lemma migrationOps_log records value schema log :
  foldl applyKeyOp log (migrationOps records value schema)
  = putAll (map_to_list value).*2
      (store_remove (id <$> filter (λ rec, value !! id rec = None) records) log).
Proof.
  unfold migrationOps. rewrite !foldl_app. cbn.
  rewrite foldl_applyKeyOp_deletes, (foldl_applyKeyOp_sets (λ r, r)).
  by rewrite list_fmap_id.
Qed.

(** ** Maps keyed by id *)

Lemma putAll_values (m : gmap string TLRecord) :
  keyedById m → putAll (map_to_list m).*2 ∅ = m.
Proof.
  intros Hm.
  assert (Hempty : keyedById ∅) by (by intros k r Hk; rewrite lookup_empty in Hk).
  pose proof (migrate_log ∅ m Hempty Hm) as Hlog.
  by rewrite map_to_list_empty in Hlog.
Qed.

Lemma keyedById_empty : keyedById ∅.
Proof. intros k r Hk. by rewrite lookup_empty in Hk. Qed.

Lemma keyedById_insert m r : keyedById m → keyedById (<[id r := r]> m).
Proof.
  intros Hm k r' Hk. destruct (decide (id r = k)) as [<-|Hne].
  - rewrite lookup_insert_eq in Hk. by injection Hk as <-.
  - rewrite lookup_insert_ne in Hk by done. by apply Hm.
Qed.

Lemma keyedById_delete m k : keyedById m → keyedById (delete k m).
Proof.
  intros Hm k' r Hk. destruct (decide (k = k')) as [<-|Hne].
  - by rewrite lookup_delete_eq in Hk.
  - rewrite lookup_delete_ne in Hk by done. by apply Hm.
Qed.

Lemma keyedById_putAll records m : keyedById m → keyedById (putAll records m).
Proof.
  revert m. induction records as [|r records IH]; intros m Hm; [done|].
  change (putAll (r :: records) m) with (putAll records (<[id r := r]> m)).
  by apply IH, keyedById_insert.
Qed.

Lemma keyedById_store_remove ks m : keyedById m → keyedById (store_remove ks m).
Proof.
  revert m. induction ks as [|k ks IH]; intros m Hm; [done|].
  change (store_remove (k :: ks) m) with (store_remove ks (delete k m)).
  by apply IH, keyedById_delete.
Qed.

Lemma fromEntries_values (log : gmap string TLRecord) :
  keyedById log → fromEntries (map_to_list log).*2 = log.
Proof. apply putAll_values. Qed.

(** ** The store delivers its history *)

Lemma foldl_applyOp_meta_frame ops w :
  existsb isMetaOp ops = false → meta (foldl applyOp w ops) = meta w.
Proof.
  revert w. induction ops as [|op ops IH]; intros w Hno; [done|].
  cbn in Hno. apply orb_false_iff in Hno as [Hop Hno]. cbn [foldl].
  rewrite IH by done. by destruct op.
Qed.

Lemma foldl_applyOp_listeners ops w :
  awarenessListeners (foldl applyOp w ops) = awarenessListeners w
  ∧ pendingHistory (foldl applyOp w ops) = pendingHistory w.
Proof.
  revert w. induction ops as [|op ops IH]; intros w; [done|].
  cbn. destruct (IH (applyOp w op)) as (-> & ->). by destruct op.
Qed.

(** One call of the store listener: a transaction of the writes of the diff. *)
Lemma syncStoreChangesToYjsDoc_run `{StoreSchema} `{Session} d w :
  ∃ w', syncStoreChangesToYjsDoc d w = (Normal tt, w')
    ∧ yStore w' = applyDiff d (yStore w)
    ∧ trace w' = trace w ++ [Transact (syncOps d)]
    ∧ besidesLog w' = besidesLog w
    ∧ pendingHistory w' = pendingHistory w.
Proof.
  eexists. split.
  { unfold syncStoreChangesToYjsDoc. by rewrite transact_no_meta by apply syncOps_no_meta. }
  destruct (foldl_applyOp_frame (syncOps d) w) as (Fs & Fst & Fd & Fsub & Fcon & Fact & Ftr).
  destruct (foldl_applyOp_listeners (syncOps d) w) as (Fal & Fp).
  pose proof (foldl_applyOp_meta_frame (syncOps d) w (syncOps_no_meta d)) as Fmeta.
  unfold besidesLog.
  cbn [yStore trace store storeWithStatus meta docDestroyed syncedSubscribed
       hasConnectedBefore activations awarenessListeners pendingHistory with_trace].
  rewrite foldl_applyOp_yStore, foldl_applyKeyOp_syncOps.
  by rewrite Fs, Fst, Fd, Fsub, Fcon, Fact, Ftr, Fal, Fp, Fmeta.
Qed.

(** Every registered store listener writes the same diff: one transaction
    each, the same writes each time. *)
Lemma each_syncStoreChangesToYjsDoc_iter `{StoreSchema} `{Session} n d w :
  ∃ w', each n (syncStoreChangesToYjsDoc d) w = (Normal tt, w')
    ∧ yStore w' = Nat.iter n (applyDiff d) (yStore w)
    ∧ trace w' = trace w ++ replicate n (Transact (syncOps d))
    ∧ besidesLog w' = besidesLog w
    ∧ pendingHistory w' = pendingHistory w.
Proof.
  revert w. induction n as [|n IH]; intros w.
  { exists w. split_and!; try done. by rewrite app_nil_r. }
  destruct (syncStoreChangesToYjsDoc_run d w) as (w1 & Hrun & Hy & Ht & Hb & Hp).
  destruct (IH w1) as (w2 & Hrun2 & Hy2 & Ht2 & Hb2 & Hp2).
  exists w2. split_and!.
  - cbn [each]. unfold bind. by rewrite Hrun.
  - rewrite Hy2, Hy. by rewrite <- Nat.iter_succ_r.
  - rewrite Ht2, Ht. by rewrite <- app_assoc.
  - congruence.
  - congruence.
Qed.

Lemma flushHistory_cases `{StoreSchema} `{Session} w :
  flushHistory w
  = match pendingHistory w with
    | None => (Normal tt, w)
    | Some d =>
        if isEmptyDiff (filterChangesByScope document d)
        then (Normal tt, with_pendingHistory None w)
        else each (activations w)
               (syncStoreChangesToYjsDoc (filterChangesByScope document d))
               (with_pendingHistory None w)
    end.
Proof.
  unfold flushHistory, bind, get, modify.
  destruct (pendingHistory w) as [d|]; [|done].
  by destruct (isEmptyDiff (filterChangesByScope document d)).
Qed.

(** The writes the store's pending history costs: nothing when nothing is
    pending or when no document record changed. *)
Lemma flushHistory_run `{StoreSchema} `{Session} w :
  flushHistory w = (Normal tt, delivered w)
  ∧ yStore (delivered w)
    = Nat.iter (historyTransactions w)
        (from_option (λ d, applyDiff (filterChangesByScope document d)) (λ log, log)
                     (pendingHistory w))
        (yStore w)
  ∧ trace (delivered w)
    = trace w
      ++ replicate (historyTransactions w)
           (Transact (syncOps (from_option (filterChangesByScope document)
                                           (RecordsDiff.mk [] [] [])
                                           (pendingHistory w))))
  ∧ besidesLog (delivered w) = besidesLog w
  ∧ pendingHistory (delivered w) = None.
Proof.
  unfold delivered, exec, historyTransactions. rewrite flushHistory_cases.
  destruct (pendingHistory w) as [d|] eqn:Hp; cbn [from_option].
  2:{ cbn. rewrite app_nil_r. by split_and!. }
  destruct (isEmptyDiff (filterChangesByScope document d)).
  { cbn. rewrite app_nil_r. by split_and!. }
  destruct (each_syncStoreChangesToYjsDoc_iter (activations w)
              (filterChangesByScope document d) (with_pendingHistory None w))
    as (w' & Hrun & Hy & Ht & Hb & Hp').
  rewrite Hrun. cbn [fst snd]. by split_and!.
Qed.

Lemma delivered_idle `{StoreSchema} `{Session} w :
  pendingHistory w = None → delivered w = w.
Proof.
  intros Hp. unfold delivered, exec, flushHistory, bind, get. by rewrite Hp.
Qed.

Lemma delivered_counts `{StoreSchema} `{Session} w :
  transactions (delivered w) = transactions w + historyTransactions w
  ∧ merges (delivered w) = merges w.
Proof.
  destruct (flushHistory_run w) as (_ & _ & Ht & _).
  unfold transactions at 1, merges at 1. rewrite Ht, transactions_app, merges_app.
  destruct (filter_replicate_transact (historyTransactions w)
              (syncOps (from_option (filterChangesByScope document)
                                    (RecordsDiff.mk [] [] []) (pendingHistory w))))
    as [-> ->].
  cbn. lia.
Qed.

(** ** C1: mirror equivalence *)

Lemma applyDiff_puts d m :
  applyDiff d m = store_remove (id <$> RecordsDiff.removed d) (putAll (puts d) m).
Proof. done. Qed.

Lemma lookup_applyDiff_removed d m k :
  k ∈ id <$> RecordsDiff.removed d → applyDiff d m !! k = None.
Proof. intros Hin. by rewrite applyDiff_puts, lookup_store_remove, decide_True. Qed.

Lemma lookup_applyDiff_put d m r :
  NoDup (id <$> puts d) → id r ∉ id <$> RecordsDiff.removed d → r ∈ puts d →
  applyDiff d m !! id r = Some r.
Proof.
  intros Hnd Hout Hin.
  rewrite applyDiff_puts, lookup_store_remove, decide_False by done.
  by apply lookup_putAll_elem.
Qed.

Lemma lookup_applyDiff_other d m k :
  k ∉ id <$> RecordsDiff.removed d → k ∉ id <$> puts d →
  applyDiff d m !! k = m !! k.
Proof.
  intros Hrem Hput.
  rewrite applyDiff_puts, lookup_store_remove, decide_False by done.
  by apply lookup_putAll_other.
Qed.

(** Writing the same diff a second time changes nothing. *)
Lemma applyDiff_idempotent d m :
  NoDup (id <$> puts d) → applyDiff d (applyDiff d m) = applyDiff d m.
Proof.
  intros Hnd. apply map_eq. intros k.
  destruct (decide (k ∈ id <$> RecordsDiff.removed d)) as [Hrem|Hrem].
  { by rewrite !lookup_applyDiff_removed. }
  destruct (decide (k ∈ id <$> puts d)) as [Hput|Hput].
  - apply list_elem_of_fmap in Hput as (r & -> & Hr).
    by rewrite !lookup_applyDiff_put.
  - by rewrite (lookup_applyDiff_other d (applyDiff d m)).
Qed.

Lemma filter_snd_fmap {A B} (P : B → Prop) `{∀ b, Decision (P b)} (l : list (A * B)) :
  (filter (λ ab, P ab.2) l).*2 = filter P (l.*2).
Proof.
  induction l as [|[a b] l IH]; [done|].
  change (((a, b) :: l).*2) with (b :: l.*2). rewrite !filter_cons. cbn [snd].
  destruct (decide (P b)); [|done]. rewrite fmap_cons. by rewrite IH.
Qed.

Lemma puts_filterChangesByScope {schema : StoreSchema} scope d :
  puts (filterChangesByScope scope d) = filter (λ r, inScope scope r) (puts d).
Proof.
  unfold puts. cbn. rewrite filter_app. f_equal.
  exact (filter_snd_fmap (λ r : TLRecord, Is_true (@inScope schema scope r)) _).
Qed.

Lemma elem_of_ids_filter (P : TLRecord → Prop) `{∀ r, Decision (P r)}
    (l : list TLRecord) (k : string) :
  k ∈ id <$> filter P l → k ∈ id <$> l.
Proof.
  rewrite !list_elem_of_fmap. intros (r & -> & Hr).
  apply list_elem_of_filter in Hr as [_ Hr]. by exists r.
Qed.

Lemma NoDup_ids_filter (P : TLRecord → Prop) `{∀ r, Decision (P r)}
    (l : list TLRecord) :
  NoDup (id <$> l) → NoDup (id <$> filter P l).
Proof.
  induction l as [|r l IH]; [done|]. rewrite fmap_cons.
  intros [Hfresh Hnd]%NoDup_cons.
  rewrite filter_cons. destruct (decide (P r)); [|by apply IH].
  rewrite fmap_cons. apply NoDup_cons. split; [|by apply IH].
  intros Hin. by apply elem_of_ids_filter in Hin.
Qed.

(** In a list without repeated ids a record is known by its id. *)
Lemma NoDup_ids_inj (l : list TLRecord) r r' :
  NoDup (id <$> l) → r ∈ l → r' ∈ l → id r = id r' → r = r'.
Proof.
  induction l as [|a l IH]; intros Hnd Hr Hr' Hid; [by apply elem_of_nil in Hr|].
  cbn in Hnd. apply NoDup_cons in Hnd as [Hfresh Hnd].
  apply elem_of_cons in Hr as [->|Hr]; apply elem_of_cons in Hr' as [->|Hr'].
  - done.
  - exfalso. apply Hfresh. rewrite Hid. apply list_elem_of_fmap. by exists r'.
  - exfalso. apply Hfresh. rewrite <- Hid. apply list_elem_of_fmap. by exists r.
  - by apply IH.
Qed.

Lemma lookup_documentRecords `{StoreSchema} s k :
  documentRecords s !! k
  = match s !! k with
    | Some r => if inScope document r then Some r else None
    | None => None
    end.
Proof.
  unfold documentRecords. rewrite map_lookup_filter.
  destruct (s !! k) as [r|]; cbn; [|done].
  destruct (inScope document r) eqn:Hr.
  - by rewrite option_guard_True.
  - rewrite option_guard_False; [done|]. by intros [].
Qed.

(** The document records of the edited store are the document records of
    the store before, edited by the document part of the diff. *)
Lemma documentRecords_applyDiff `{StoreSchema} s d :
  validDiff s d →
  documentRecords (applyDiff d s)
  = applyDiff (filterChangesByScope document d) (documentRecords s).
Proof.
  intros (Hnd & Hadd & Hupd & Hrem).
  rewrite Forall_forall in Hadd. rewrite Forall_forall in Hupd.
  rewrite Forall_forall in Hrem.
  rewrite fmap_app in Hnd. apply NoDup_app in Hnd as (Hndp & Hdisj & Hndr).
  set (P := λ r : TLRecord, Is_true (inScope document r)).
  assert (HndP : NoDup (id <$> puts (filterChangesByScope document d))).
  { rewrite puts_filterChangesByScope. by apply (NoDup_ids_filter P). }
  assert (Hscope : ∀ r r', typeName r = typeName r' →
                           inScope document r = inScope document r').
  { intros r r' Heq. unfold inScope. by rewrite Heq. }
  (* what the store held under the id of a written record is not a document
     record unless the written record is one *)
  assert (Hold : ∀ r, r ∈ puts d → inScope document r = false →
                      documentRecords s !! id r = None).
  { intros r Hr Hno. rewrite lookup_documentRecords.
    apply elem_of_app in Hr as [Hr|Hr].
    - by rewrite (Hadd r Hr).
    - apply list_elem_of_fmap in Hr as ([from to] & -> & Hft).
      destruct (Hupd _ Hft) as [Hs Hty]. cbn in *. rewrite Hs.
      by rewrite <- (Hscope to from Hty), Hno. }
  apply map_eq. intros k. rewrite lookup_documentRecords.
  destruct (decide (k ∈ id <$> RecordsDiff.removed d)) as [Hk|Hk].
  { rewrite lookup_applyDiff_removed by done.
    destruct (decide (k ∈ id <$> RecordsDiff.removed (filterChangesByScope document d)))
      as [Hk'|Hk'].
    { by rewrite lookup_applyDiff_removed. }
    apply list_elem_of_fmap in Hk as (r & -> & Hr).
    rewrite lookup_applyDiff_other; [| done |].
    - rewrite lookup_documentRecords, (Hrem r Hr).
      destruct (inScope document r) eqn:Hdoc; [|done].
      exfalso. apply Hk'. apply list_elem_of_fmap. exists r. split; [done|].
      cbn. apply list_elem_of_filter. split; [by rewrite Hdoc|done].
    - rewrite puts_filterChangesByScope. intros Hin.
      apply (elem_of_ids_filter P) in Hin.
      apply list_elem_of_fmap in Hin as (r' & Hid & Hr').
      apply (Hdisj (id r')); [by apply list_elem_of_fmap; exists r'|].
      rewrite <- Hid. apply list_elem_of_fmap. by exists r. }
  assert (Hk' : k ∉ id <$> RecordsDiff.removed (filterChangesByScope document d)).
  { intros Hin. apply Hk. cbn in Hin. by apply (elem_of_ids_filter P) in Hin. }
  destruct (decide (k ∈ id <$> puts d)) as [Hp|Hp].
  - apply list_elem_of_fmap in Hp as (r & -> & Hr).
    rewrite lookup_applyDiff_put by done.
    destruct (inScope document r) eqn:Hdoc.
    + rewrite lookup_applyDiff_put; [done..|].
      rewrite puts_filterChangesByScope. apply list_elem_of_filter.
      split; [by rewrite Hdoc|done].
    + rewrite lookup_applyDiff_other; [by rewrite Hold | done |].
      rewrite puts_filterChangesByScope. intros Hin.
      apply list_elem_of_fmap in Hin as (r' & Hid & Hr').
      apply list_elem_of_filter in Hr' as [Hdoc' Hr'].
      assert (r = r') as <- by (by apply (NoDup_ids_inj (puts d))).
      by rewrite Hdoc in Hdoc'.
  - rewrite (lookup_applyDiff_other d) by done.
    rewrite lookup_applyDiff_other; [by rewrite lookup_documentRecords|done|].
    rewrite puts_filterChangesByScope. intros Hin. apply Hp.
    by apply (elem_of_ids_filter P) in Hin.
Qed.

Lemma applyDiff_empty d m : isEmptyDiff d = true → applyDiff d m = m.
Proof.
  unfold isEmptyDiff. intros (Ha & Hu & Hr)%bool_decide_eq_true.
  unfold applyDiff. by rewrite Ha, Hu, Hr.
Qed.

(** Every registered listener writes the same diff in a transaction of its
    own; after the first one the log no longer changes. *)
(** One user edit, with the bridge active. *)
Lemma iter_idempotent {A} (f : A → A) n a :
  (∀ x, f (f x) = f x) → Nat.iter (S n) f a = f a.
Proof. intros Hf. induction n as [|n IH]; [done|]. cbn in *. by rewrite IH. Qed.

(** A user edit, seen whole: the store first delivers what it held, the
    edit lands in the store, and every store listener writes the document
    part of the edit in a transaction of its own. *)
Lemma step_local_edit_run `{StoreSchema} `{Session} w d :
  let filtered := filterChangesByScope document d in
  let n := if isEmptyDiff filtered then 0 else activations w in
  store (step w (EvLocalEdit d)) = applyDiff d (store w)
  ∧ yStore (step w (EvLocalEdit d))
    = Nat.iter n (applyDiff filtered) (yStore (delivered w))
  ∧ trace (step w (EvLocalEdit d))
    = trace (delivered w) ++ replicate n (Transact (syncOps filtered))
  ∧ besidesLog (step w (EvLocalEdit d))
    = besidesLog (with_store (applyDiff d (store w)) w)
  ∧ pendingHistory (step w (EvLocalEdit d)) = None.
Proof.
  cbv zeta. destruct (flushHistory_run w) as (Hrun & _ & _ & Hb0 & Hp0).
  set (w0 := delivered w) in *.
  set (w1 := with_store (applyDiff d (store w0)) w0).
  assert (Hstep : step w (EvLocalEdit d)
    = (if isEmptyDiff (filterChangesByScope document d) then w1
       else (each (activations w1)
                  (syncStoreChangesToYjsDoc (filterChangesByScope document d)) w1).2)).
  { unfold step, exec, dispatch. unfold bind at 1. rewrite Hrun.
    unfold bind, modify, get. fold w1.
    by destruct (isEmptyDiff (filterChangesByScope document d)). }
  rewrite Hstep. clear Hstep.
  unfold besidesLog in Hb0. injection Hb0 as Hs Hst Hm Hd Hsub Hcon Hact Hal.
  assert (Hb1 : besidesLog w1 = besidesLog (with_store (applyDiff d (store w)) w)).
  { unfold besidesLog, w1.
    cbn [store storeWithStatus meta docDestroyed syncedSubscribed hasConnectedBefore
         activations awarenessListeners with_store].
    by rewrite Hs, Hst, Hm, Hd, Hsub, Hcon, Hact, Hal. }
  destruct (isEmptyDiff (filterChangesByScope document d)).
  - cbn [Nat.iter nat_rect replicate]. rewrite app_nil_r.
    split_and!; [by cbn; rewrite Hs|done|done|exact Hb1|exact Hp0].
  - destruct (each_syncStoreChangesToYjsDoc_iter (activations w1)
                (filterChangesByScope document d) w1)
      as (w' & -> & Hy & Ht & Hb & Hp).
    cbn [snd]. change (activations w1) with (activations w0) in *. rewrite Hact in *.
    split_and!.
    + unfold besidesLog in Hb. injection Hb as -> _ _ _ _ _ _ _. cbn. by rewrite Hs.
    + exact Hy.
    + exact Ht.
    + by rewrite Hb.
    + by rewrite Hp.
Qed.

Lemma step_local_edit `{StoreSchema} `{Session} w d :
  0 < activations w →
  pendingHistory w = None →
  NoDup (id <$> puts d) →
  store (step w (EvLocalEdit d)) = applyDiff d (store w)
  ∧ yStore (step w (EvLocalEdit d))
    = applyDiff (filterChangesByScope document d) (yStore w)
  ∧ activations (step w (EvLocalEdit d)) = activations w
  ∧ pendingHistory (step w (EvLocalEdit d)) = None.
Proof.
  intros Hact Hidle Hnd.
  destruct (step_local_edit_run w d) as (Hs & Hy & _ & Hb & Hp). cbv zeta in *.
  rewrite (delivered_idle w Hidle) in Hy.
  unfold besidesLog in Hb. injection Hb as _ _ _ _ _ _ Ha _.
  split_and!; [exact Hs| |exact Ha|exact Hp].
  rewrite Hy. destruct (isEmptyDiff (filterChangesByScope document d)) eqn:Hempty.
  - cbn [Nat.iter nat_rect]. by rewrite applyDiff_empty.
  - destruct (activations w) as [|n]; [lia|].
    apply iter_idempotent. intros log. apply applyDiff_idempotent.
    rewrite puts_filterChangesByScope.
    by apply (NoDup_ids_filter (λ r, Is_true (inScope document r))).
Qed.

(** C1, as the code has it.  Start from a world in which the bridge is
    active, the log mirrors the store and the store holds no change it has
    not delivered, and let the user edit the store any number of times.
    After the transaction of each edit, the store is the store before with
    the edit applied, the log is the log before with every added and updated
    document record written under its id and the id of every removed
    document record deleted, and the log holds exactly the document records
    of the store. *)
Theorem mirror_equivalence `{StoreSchema} `{Session} (w : World)
    (edits : list RecordsDiff.t) :
  0 < activations w →
  pendingHistory w = None →
  mirror w →
  validEdits (store w) edits →
  mirror (run w (EvLocalEdit <$> edits))
  ∧ store (run w (EvLocalEdit <$> edits))
    = foldl (λ s d, applyDiff d s) (store w) edits
  ∧ yStore (run w (EvLocalEdit <$> edits))
    = foldl (λ log d, applyDiff (filterChangesByScope document d) log) (yStore w) edits.
Proof.
  revert w. induction edits as [|d edits IH]; intros w Hact Hidle Hmirror Hvalid; [done|].
  destruct Hvalid as [Hd Hvalid].
  assert (Hnd : NoDup (id <$> puts d)).
  { destruct Hd as [Hnd _]. rewrite fmap_app in Hnd. by apply NoDup_app in Hnd as [? _]. }
  destruct (step_local_edit w d Hact Hidle Hnd) as (Hs & Hy & Ha & Hp).
  change (run w (EvLocalEdit <$> d :: edits))
    with (run (step w (EvLocalEdit d)) (EvLocalEdit <$> edits)).
  cbn [foldl]. rewrite <- Hs, <- Hy. apply IH.
  - by rewrite Ha.
  - exact Hp.
  - unfold mirror in *. rewrite Hy, Hs, Hmirror. symmetry.
    by apply documentRecords_applyDiff.
  - by rewrite Hs.
Qed.

Lemma mirror_equivalence_witness :
  0 < activations Demo.synced
  ∧ pendingHistory Demo.synced = None
  ∧ mirror Demo.synced
  ∧ validEdits (store Demo.synced) Demo.edits
  ∧ mirror (run Demo.synced (EvLocalEdit <$> Demo.edits))
  ∧ yStore (run Demo.synced (EvLocalEdit <$> Demo.edits))
    = {["shape:b"%string := Demo.r2']}
  ∧ store (run Demo.synced (EvLocalEdit <$> Demo.edits))
    = <["camera:page:1"%string := Demo.camera']> {["shape:b"%string := Demo.r2']}.
Proof.
  assert (Hact : 0 < activations Demo.synced) by (cbn; lia).
  assert (Hmirror : mirror Demo.synced) by (vm_compute; reflexivity).
  assert (Hvalid : validEdits (store Demo.synced) Demo.edits).
  { cbn [validEdits Demo.edits]. split_and!; [| |exact I].
    all: unfold validDiff; split;
      [ apply (bool_decide_unpack _); vm_compute; exact I
      | split_and!;
        repeat first [apply List.Forall_nil | apply List.Forall_cons];
        vm_compute; first [reflexivity | split; reflexivity] ]. }
  pose proof (mirror_equivalence Demo.synced Demo.edits Hact eq_refl Hmirror Hvalid)
    as Hrun.
  destruct Hrun as (Hm & Hs & Hy).
  split; [exact Hact|]. split; [reflexivity|]. split; [exact Hmirror|].
  split; [exact Hvalid|].
  split; [exact Hm|]. split.
  - rewrite Hy. vm_compute. reflexivity.
  - rewrite Hs. vm_compute. reflexivity.
Defined.

(** ** C2: echo suppression *)

(** C2, as the code has it.  A change notification of the Replicated Log
    whose transaction is flagged local leaves the whole world as it was,
    however many [handleChange] listeners hear it: none merges, puts or
    removes.  So a user edit adds to the trace, after what the store still
    had to deliver ([delivered w] is [w] itself when it had nothing), one
    transaction for every registered store listener when it changes a
    document record and nothing otherwise: exactly one when [handleSync] ran
    once, one more for every further run.  It adds no merge, and the store
    holds the edit and nothing else. *)
Theorem echo_suppression `{StoreSchema} `{Session} (w : World) (changes : RecordsDiff.t) :
  let filtered := filterChangesByScope document changes in
  let listeners := if isEmptyDiff filtered then 0 else activations w in
  (∀ n notification w0, each n (handleChange notification true) w0 = (Normal tt, w0))
  ∧ trace (step w (EvLocalEdit changes))
    = trace (delivered w) ++ replicate listeners (Transact (syncOps filtered))
  ∧ transactions (step w (EvLocalEdit changes)) = transactions (delivered w) + listeners
  ∧ merges (step w (EvLocalEdit changes)) = merges w
  ∧ store (step w (EvLocalEdit changes)) = applyDiff changes (store w)
  ∧ (pendingHistory w = None → delivered w = w).
Proof.
  cbv zeta.
  destruct (step_local_edit_run w changes) as (Hs & _ & Ht & _). cbv zeta in Ht.
  destruct (delivered_counts w) as (_ & Hmd).
  destruct (filter_replicate_transact
              (if isEmptyDiff (filterChangesByScope document changes)
               then 0 else activations w)
              (syncOps (filterChangesByScope document changes))) as [Hn Hz].
  split_and!.
  - intros n notification w0. apply each_local_handleChange.
  - exact Ht.
  - unfold transactions at 1. by rewrite Ht, transactions_app, Hn.
  - unfold merges at 1. rewrite Ht, merges_app, Hz, Hmd. cbn. lia.
  - exact Hs.
  - apply delivered_idle.
Qed.

Lemma echo_suppression_witness :
  activations Demo.synced = 1
  ∧ pendingHistory Demo.synced = None
  ∧ trace (step Demo.synced (EvLocalEdit (RecordsDiff.mk [Demo.r2] [(Demo.camera, Demo.camera')] [])))
    = [Transact [YSet "shape:b" Demo.r2]]
  ∧ merges (step Demo.synced
              (EvLocalEdit (RecordsDiff.mk [Demo.r2] [(Demo.camera, Demo.camera')] []))) = 0.
Proof.
  pose proof (echo_suppression Demo.synced
                (RecordsDiff.mk [Demo.r2] [(Demo.camera, Demo.camera')] [])) as Hecho.
  cbv zeta in Hecho. destruct Hecho as (_ & Ht & _ & Hm & _ & _).
  split; [reflexivity|]. split; [reflexivity|]. split.
  - rewrite Ht. vm_compute. reflexivity.
  - rewrite Hm. reflexivity.
Defined.

(** C2 (as the spec states it) fails: [handleSync] ran twice, on two
    ['synced'] events of the first connection, and the store delivered what
    the second run loaded.  One user edit that adds a shape then commits two
    transactions, one for each store listener, with the same writes. *)
Lemma two_listeners_two_transactions :
  activations (run (Demo.joining Demo.S_new)
                 [EvStatus connected; EvSynced; EvSynced; EvHistory]) = 2
  ∧ pendingHistory (run (Demo.joining Demo.S_new)
                      [EvStatus connected; EvSynced; EvSynced; EvHistory]) = None
  ∧ trace (run (Demo.joining Demo.S_new)
             [EvStatus connected; EvSynced; EvSynced; EvHistory;
              EvLocalEdit (RecordsDiff.mk [Demo.r2] [] [])])
    = trace (run (Demo.joining Demo.S_new)
               [EvStatus connected; EvSynced; EvSynced; EvHistory])
      ++ [Transact [YSet "shape:b" Demo.r2]; Transact [YSet "shape:b" Demo.r2]]
  ∧ transactions (run (Demo.joining Demo.S_new)
                    [EvStatus connected; EvSynced; EvSynced; EvHistory;
                     EvLocalEdit (RecordsDiff.mk [Demo.r2] [] [])])
    = transactions (run (Demo.joining Demo.S_new)
                      [EvStatus connected; EvSynced; EvSynced; EvHistory]) + 2.
Proof. vm_compute. done. Qed.

(** C1 (as the spec states it) fails: the store of a fresh activation holds
    a shape and a camera and the log is empty.  Seeding writes both records
    to the log, so the log holds a record that is not a document record of
    the store, and it still does after a user edit that adds a second
    shape. *)
Lemma seeded_log_holds_session_records :
  scopeOf (typeName Demo.camera) = session
  ∧ yStore (run Scenes.first [EvStatus connected; EvSynced]) !! "camera:page:1"%string
    = Some Demo.camera
  ∧ documentRecords (store (run Scenes.first [EvStatus connected; EvSynced]))
      !! "camera:page:1"%string = None
  ∧ yStore (run Scenes.first [EvStatus connected; EvSynced;
                              EvLocalEdit (RecordsDiff.mk [Demo.r2] [] [])])
      !! "shape:b"%string = Some Demo.r2
  ∧ yStore (run Scenes.first [EvStatus connected; EvSynced;
                              EvLocalEdit (RecordsDiff.mk [Demo.r2] [] [])])
      !! "camera:page:1"%string = Some Demo.camera
  ∧ documentRecords
      (store (run Scenes.first [EvStatus connected; EvSynced;
                                EvLocalEdit (RecordsDiff.mk [Demo.r2] [] [])]))
      !! "camera:page:1"%string = None.
Proof. vm_compute. done. Qed.

(** ** Frame lemmas for the lifecycle *)

Section Preservation.
Context {B : Type} (f : World → B).

Lemma preserves_ret {A} (a : A) : preserves f (ret a).
Proof. done. Qed.

Lemma preserves_throw {A} message : preserves f (@throw A message).
Proof. done. Qed.

Lemma preserves_get : preserves f get.
Proof. done. Qed.

Lemma preserves_modify g : (∀ w, f (g w) = f w) → preserves f (modify g).
Proof. intros Hg w. apply Hg. Qed.

Lemma preserves_bind {A C} (c : M A) (k : A → M C) :
  preserves f c → (∀ a, preserves f (k a)) → preserves f (bind c k).
Proof.
  intros Hc Hk w. unfold bind. specialize (Hc w).
  destruct (c w) as [[a|e] w']; cbn in *; [|done].
  by rewrite Hk.
Qed.

Lemma preserves_each n c : preserves f c → preserves f (each n c).
Proof.
  intros Hc. induction n as [|n IH]; [apply preserves_ret|].
  cbn [each]. by apply preserves_bind.
Qed.
End Preservation.

Lemma preserves_effect e : preserves lifecycle (effect e).
Proof. by apply preserves_modify. Qed.

Lemma preserves_mergeRemoteChanges fn : preserves lifecycle (mergeRemoteChanges fn).
Proof.
  unfold mergeRemoteChanges.
  apply preserves_bind; [apply preserves_effect|]. intros _.
  apply preserves_bind; [apply preserves_get|]. intros w.
  destruct (fn (store w)); [by apply preserves_modify|apply preserves_throw].
Qed.

Lemma preserves_handleUpdate `{StoreSchema} `{Session} states update :
  preserves lifecycle (handleUpdate states update).
Proof. apply preserves_mergeRemoteChanges. Qed.

Lemma preserves_destroy `{StoreSchema} `{Session} : preserves lifecycle destroy.
Proof.
  unfold destroy.
  apply preserves_bind; [apply preserves_get|]. intros w.
  destruct (docDestroyed w); [apply preserves_ret|].
  apply preserves_bind; [by apply preserves_modify|]. intros _.
  apply preserves_bind; [apply preserves_each, preserves_handleUpdate|]. intros _.
  by apply preserves_modify.
Qed.

Lemma preserves_publishPresence `{StoreSchema} `{Session} :
  preserves lifecycle publishPresence.
Proof.
  unfold publishPresence.
  apply preserves_bind; [apply preserves_get|]. intros w.
  destruct (docDestroyed w); [apply preserves_ret|].
  apply preserves_each, preserves_handleUpdate.
Qed.

Lemma preserves_loadSnapshot `{StoreSchema} snapshot :
  preserves lifecycle (loadSnapshot snapshot).
Proof.
  unfold loadSnapshot.
  apply preserves_bind; [apply preserves_get|]. intros w.
  destruct (store_put _ _); [|apply preserves_throw].
  apply preserves_bind; [by apply preserves_modify|]. intros _.
  by apply preserves_modify.
Qed.

Lemma preserves_handleChange `{StoreSchema} changes local :
  preserves lifecycle (handleChange changes local).
Proof.
  unfold handleChange. destruct local; [apply preserves_ret|].
  apply preserves_bind; [apply preserves_get|]. intros w.
  apply preserves_mergeRemoteChanges.
Qed.

Lemma preserves_handleMetaUpdate `{StoreSchema} `{Session} : preserves lifecycle handleMetaUpdate.
Proof.
  unfold handleMetaUpdate.
  apply preserves_bind; [apply preserves_get|]. intros w.
  destruct (meta w) as [theirs|]; [|apply preserves_throw].
  destruct (getMigrationsSince theirs) as [[|m ms]|e].
  - apply preserves_ret.
  - apply preserves_bind; [apply preserves_effect|]. intros _. apply preserves_destroy.
  - apply preserves_bind; [apply preserves_effect|]. intros _. apply preserves_destroy.
Qed.

Lemma preserves_transact `{StoreSchema} `{Session} ops : preserves lifecycle (transact ops).
Proof.
  unfold transact.
  apply preserves_bind; [apply preserves_get|]. intros before.
  apply preserves_bind.
  { apply preserves_modify. intros w. unfold lifecycle.
    by destruct (foldl_applyOp_frame ops w) as (_ & -> & _ & -> & -> & -> & _). }
  intros _. apply preserves_bind; [apply preserves_effect|]. intros _.
  apply preserves_bind; [apply preserves_each, preserves_handleChange|]. intros _.
  destruct (existsb isMetaOp ops); [|apply preserves_ret].
  apply preserves_each, preserves_handleMetaUpdate.
Qed.

Lemma preserves_flushHistory `{StoreSchema} `{Session} : preserves lifecycle flushHistory.
Proof.
  unfold flushHistory.
  apply preserves_bind; [apply preserves_get|]. intros w.
  destruct (pendingHistory w) as [changes|]; [|apply preserves_ret].
  apply preserves_bind; [by apply preserves_modify|]. intros _.
  destruct (isEmptyDiff _); [apply preserves_ret|].
  apply preserves_each, preserves_transact.
Qed.

(** Only the transport events touch the lifecycle. *)
Lemma step_other_lifecycle `{StoreSchema} `{Session} w e :
  isConnected e = false → isDisconnected e = false → isSynced e = false →
  lifecycle (step w e) = lifecycle w.
Proof.
  intros Hc Hd Hs. unfold step, exec.
  destruct e as [[]| |changes|log changes|schema|states update|]; try done; cbn [dispatch].
  - apply (preserves_bind lifecycle); [apply preserves_flushHistory|]. intros _.
    apply (preserves_bind lifecycle); [by apply preserves_modify|]. intros _.
    destruct (isEmptyDiff _); [apply preserves_ret|].
    apply preserves_bind; [apply preserves_get|]. intros w'.
    apply preserves_each, preserves_transact.
  - apply (preserves_bind lifecycle); [by apply preserves_modify|]. intros _.
    apply preserves_bind; [apply preserves_get|]. intros w'.
    apply preserves_each, preserves_handleChange.
  - apply (preserves_bind lifecycle); [by apply preserves_modify|]. intros _.
    apply preserves_bind; [apply preserves_get|]. intros w'.
    apply preserves_each, preserves_handleMetaUpdate.
  - apply (preserves_bind lifecycle); [apply preserves_get|]. intros w'.
    apply preserves_each, preserves_handleUpdate.
  - apply preserves_flushHistory.
Qed.

(** [handleSync], read as the body that runs once the store has delivered
    its history and the listeners of this run are registered. *)
Lemma handleSync_body `{StoreSchema} `{Session} w :
  handleSync w
  = (let w0 := registered (delivered w) in
     let finish : M SyncOutcome :=
       modify (with_storeWithStatus (synced_remote online)) ;;; ret Reconciled in
     (if decide (size (yStore w0) ≠ 0) then
        match meta w0 with
        | None => throw "No schema found"
        | Some theirSchema =>
            let records := (map_to_list (yStore w0)).*2 in
            match migrateStoreSnapshot theirSchema (fromEntries records) with
            | MigrationError reason =>
                effect (ConsoleError reason) ;;;
                effect (Alert "The schema has been updated. Please refresh the page") ;;;
                ret MigrationFailed
            | MigrationSuccess value =>
                transact (migrationOps records value serialize) ;;;
                loadSnapshot value ;;; finish
            end
        end
      else transact (seedOps (store w0)) ;;; finish) w0).
Proof.
  destruct (flushHistory_run w) as (Hrun & _). cbv zeta.
  unfold handleSync. unfold bind at 1. rewrite Hrun.
  unfold bind at 1. cbn [modify].
  unfold bind at 1. rewrite publishPresence_run.
  unfold bind at 1. cbn [modify]. unfold bind at 1. cbn [get].
  reflexivity.
Qed.

Lemma registered_lifecycle `{StoreSchema} `{Session} w :
  lifecycle (registered (delivered w))
  = (storeWithStatus w, syncedSubscribed w, hasConnectedBefore w, S (activations w)).
Proof.
  destruct (flushHistory_run w) as (_ & _ & _ & Hb & _).
  unfold besidesLog in Hb. injection Hb as _ Hst _ _ Hsub Hcon Hact _.
  unfold lifecycle, registered. cbn. by rewrite Hst, Hsub, Hcon, Hact.
Qed.

(** [handleSync] registers one more set of listeners, leaves the
    subscription flags alone, and sets the status exactly when it reaches its
    last statement. *)
Lemma handleSync_lifecycle `{StoreSchema} `{Session} w :
  lifecycle (handleSync w).2
  = (if isReconciled (handleSync w).1 then synced_remote online else storeWithStatus w,
     syncedSubscribed w, hasConnectedBefore w, S (activations w)).
Proof.
  rewrite handleSync_body. cbv zeta.
  pose proof (registered_lifecycle w) as Hl0.
  set (w0 := registered (delivered w)) in *.
  assert (Hfinish : ∀ ops (c : M unit),
    preserves lifecycle c →
    let r := (transact ops ;;; c ;;;
              modify (with_storeWithStatus (synced_remote online)) ;;; ret Reconciled) w0 in
    lifecycle r.2
    = (if isReconciled r.1 then synced_remote online else storeWithStatus w,
       syncedSubscribed w, hasConnectedBefore w, S (activations w))).
  { intros ops c Hc. cbv zeta.
    assert (Hr : (transact ops ;;; c ;;;
                  modify (with_storeWithStatus (synced_remote online)) ;;;
                  ret Reconciled) w0
                 = match transact ops w0 with
                   | (Normal _, w1) =>
                       match c w1 with
                       | (Normal _, w2) =>
                           (Normal Reconciled,
                            with_storeWithStatus (synced_remote online) w2)
                       | (Throw e, w2) => (Throw e, w2)
                       end
                   | (Throw e, w1) => (Throw e, w1)
                   end).
    { unfold bind. destruct (transact ops w0) as [[[]|e] w1]; [|done].
      by destruct (c w1) as [[[]|e] w2]. }
    rewrite Hr. clear Hr.
    pose proof (preserves_transact ops w0) as Ht.
    destruct (transact ops w0) as [[[]|e] w1]; cbn in Ht.
    - specialize (Hc w1). destruct (c w1) as [[[]|e] w2]; cbn in Hc.
      + cbn. unfold lifecycle in *. cbn in *.
        inversion Hc. inversion Ht. inversion Hl0. congruence.
      + cbn. by rewrite Hc, Ht.
    - cbn. by rewrite Ht. }
  destruct (decide (size (yStore w0) ≠ 0)).
  - destruct (meta w0) as [theirs|]; [|done].
    destruct (migrateStoreSnapshot theirs _) as [value|reason]; [|done].
    apply (Hfinish _ (loadSnapshot value)). apply preserves_loadSnapshot.
  - specialize (Hfinish (seedOps (store w0)) (ret tt) (preserves_ret _ _)).
    cbv zeta in Hfinish. unfold bind in *. cbn [ret] in Hfinish.
    destruct (transact (seedOps (store w0)) w0) as [[[]|e] w1]; exact Hfinish.
Qed.

(** ** The transport events *)

Lemma step_connected_lifecycle `{StoreSchema} `{Session} w :
  lifecycle (step w (EvStatus connected))
  = (storeWithStatus w, negb (hasConnectedBefore w), true, activations w).
Proof.
  unfold step, exec, dispatch, handleStatusChange, bind.
  destruct (decide (connected = disconnected)) as [|_]; [done|].
  destruct (decide (connected = connected)) as [_|]; [|done].
  by destruct w as [? ? ? ? ? ? [] ? ?].
Qed.

Lemma step_disconnected_lifecycle `{StoreSchema} `{Session} w :
  lifecycle (step w (EvStatus disconnected))
  = (synced_remote offline, syncedSubscribed w, hasConnectedBefore w, activations w).
Proof. done. Qed.

Lemma step_synced_lifecycle `{StoreSchema} `{Session} w :
  lifecycle (step w EvSynced)
  = if syncedSubscribed w
    then (if isReconciled (handleSync w).1 then synced_remote online
          else storeWithStatus w,
          true, hasConnectedBefore w, S (activations w))
    else lifecycle w.
Proof.
  unfold step, exec, dispatch. unfold bind at 1. cbn [get].
  destruct (syncedSubscribed w) eqn:Hsub; [|done].
  pose proof (handleSync_lifecycle w) as Hsync. rewrite Hsub in Hsync.
  unfold bind. by destruct (handleSync w) as [[r|e] w'].
Qed.

Lemma lifecycle_eq w status subscribed before n :
  lifecycle w = (status, subscribed, before, n) →
  storeWithStatus w = status ∧ syncedSubscribed w = subscribed
  ∧ hasConnectedBefore w = before ∧ activations w = n.
Proof. unfold lifecycle. by intros [= -> -> -> ->]. Qed.

(** Every event is a transport event or leaves the lifecycle alone. *)
Lemma event_cases (e : Event) :
  e = EvStatus connected ∨ e = EvStatus disconnected ∨ e = EvSynced
  ∨ (isConnected e = false ∧ isDisconnected e = false ∧ isSynced e = false).
Proof. destruct e as [[]| | | | | |]; naive_solver. Qed.

(** The status after one event is [loading] exactly when it was [loading],
    the event is not a ['disconnected'] status and it does not complete a
    reconciliation. *)
Lemma step_status_loading `{StoreSchema} `{Session} w e :
  storeWithStatus (step w e) = loading
  ↔ storeWithStatus w = loading ∧ isDisconnected e = false ∧ completesSync w e = false.
Proof.
  assert (Hsame : ∀ st : TLStoreWithStatus,
            st = loading ↔ st = loading ∧ false = false ∧ false = false).
  { intros st. split; [by intros ->|by intros [-> _]]. }
  destruct (event_cases e) as [->|[->|[->|(Hc & Hd & Hs)]]].
  - destruct (lifecycle_eq _ _ _ _ _ (step_connected_lifecycle w)) as (-> & _).
    apply Hsame.
  - destruct (lifecycle_eq _ _ _ _ _ (step_disconnected_lifecycle w)) as (-> & _).
    cbn. split; [done|]. by intros (_ & ? & _).
  - pose proof (step_synced_lifecycle w) as Hl. cbn [completesSync isDisconnected].
    destruct (syncedSubscribed w).
    + apply lifecycle_eq in Hl as (-> & _). cbn [andb].
      destruct (isReconciled (handleSync w).1); [|apply Hsame].
      split; [done|]. by intros (_ & _ & ?).
    + apply lifecycle_eq in Hl as (-> & _). apply Hsame.
  - destruct (lifecycle_eq _ _ _ _ _ (step_other_lifecycle w e Hc Hd Hs)) as (-> & _).
    assert (completesSync w e = false) as -> by (by destruct e).
    rewrite Hd. apply Hsame.
Qed.

(** ** C6: the status leaves [loading] once *)

(** C6 (as the code has it).  After any sequence of events the status is
    [loading] exactly when it was [loading] before, no ['disconnected']
    status arrived and no ['synced'] event made [handleSync] run to its end;
    and a status that has left [loading] stays away from it whatever events
    follow. *)
Theorem status_leaves_loading_once `{StoreSchema} `{Session} (w : World)
    (events : list Event) :
  (storeWithStatus (run w events) = loading
   ↔ storeWithStatus w = loading
     ∧ existsb isDisconnected events = false
     ∧ reconciles w events = false)
  ∧ (∀ more, storeWithStatus (run w events) ≠ loading →
             storeWithStatus (run w (events ++ more)) ≠ loading).
Proof.
  assert (Hiff : ∀ events w,
    storeWithStatus (run w events) = loading
    ↔ storeWithStatus w = loading
      ∧ existsb isDisconnected events = false
      ∧ reconciles w events = false).
  { clear w events. induction events as [|e events IH]; intros w.
    - cbn. split; [by intros ->|by intros [-> _]].
    - change (run w (e :: events)) with (run (step w e) events).
      rewrite IH, step_status_loading. cbn [existsb reconciles].
      rewrite !orb_false_iff. tauto. }
  split; [apply Hiff|].
  intros more Hleft Hloading. apply Hleft.
  unfold run in Hloading. rewrite foldl_app in Hloading.
  by apply (Hiff more) in Hloading as [? _].
Qed.

(** C6 (as the spec states it) fails: a connection that drops before the
    first ['synced'] event takes the status out of [loading] although
    [handleSync] never ran. *)
Lemma disconnect_before_sync_leaves_loading :
  storeWithStatus (run (activate ∅ ∅ None) [EvStatus connected; EvStatus disconnected])
  = synced_remote offline
  ∧ activations (run (activate ∅ ∅ None) [EvStatus connected; EvStatus disconnected]) = 0
  ∧ reconciles (activate ∅ ∅ None) [EvStatus connected; EvStatus disconnected] = false.
Proof. vm_compute. done. Qed.

(** ** C7: how often [handleSync] runs *)

(** After a second ['connected'] status nothing is subscribed any more. *)
Lemma runs_after_reconnect `{StoreSchema} `{Session} events w :
  syncedSubscribed w = false → hasConnectedBefore w = true →
  activations (run w events) = activations w.
Proof.
  revert w. induction events as [|e events IH]; intros w Hsub Hbefore; [done|].
  change (run w (e :: events)) with (run (step w e) events).
  assert (Hstep : lifecycle (step w e) = (storeWithStatus (step w e), false, true, activations w)).
  { destruct (event_cases e) as [->|[->|[->|(Hc & Hd & Hs)]]].
    - destruct (lifecycle_eq _ _ _ _ _ (step_connected_lifecycle w)) as (_ & Hs' & Hb' & Ha').
      unfold lifecycle. by rewrite Hs', Hb', Ha', Hbefore.
    - destruct (lifecycle_eq _ _ _ _ _ (step_disconnected_lifecycle w)) as (_ & Hs' & Hb' & Ha').
      unfold lifecycle. by rewrite Hs', Hb', Ha', Hsub, Hbefore.
    - pose proof (step_synced_lifecycle w) as Hl. rewrite Hsub in Hl.
      apply lifecycle_eq in Hl as (_ & Hs' & Hb' & Ha').
      unfold lifecycle. by rewrite Hs', Hb', Ha', Hsub, Hbefore.
    - destruct (lifecycle_eq _ _ _ _ _ (step_other_lifecycle w e Hc Hd Hs)) as (_ & Hs' & Hb' & Ha').
      unfold lifecycle. by rewrite Hs', Hb', Ha', Hsub, Hbefore. }
  apply lifecycle_eq in Hstep as (_ & Hs' & Hb' & Ha').
  by rewrite IH.
Qed.

(** During the first connection every ['synced'] event runs [handleSync]. *)
Lemma runs_during_first_connection `{StoreSchema} `{Session} events w :
  syncedSubscribed w = true → hasConnectedBefore w = true →
  activations (run w events) = activations w + syncedCount (untilConnected events).
Proof.
  revert w. induction events as [|e events IH]; intros w Hsub Hbefore.
  { cbn. unfold syncedCount. cbn. lia. }
  change (run w (e :: events)) with (run (step w e) events).
  destruct (event_cases e) as [->|[->|[->|(Hc & Hd & Hs)]]].
  - destruct (lifecycle_eq _ _ _ _ _ (step_connected_lifecycle w)) as (_ & Hs' & Hb' & Ha').
    rewrite runs_after_reconnect; [|by rewrite Hs', Hbefore|done].
    rewrite Ha'. unfold syncedCount. cbn. lia.
  - destruct (lifecycle_eq _ _ _ _ _ (step_disconnected_lifecycle w)) as (_ & Hs' & Hb' & Ha').
    rewrite IH; [|by rewrite Hs'|by rewrite Hb']. by rewrite Ha'.
  - pose proof (step_synced_lifecycle w) as Hl. rewrite Hsub in Hl.
    apply lifecycle_eq in Hl as (_ & Hs' & Hb' & Ha').
    rewrite IH; [|done|by rewrite Hb'].
    rewrite Ha'. unfold syncedCount. cbn. lia.
  - destruct (lifecycle_eq _ _ _ _ _ (step_other_lifecycle w e Hc Hd Hs)) as (_ & Hs' & Hb' & Ha').
    rewrite IH; [|by rewrite Hs'|by rewrite Hb'].
    rewrite Ha'. unfold syncedCount. cbn [untilConnected]. rewrite Hc.
    cbn [List.filter]. by rewrite Hs.
Qed.

(** From activation on, [handleSync] runs once for every ['synced'] event of
    the first connection and at no other time. *)
Lemma runs_from_activation `{StoreSchema} `{Session} events w :
  syncedSubscribed w = false → hasConnectedBefore w = false →
  activations (run w events) = activations w + syncedCount (firstConnection events).
Proof.
  revert w. induction events as [|e events IH]; intros w Hsub Hbefore.
  { cbn. unfold syncedCount. cbn. lia. }
  change (run w (e :: events)) with (run (step w e) events).
  destruct (event_cases e) as [->|[->|[->|(Hc & Hd & Hs)]]].
  - destruct (lifecycle_eq _ _ _ _ _ (step_connected_lifecycle w)) as (_ & Hs' & Hb' & Ha').
    rewrite runs_during_first_connection; [|by rewrite Hs', Hbefore|done].
    by rewrite Ha'.
  - destruct (lifecycle_eq _ _ _ _ _ (step_disconnected_lifecycle w)) as (_ & Hs' & Hb' & Ha').
    rewrite IH; [|by rewrite Hs'|by rewrite Hb']. by rewrite Ha'.
  - pose proof (step_synced_lifecycle w) as Hl. rewrite Hsub in Hl.
    apply lifecycle_eq in Hl as (_ & Hs' & Hb' & Ha').
    rewrite IH; [|by rewrite Hs'|by rewrite Hb']. by rewrite Ha'.
  - destruct (lifecycle_eq _ _ _ _ _ (step_other_lifecycle w e Hc Hd Hs)) as (_ & Hs' & Hb' & Ha').
    rewrite IH; [|by rewrite Hs'|by rewrite Hb'].
    rewrite Ha'. unfold firstConnection. cbn [afterFirstConnected]. by rewrite Hc.
Qed.

Lemma syncedOncePerConnection_after seen events :
  syncedOncePerConnection seen events = true →
  syncedOncePerConnection false (afterFirstConnected events) = true.
Proof.
  revert seen. induction events as [|e events IH]; intros seen Hok; [done|].
  cbn in *. destruct (isConnected e); [done|].
  destruct (isSynced e); [|by eapply IH].
  apply andb_true_iff in Hok as [_ Hok]. by eapply IH.
Qed.

Lemma syncedOncePerConnection_count seen events :
  syncedOncePerConnection seen events = true →
  syncedCount (untilConnected events) ≤ (if seen then 0 else 1).
Proof.
  revert seen. induction events as [|e events IH]; intros seen Hok.
  { unfold syncedCount. cbn. destruct seen; lia. }
  cbn in Hok. cbn [untilConnected]. destruct (isConnected e).
  { unfold syncedCount. cbn. destruct seen; lia. }
  unfold syncedCount in *. cbn [List.filter]. destruct (isSynced e).
  - apply andb_true_iff in Hok as [Hseen Hok]. destruct seen; [done|].
    specialize (IH true Hok). cbn in *. lia.
  - by apply IH.
Qed.

Lemma syncedCount_exists events :
  existsb isSynced events = true → 1 ≤ syncedCount events.
Proof.
  unfold syncedCount. induction events as [|e events IH]; [done|].
  cbn. destruct (isSynced e); cbn; [lia|done].
Qed.

(** C7 (as the code has it).  From activation on, and for a transport whose
    ['synced'] event fires at most once between two ['connected'] events,
    [handleSync] runs at most once however often ['connected'] fires, and
    exactly once when a ['synced'] event arrives during the first
    connection, that is after the first ['connected'] status and before the
    next one. *)
Theorem handleSync_runs_at_most_once `{StoreSchema} `{Session}
    (s y : gmap string TLRecord) (m : option SerializedSchema) (events : list Event) :
  syncedOncePerConnection false events = true →
  activations (run (activate s y m) events) ≤ 1
  ∧ (existsb isSynced (firstConnection events) = true →
     activations (run (activate s y m) events) = 1).
Proof.
  intros Hok.
  assert (Hruns : activations (run (activate s y m) events)
                  = syncedCount (firstConnection events)).
  { by rewrite runs_from_activation. }
  assert (Hle : syncedCount (firstConnection events) ≤ 1).
  { apply (syncedOncePerConnection_count false).
    by eapply syncedOncePerConnection_after. }
  split; [lia|].
  intros Hex. apply syncedCount_exists in Hex. lia.
Qed.

Lemma handleSync_runs_at_most_once_witness :
  syncedOncePerConnection false
    [EvStatus connected; EvSynced; EvStatus disconnected;
     EvStatus connected; EvSynced; EvStatus connected] = true
  ∧ activations
      (run (Demo.joining Demo.S_old)
         [EvStatus connected; EvSynced; EvStatus disconnected;
          EvStatus connected; EvSynced; EvStatus connected]) = 1.
Proof.
  split; [reflexivity|].
  pose proof (handleSync_runs_at_most_once ∅ {["shape:a"%string := Demo.r1]}
                (Some Demo.S_old)
                [EvStatus connected; EvSynced; EvStatus disconnected;
                 EvStatus connected; EvSynced; EvStatus connected] eq_refl)
    as (_ & Hone).
  exact (Hone eq_refl).
Defined.

(** C7 (as the spec states it) fails: two ['synced'] events in the first
    connection run [handleSync] twice, and a connection without a ['synced']
    event does not run it at all. *)
Lemma second_synced_runs_handleSync_again :
  activations
    (run (Demo.joining Demo.S_new) [EvStatus connected; EvSynced; EvSynced]) = 2
  ∧ activations
      (run (Demo.joining Demo.S_new) [EvStatus connected; EvStatus disconnected]) = 0.
Proof. vm_compute. done. Qed.

(** * Reconciliation, remote events and presence *)

(** ** [handleSync], branch by branch *)

(** The schema observers only add to the trace. *)
Lemma handleMetaUpdate_grows `{StoreSchema} `{Session} w e :
  e ∈ trace w → e ∈ trace (handleMetaUpdate w).2.
Proof.
  intros He. unfold handleMetaUpdate, bind at 1. cbn [get].
  destruct (meta w) as [theirs|]; [|done].
  assert (Hstale : e ∈ trace ((effect (Alert "Please refresh the page, schema is updated")
                                ;;; destroy) w).2).
  { unfold bind. cbn [effect modify]. rewrite destroy_run. cbn [snd docDestroyed with_trace].
    destruct (docDestroyed w); cbn [trace with_trace with_store with_awarenessListeners
                                    with_docDestroyed].
    - apply elem_of_app. by left.
    - apply elem_of_app. left. apply elem_of_app. by left. }
  by destruct (getMigrationsSince theirs) as [[|m ms]|err].
Qed.

Lemma each_handleMetaUpdate_grows `{StoreSchema} `{Session} n w e :
  e ∈ trace w → e ∈ trace (each n handleMetaUpdate w).2.
Proof.
  revert w. induction n as [|n IH]; intros w He; [done|].
  cbn [each]. unfold bind.
  pose proof (handleMetaUpdate_grows w e He) as Hone.
  destruct (handleMetaUpdate w) as [[[]|err] w1]; cbn [snd] in *; [|done].
  by apply IH.
Qed.

(** A transaction that ends by writing the schema marker, seen from outside. *)
Lemma transact_with_marker `{StoreSchema} `{Session} ops schema w :
  ∃ w' k, transact (ops ++ [MetaSet schema]) w = (Normal tt, w')
    ∧ yStore w' = foldl applyKeyOp (yStore w) ops
    ∧ meta w' = Some schema
    ∧ store w' = store_remove (replicate k presenceId) (store w)
    ∧ lifecycle w' = lifecycle w
    ∧ pendingHistory w' = pendingHistory w
    ∧ transactions w' = S (transactions w)
    ∧ merges w' = merges w + k
    ∧ Transact (ops ++ [MetaSet schema]) ∈ trace w'
    ∧ (getMigrationsSince schema = Ok [] →
       k = 0
       ∧ docDestroyed w' = docDestroyed w
       ∧ awarenessListeners w' = awarenessListeners w
       ∧ trace w' = trace w ++ [Transact (ops ++ [MetaSet schema])]).
Proof.
  set (w1 := with_trace (trace w ++ [Transact (ops ++ [MetaSet schema])])
                        (foldl applyOp w (ops ++ [MetaSet schema]))).
  assert (Hmeta1 : meta w1 = Some schema).
  { unfold w1. cbn [meta with_trace]. apply foldl_applyOp_meta_last. }
  pose proof (each_handleMetaUpdate_grows (activations w) w1
                (Transact (ops ++ [MetaSet schema]))) as Hgrow.
  destruct (each_handleMetaUpdate (activations w) w1 schema Hmeta1)
    as (w2 & k & Hrun & Hs & Hst & Hy & Hm & Hsub & Hcon & Hact & Hp & Htr & Hmg).
  destruct (foldl_applyOp_frame (ops ++ [MetaSet schema]) w)
    as (Fs & Fst & Fd & Fsub & Fcon & Fact & Ftr).
  destruct (foldl_applyOp_listeners (ops ++ [MetaSet schema]) w) as (Fal & Fp).
  exists w2, k. split; [by rewrite transact_meta_last|].
  split_and!.
  - rewrite Hy. unfold w1. cbn [yStore with_trace].
    rewrite foldl_applyOp_yStore, foldl_app. done.
  - by rewrite Hm.
  - rewrite Hs. unfold w1. cbn [store with_trace]. by rewrite Fs.
  - unfold lifecycle. rewrite Hst, Hsub, Hcon, Hact. unfold w1.
    cbn [storeWithStatus syncedSubscribed hasConnectedBefore activations with_trace].
    by rewrite Fst, Fsub, Fcon, Fact.
  - rewrite Hp. unfold w1. cbn [pendingHistory with_trace]. exact Fp.
  - rewrite Htr. unfold transactions, w1. cbn [trace with_trace].
    rewrite List.filter_app, length_app. cbn. lia.
  - rewrite Hmg. unfold merges, w1. cbn [trace with_trace].
    rewrite List.filter_app, length_app. cbn. lia.
  - rewrite Hrun in Hgrow. apply Hgrow. unfold w1. cbn [trace with_trace].
    apply elem_of_app. right. by left.
  - intros Hok.
    rewrite (each_handleMetaUpdate_compatible _ _ _ Hmeta1 Hok) in Hrun.
    injection Hrun as <-. unfold w1 in *.
    cbn [docDestroyed awarenessListeners trace with_trace merges] in *.
    rewrite Fd, Fal. split_and!; try done.
    unfold merges in Hmg. cbn [trace with_trace] in Hmg. lia.
Qed.

(** X1.  The snapshot [handleSync] hands to the migration is
    [Object.fromEntries] of the log's values by id: it is keyed by id
    whatever the log looks like, and it is the log itself when the log holds
    every record under its own id. *)
Theorem fromEntries_log_roundtrip (log : gmap string TLRecord) :
  keyedById (fromEntries (map_to_list log).*2)
  ∧ (keyedById log → fromEntries (map_to_list log).*2 = log).
Proof.
  split; [|apply fromEntries_values].
  apply (keyedById_putAll _ ∅), keyedById_empty.
Qed.

(** The world in which the body of [handleSync] starts. *)
Lemma registered_delivered `{StoreSchema} `{Session} w :
  let w0 := registered (delivered w) in
  store w0 = store w
  ∧ yStore w0 = yStore (delivered w)
  ∧ meta w0 = meta w
  ∧ docDestroyed w0 = docDestroyed w
  ∧ awarenessListeners w0 = S (awarenessListeners w)
  ∧ pendingHistory w0 = None
  ∧ trace w0 = trace (delivered w) ++ replicate (publications w) MergeRemoteChanges
  ∧ transactions w0 = transactions w + historyTransactions w
  ∧ merges w0 = merges w + publications w.
Proof.
  cbv zeta. destruct (flushHistory_run w) as (_ & _ & _ & Hb & Hp).
  destruct (delivered_counts w) as (Ht & Hm).
  unfold besidesLog in Hb. injection Hb as Hs _ Hmeta Hd _ _ _ Hal.
  assert (Hpub : publications (delivered w) = publications w).
  { unfold publications. by rewrite Hd, Hal. }
  unfold registered. rewrite Hpub.
  cbn [store yStore meta docDestroyed awarenessListeners pendingHistory trace
       with_awarenessListeners with_trace with_activations].
  split_and!; try done; try congruence.
  - unfold transactions at 1. cbn [trace with_awarenessListeners with_trace].
    rewrite transactions_app, Ht.
    destruct (filter_replicate_merge (publications w)) as [-> _]. cbn. lia.
  - unfold merges at 1. cbn [trace with_awarenessListeners with_trace].
    rewrite merges_app, Hm.
    by destruct (filter_replicate_merge (publications w)) as [_ ->].
Qed.

(** [store.loadSnapshot] in a store that accepts the records of the
    snapshot. *)
Lemma loadSnapshot_run `{StoreSchema} snapshot w :
  forallb validateRecord (map_to_list snapshot).*2 = true →
  loadSnapshot snapshot w
  = (Normal tt,
     with_pendingHistory
       (Some (recordsDiff (store w)
                (ensureStoreIsUsable (putAll (map_to_list snapshot).*2 ∅))))
       (with_store (ensureStoreIsUsable (putAll (map_to_list snapshot).*2 ∅)) w)).
Proof.
  intros Hvalid. unfold loadSnapshot, bind at 1, get.
  by rewrite store_put_defined, Hvalid.
Qed.

Lemma loadSnapshot_throws `{StoreSchema} snapshot w :
  forallb validateRecord (map_to_list snapshot).*2 = false →
  loadSnapshot snapshot w = (Throw "ValidationError", w).
Proof.
  intros Hvalid. unfold loadSnapshot, bind at 1, get.
  by rewrite store_put_defined, Hvalid.
Qed.

(** The seeding branch, whatever the store holds. *)
Lemma handleSync_seed `{StoreSchema} `{Session} w :
  yStore (delivered w) = ∅ →
  ∃ w' k, handleSync w = (Normal Reconciled, w')
    ∧ yStore w' = putAll (allRecords (store w)) ∅
    ∧ meta w' = Some serialize
    ∧ store w' = store_remove (replicate k presenceId) (store w)
    ∧ lifecycle w'
      = (synced_remote online, syncedSubscribed w, hasConnectedBefore w, S (activations w))
    ∧ pendingHistory w' = None
    ∧ transactions w' = S (transactions w + historyTransactions w)
    ∧ merges w' = merges w + publications w + k
    ∧ Transact (seedOps (store w)) ∈ trace w'
    ∧ (getMigrationsSince serialize = Ok [] →
       k = 0
       ∧ docDestroyed w' = docDestroyed w
       ∧ awarenessListeners w' = S (awarenessListeners w)
       ∧ trace w'
         = trace (delivered w) ++ replicate (publications w) MergeRemoteChanges
           ++ [Transact (seedOps (store w))]).
Proof.
  intros Hempty. rewrite handleSync_body. cbv zeta.
  pose proof (registered_lifecycle w) as Hl0.
  destruct (registered_delivered w) as (Hs0 & Hy0 & Hm0 & Hd0 & Hal0 & Hp0 & Ht0 & Htr0 & Hmg0).
  cbv zeta in *. set (w0 := registered (delivered w)) in *.
  assert (Hsize : size (yStore w0) = 0) by (by rewrite Hy0, Hempty, map_size_empty).
  destruct (decide (size (yStore w0) ≠ 0)) as [Hn|_]; [done|].
  destruct (transact_with_marker ((λ rec, YSet (id rec) rec) <$> allRecords (store w0))
              serialize w0)
    as (w1 & k & Hrun & Hy & Hm & Hs & Hl & Hp & Ht & Hmg & Hin & Hok).
  exists (with_storeWithStatus (synced_remote online) w1), k. split.
  - unfold bind. unfold seedOps. by rewrite Hrun.
  - rewrite Hl0 in Hl. unfold lifecycle in Hl. injection Hl as Hst Hsub Hcon Hact.
    cbn [yStore meta store pendingHistory with_storeWithStatus].
    unfold lifecycle, transactions, merges in *.
    cbn [storeWithStatus syncedSubscribed hasConnectedBefore activations trace
         docDestroyed awarenessListeners with_storeWithStatus].
    rewrite Hs0 in *. unfold seedOps.
    split_and!; try done; try congruence; try lia.
    + rewrite Hy, Hy0, Hempty.
      by rewrite (foldl_applyKeyOp_sets (λ r, r)), list_fmap_id.
    + intros Hcompat. destruct (Hok Hcompat) as (Hk & Hd & Hal & Htrace).
      rewrite Hd, Hal, Htrace, Ht0, Hd0, Hal0, <- app_assoc. by split_and!.
Qed.

(** The migration branch up to the commit of its transaction: what is left
    to do is to load the snapshot and to report the status. *)
Lemma handleSync_committed `{StoreSchema} `{Session} w theirSchema value :
  yStore (delivered w) ≠ ∅ →
  meta w = Some theirSchema →
  migrateStoreSnapshot theirSchema (fromEntries (map_to_list (yStore (delivered w))).*2)
    = MigrationSuccess value →
  ∃ w1 k,
    handleSync w
    = (loadSnapshot value ;;;
       modify (with_storeWithStatus (synced_remote online)) ;;; ret Reconciled) w1
    ∧ yStore w1
      = putAll (map_to_list value).*2
          (store_remove
             (id <$> filter (λ rec, value !! id rec = None)
                       (map_to_list (yStore (delivered w))).*2)
             (yStore (delivered w)))
    ∧ meta w1 = Some serialize
    ∧ store w1 = store_remove (replicate k presenceId) (store w)
    ∧ lifecycle w1
      = (storeWithStatus w, syncedSubscribed w, hasConnectedBefore w, S (activations w))
    ∧ transactions w1 = S (transactions w + historyTransactions w)
    ∧ merges w1 = merges w + publications w + k
    ∧ Transact (migrationOps (map_to_list (yStore (delivered w))).*2 value serialize)
      ∈ trace w1
    ∧ (getMigrationsSince serialize = Ok [] →
       k = 0
       ∧ docDestroyed w1 = docDestroyed w
       ∧ awarenessListeners w1 = S (awarenessListeners w)
       ∧ trace w1
         = trace (delivered w) ++ replicate (publications w) MergeRemoteChanges
           ++ [Transact (migrationOps (map_to_list (yStore (delivered w))).*2
                                      value serialize)]).
Proof.
  intros Hne Hmeta Hmig. rewrite handleSync_body. cbv zeta.
  pose proof (registered_lifecycle w) as Hl0.
  destruct (registered_delivered w) as (Hs0 & Hy0 & Hm0 & Hd0 & Hal0 & Hp0 & Ht0 & Htr0 & Hmg0).
  cbv zeta in *. set (w0 := registered (delivered w)) in *.
  assert (Hsize : size (yStore w0) ≠ 0) by (by rewrite Hy0, map_size_empty_iff).
  destruct (decide (size (yStore w0) ≠ 0)) as [_|Hn]; [|done].
  rewrite Hm0, Hmeta, Hy0, Hmig.
  set (records := (map_to_list (yStore (delivered w))).*2).
  assert (Hops : migrationOps records value serialize
                 = (((λ rec, YDelete (id rec)) <$>
                       filter (λ rec, value !! id rec = None) records)
                    ++ ((λ r, YSet (id r) r) <$> (map_to_list value).*2))
                   ++ [MetaSet serialize]).
  { unfold migrationOps. by rewrite app_assoc. }
  destruct (transact_with_marker
              (((λ rec, YDelete (id rec)) <$>
                  filter (λ rec, value !! id rec = None) records)
               ++ ((λ r, YSet (id r) r) <$> (map_to_list value).*2))
              serialize w0)
    as (w1 & k & Hrun & Hy & Hm & Hs & Hl & Hp & Ht & Hmg & Hin & Hok).
  rewrite <- Hops in Hrun, Hin, Hok.
  exists w1, k. split.
  - unfold bind at 1. by rewrite Hrun.
  - rewrite Hl0 in Hl. rewrite Hs0 in *.
    split_and!; try done; try congruence; try lia.
    + rewrite Hy, Hy0. rewrite foldl_app.
      by rewrite foldl_applyKeyOp_deletes, (foldl_applyKeyOp_sets (λ r, r)), list_fmap_id.
    + intros Hcompat. destruct (Hok Hcompat) as (Hk & Hd & Hal & Htrace).
      rewrite Hd, Hal, Htrace, Ht0, Hd0, Hal0, <- app_assoc. by split_and!.
Qed.

(** The migration branch, whatever the keys of log and snapshot are, when
    the store accepts the records of the migrated snapshot. *)
Lemma handleSync_migrate `{StoreSchema} `{Session} w theirSchema value :
  yStore (delivered w) ≠ ∅ →
  meta w = Some theirSchema →
  migrateStoreSnapshot theirSchema (fromEntries (map_to_list (yStore (delivered w))).*2)
    = MigrationSuccess value →
  forallb validateRecord (map_to_list value).*2 = true →
  ∃ w' k, handleSync w = (Normal Reconciled, w')
    ∧ yStore w'
      = putAll (map_to_list value).*2
          (store_remove
             (id <$> filter (λ rec, value !! id rec = None)
                       (map_to_list (yStore (delivered w))).*2)
             (yStore (delivered w)))
    ∧ meta w' = Some serialize
    ∧ store w' = ensureStoreIsUsable (putAll (map_to_list value).*2 ∅)
    ∧ lifecycle w'
      = (synced_remote online, syncedSubscribed w, hasConnectedBefore w, S (activations w))
    ∧ pendingHistory w'
      = Some (recordsDiff (store_remove (replicate k presenceId) (store w)) (store w'))
    ∧ transactions w' = S (transactions w + historyTransactions w)
    ∧ merges w' = merges w + publications w + k
    ∧ Transact (migrationOps (map_to_list (yStore (delivered w))).*2 value serialize)
      ∈ trace w'
    ∧ (getMigrationsSince serialize = Ok [] →
       k = 0
       ∧ docDestroyed w' = docDestroyed w
       ∧ awarenessListeners w' = S (awarenessListeners w)
       ∧ trace w'
         = trace (delivered w) ++ replicate (publications w) MergeRemoteChanges
           ++ [Transact (migrationOps (map_to_list (yStore (delivered w))).*2
                                      value serialize)]).
Proof.
  intros Hne Hmeta Hmig Hvalid.
  destruct (handleSync_committed w theirSchema value Hne Hmeta Hmig)
    as (w1 & k & Hrun & Hy & Hm & Hs & Hl & Ht & Hmg & Hin & Hok).
  eexists _, k. split.
  - rewrite Hrun. unfold bind at 1.
    rewrite (loadSnapshot_run value w1 Hvalid). reflexivity.
  - unfold lifecycle in Hl. injection Hl as Hst Hsub Hcon Hact.
    cbn [yStore meta store pendingHistory with_storeWithStatus with_store
         with_pendingHistory].
    unfold lifecycle, transactions, merges in *.
    cbn [storeWithStatus syncedSubscribed hasConnectedBefore activations trace
         docDestroyed awarenessListeners with_storeWithStatus with_store
         with_pendingHistory].
    split_and!; try done; try congruence.
Qed.

(** The same branch when the store rejects a record of the migrated
    snapshot: the transaction is committed, then [store.loadSnapshot]
    throws. *)
Lemma handleSync_rejected `{StoreSchema} `{Session} w theirSchema value :
  yStore (delivered w) ≠ ∅ →
  meta w = Some theirSchema →
  migrateStoreSnapshot theirSchema (fromEntries (map_to_list (yStore (delivered w))).*2)
    = MigrationSuccess value →
  forallb validateRecord (map_to_list value).*2 = false →
  ∃ w' k, handleSync w = (Throw "ValidationError", w')
    ∧ yStore w'
      = putAll (map_to_list value).*2
          (store_remove
             (id <$> filter (λ rec, value !! id rec = None)
                       (map_to_list (yStore (delivered w))).*2)
             (yStore (delivered w)))
    ∧ meta w' = Some serialize
    ∧ store w' = store_remove (replicate k presenceId) (store w)
    ∧ lifecycle w'
      = (storeWithStatus w, syncedSubscribed w, hasConnectedBefore w, S (activations w))
    ∧ transactions w' = S (transactions w + historyTransactions w)
    ∧ Transact (migrationOps (map_to_list (yStore (delivered w))).*2 value serialize)
      ∈ trace w'.
Proof.
  intros Hne Hmeta Hmig Hvalid.
  destruct (handleSync_committed w theirSchema value Hne Hmeta Hmig)
    as (w1 & k & Hrun & Hy & Hm & Hs & Hl & Ht & Hmg & Hin & Hok).
  exists w1, k. split.
  - rewrite Hrun. unfold bind at 1.
    by rewrite (loadSnapshot_throws value w1 Hvalid).
  - by split_and!.
Qed.

(** The branch that returns early: a log that does not migrate. *)
Lemma handleSync_error `{StoreSchema} `{Session} w theirSchema reason :
  yStore (delivered w) ≠ ∅ →
  meta w = Some theirSchema →
  migrateStoreSnapshot theirSchema (fromEntries (map_to_list (yStore (delivered w))).*2)
    = MigrationError reason →
  handleSync w
  = (Normal MigrationFailed,
     with_trace (trace (registered (delivered w))
                 ++ [ConsoleError reason;
                     Alert "The schema has been updated. Please refresh the page"])
                (registered (delivered w))).
Proof.
  intros Hne Hmeta Hmig. rewrite handleSync_body. cbv zeta.
  destruct (registered_delivered w) as (_ & Hy0 & Hm0 & _).
  cbv zeta in *. set (w0 := registered (delivered w)) in *.
  assert (Hsize : size (yStore w0) ≠ 0) by (by rewrite Hy0, map_size_empty_iff).
  destruct (decide (size (yStore w0) ≠ 0)) as [_|Hn]; [|done].
  rewrite Hm0, Hmeta, Hy0, Hmig.
  unfold bind, effect, modify, ret. cbn [trace with_trace].
  rewrite <- app_assoc. by destruct w0.
Qed.

(** The branch that throws: records in the log and no schema marker. *)
Lemma handleSync_no_marker `{StoreSchema} `{Session} w :
  yStore (delivered w) ≠ ∅ →
  meta w = None →
  handleSync w = (Throw "No schema found", registered (delivered w)).
Proof.
  intros Hne Hmeta. rewrite handleSync_body. cbv zeta.
  destruct (registered_delivered w) as (_ & Hy0 & Hm0 & _).
  cbv zeta in *. set (w0 := registered (delivered w)) in *.
  assert (Hsize : size (yStore w0) ≠ 0) by (by rewrite Hy0, map_size_empty_iff).
  destruct (decide (size (yStore w0) ≠ 0)) as [_|Hn]; [|done].
  by rewrite Hm0, Hmeta.
Qed.

(** ** C5: a failed migration aborts reconciliation *)

(** C5.  [store.listen] first lets the store deliver the change it may
    still hold ([delivered w] is [w] itself when it holds none).  When the
    log is then not empty and migrating its records reports an error,
    [handleSync] returns at once: it logs the reason and alerts, and the
    store, the log, the schema marker and the status are what they were; it
    commits no transaction, and the only merges are those of the presence
    handlers of earlier runs that heard this run publish its presence, which
    leave the store as it is. *)
Theorem migration_error_aborts `{StoreSchema} `{Session} (w : World)
    (theirSchema : SerializedSchema) (reason : string) :
  yStore (delivered w) ≠ ∅ →
  meta w = Some theirSchema →
  migrateStoreSnapshot theirSchema (fromEntries (map_to_list (yStore (delivered w))).*2)
    = MigrationError reason →
  ∃ w', handleSync w = (Normal MigrationFailed, w')
    ∧ store w' = store w
    ∧ yStore w' = yStore (delivered w)
    ∧ meta w' = meta w
    ∧ storeWithStatus w' = storeWithStatus w
    ∧ transactions w' = transactions (delivered w)
    ∧ merges w' = merges w + publications w
    ∧ (pendingHistory w = None → delivered w = w).
Proof.
  intros Hne Hmeta Hmig. eexists. split; [by eapply handleSync_error|].
  pose proof (registered_lifecycle w) as Hl.
  destruct (registered_delivered w) as (Hs & Hy & Hm & _ & _ & _ & _ & Ht & Hmg).
  destruct (delivered_counts w) as (Htd & _). cbv zeta in *.
  set (w0 := registered (delivered w)) in *.
  unfold lifecycle in Hl. injection Hl as Hst _ _ _.
  cbn [store yStore meta storeWithStatus with_trace].
  unfold transactions at 1, merges at 1. cbn [trace with_trace].
  rewrite transactions_app, merges_app. cbn [List.filter isTransact isMerge length].
  split_and!; try done; try lia. apply delivered_idle.
Qed.

Lemma migration_error_aborts_witness :
  yStore (delivered (Demo.joining Demo.S_future)) ≠ ∅
  ∧ ∃ w', handleSync (Demo.joining Demo.S_future) = (Normal MigrationFailed, w')
    ∧ store w' = ∅
    ∧ yStore w' = {["shape:a"%string := Demo.r1]}
    ∧ meta w' = Some Demo.S_future
    ∧ storeWithStatus w' = loading.
Proof.
  assert (Hne : yStore (delivered (Demo.joining Demo.S_future)) ≠ ∅).
  { intros Heq. apply (f_equal (λ m, m !! "shape:a"%string)) in Heq.
    vm_compute in Heq. discriminate Heq. }
  split; [exact Hne|].
  destruct (migration_error_aborts (Demo.joining Demo.S_future) Demo.S_future
              "target-version-too-new" Hne eq_refl)
    as (w' & Hrun & Hs & Hy & Hm & Hst & _).
  { vm_compute. reflexivity. }
  exists w'. split_and!; [exact Hrun|exact Hs|exact Hy|exact Hm|exact Hst].
Defined.

(** ** C4: reconciliation with a log that migrates *)

Lemma not_elem_of_replicate {A} n (x y : A) : y ≠ x → y ∉ replicate n x.
Proof. intros Hne [-> _]%elem_of_replicate. done. Qed.

(** C4, as the code has it.  [store.listen] first lets the store deliver the
    change it may still hold ([delivered w] is [w] itself when it holds
    none).  With a log that is then not empty, a schema marker in [meta] and
    a migration of the log's records that succeeds, [handleSync] commits one
    transaction that deletes the log records missing from the migrated
    snapshot, writes every record of the snapshot and sets the marker to the
    local serialized schema.  It then hands the snapshot to
    [store.loadSnapshot].  When the store accepts its records, the store
    holds the snapshot made usable, that is with the records the integrity
    checker creates, its listeners are still to hear of the load, and the
    status is [synced-remote], online.  When the store rejects a record, the
    load throws: the log is rewritten all the same, and the status and the
    store are as before (but for this participant's own presence record).
    Log and snapshot hold every record under its own id, as all writers of
    both do. *)
Theorem migration_forward `{StoreSchema} `{Session} (w : World)
    (theirSchema : SerializedSchema) (value : gmap string TLRecord) :
  yStore (delivered w) ≠ ∅ →
  meta w = Some theirSchema →
  migrateStoreSnapshot theirSchema (fromEntries (map_to_list (yStore (delivered w))).*2)
    = MigrationSuccess value →
  keyedById (yStore (delivered w)) →
  keyedById value →
  let w' := (handleSync w).2 in
  Transact (migrationOps (map_to_list (yStore (delivered w))).*2 value serialize)
    ∈ trace w'
  ∧ transactions w' = S (transactions (delivered w))
  ∧ yStore w' = value
  ∧ meta w' = Some serialize
  ∧ (forallb validateRecord (map_to_list value).*2 = true →
     (handleSync w).1 = Normal Reconciled
     ∧ store w' = ensureStoreIsUsable value
     ∧ (∃ before, pendingHistory w'
                  = Some (recordsDiff before (ensureStoreIsUsable value)))
     ∧ storeWithStatus w' = synced_remote online)
  ∧ (forallb validateRecord (map_to_list value).*2 = false →
     (handleSync w).1 = Throw "ValidationError"
     ∧ (∀ key, key ≠ presenceId → store w' !! key = store w !! key)
     ∧ storeWithStatus w' = storeWithStatus w)
  ∧ (pendingHistory w = None → delivered w = w).
Proof.
  intros Hne Hmeta Hmig Hlog Hvalue. cbv zeta.
  destruct (delivered_counts w) as (Htd & _).
  destruct (forallb validateRecord (map_to_list value).*2) eqn:Hvalid.
  - destruct (handleSync_migrate w theirSchema value Hne Hmeta Hmig Hvalid)
      as (w' & k & Hrun & Hy & Hm & Hs & Hl & Hp & Ht & _ & Hin & _).
    rewrite Hrun. cbn [fst snd].
    unfold lifecycle in Hl. injection Hl as Hst _ _ _.
    rewrite putAll_values in Hs by done.
    split_and!; try done.
    + lia.
    + rewrite Hy. by apply migrate_log.
    + intros _. split_and!; try done. eexists. by rewrite Hp, Hs.
    + apply delivered_idle.
  - destruct (handleSync_rejected w theirSchema value Hne Hmeta Hmig Hvalid)
      as (w' & k & Hrun & Hy & Hm & Hs & Hl & Ht & Hin).
    rewrite Hrun. cbn [fst snd].
    unfold lifecycle in Hl. injection Hl as Hst _ _ _.
    split_and!; try done.
    + lia.
    + rewrite Hy. by apply migrate_log.
    + intros _. split_and!; try done.
      intros key Hkey. rewrite Hs, lookup_store_remove.
      rewrite decide_False; [done|]. by apply not_elem_of_replicate.
    + apply delivered_idle.
Qed.

Lemma migration_forward_witness :
  yStore (delivered (Demo.joining Demo.S_old)) = {["shape:a"%string := Demo.r1]}
  ∧ meta (Demo.joining Demo.S_old) = Some Demo.S_old
  ∧ (handleSync (Demo.joining Demo.S_old)).1 = Normal Reconciled
  ∧ transactions (handleSync (Demo.joining Demo.S_old)).2 = 1
  ∧ yStore (handleSync (Demo.joining Demo.S_old)).2 = {["shape:a"%string := Demo.r1']}
  ∧ meta (handleSync (Demo.joining Demo.S_old)).2 = Some Demo.S_new
  ∧ store (handleSync (Demo.joining Demo.S_old)).2
    = ensureStoreIsUsable {["shape:a"%string := Demo.r1']}.
Proof.
  assert (Hlog : yStore (delivered (Demo.joining Demo.S_old))
                 = {["shape:a"%string := Demo.r1]}) by (vm_compute; reflexivity).
  split; [exact Hlog|]. split; [reflexivity|].
  assert (Hne : yStore (delivered (Demo.joining Demo.S_old)) ≠ ∅).
  { intros Heq. apply (f_equal (λ m, m !! "shape:a"%string)) in Heq.
    vm_compute in Heq. discriminate Heq. }
  assert (Hkeyed : ∀ r, keyedById {[id r := r]}).
  { intros r k r' [<- <-]%lookup_singleton_Some. done. }
  assert (Hmig : migrateStoreSnapshot Demo.S_old
                   (fromEntries (map_to_list (yStore (delivered (Demo.joining Demo.S_old)))).*2)
                 = MigrationSuccess {["shape:a"%string := Demo.r1']})
    by (vm_compute; reflexivity).
  assert (Hk1 : keyedById (yStore (delivered (Demo.joining Demo.S_old)))).
  { rewrite Hlog. apply (Hkeyed Demo.r1). }
  pose proof (migration_forward (Demo.joining Demo.S_old) Demo.S_old
                {["shape:a"%string := Demo.r1']} Hne eq_refl Hmig Hk1 (Hkeyed Demo.r1'))
    as Hrun.
  cbv zeta in Hrun. destruct Hrun as (_ & Ht & Hy & Hm & Hvalid & _).
  destruct Hvalid as (Hnormal & Hs & _); [vm_compute; reflexivity|].
  split; [exact Hnormal|]. split; [rewrite Ht; vm_compute; reflexivity|].
  split; [exact Hy|]. split; [exact Hm|exact Hs].
Defined.

(** C4 as the spec states it fails in two ways.  On the scenario of the
    spec (the log holds [r1] under [S_old]) the log ends with [r1'] alone
    under [S_new], but the store does not hold the snapshot alone: it holds
    seven records, the document record of the integrity checker among them.
    And with a record in the log that the store rejects, the transaction is
    committed and the load throws: the store stays empty and the status
    [loading]. *)
Lemma loaded_store_is_not_the_snapshot :
  yStore (handleSync (Demo.joining Demo.S_old)).2 = {["shape:a"%string := Demo.r1']}
  ∧ meta (handleSync (Demo.joining Demo.S_old)).2 = Some Demo.S_new
  ∧ store (handleSync (Demo.joining Demo.S_old)).2 !! "shape:a"%string = Some Demo.r1'
  ∧ is_Some (store (handleSync (Demo.joining Demo.S_old)).2 !! "document:document"%string)
  ∧ size (store (handleSync (Demo.joining Demo.S_old)).2) = 7
  ∧ (handleSync (activate ∅ {["sticker:s"%string := Demo.sticker]} (Some Demo.S_new))).1
    = Throw "ValidationError"
  ∧ transactions
      (handleSync (activate ∅ {["sticker:s"%string := Demo.sticker]} (Some Demo.S_new))).2
    = 1
  ∧ store (handleSync (activate ∅ {["sticker:s"%string := Demo.sticker]}
                                (Some Demo.S_new))).2 = ∅
  ∧ storeWithStatus
      (handleSync (activate ∅ {["sticker:s"%string := Demo.sticker]} (Some Demo.S_new))).2
    = loading.
Proof.
  split_and!; try (vm_compute; reflexivity).
  eexists. vm_compute. reflexivity.
Qed.

(** ** Reconciliation in a store that has delivered its history *)

(** X2.  Seeding: with an empty log [handleSync] writes every record of the
    store, of whatever scope, and the local schema in one transaction; with
    a store keyed by id the log then equals the whole store, the store is
    untouched and the status is [synced-remote], online.  The presence
    handlers of earlier runs hear this run publish its presence and merge
    nothing.  The store holds no undelivered change, and the schema sees no
    migration since its own serialization. *)
Theorem seed_empty_log `{StoreSchema} `{Session} (w : World) :
  pendingHistory w = None →
  getMigrationsSince serialize = Ok [] →
  yStore w = ∅ →
  keyedById (store w) →
  ∃ w', handleSync w = (Normal Reconciled, w')
    ∧ yStore w' = store w
    ∧ meta w' = Some serialize
    ∧ store w' = store w
    ∧ trace w' = trace w ++ replicate (publications w) MergeRemoteChanges
                 ++ [Transact (seedOps (store w))]
    ∧ transactions w' = S (transactions w)
    ∧ merges w' = merges w + publications w
    ∧ storeWithStatus w' = synced_remote online.
Proof.
  intros Hidle Hcompat Hempty Hkeyed.
  pose proof (delivered_idle w Hidle) as Hw.
  assert (Hempty' : yStore (delivered w) = ∅) by (by rewrite Hw).
  destruct (handleSync_seed w Hempty')
    as (w' & k & Hrun & Hy & Hm & Hs & Hl & _ & Ht & Hmg & _ & Hok).
  destruct (Hok Hcompat) as (-> & _ & _ & Htrace).
  assert (Hh : historyTransactions w = 0) by (unfold historyTransactions; by rewrite Hidle).
  exists w'. unfold lifecycle in Hl. injection Hl as Hst _ _ _.
  rewrite Hw in Htrace. split_and!; try done; try lia.
  rewrite Hy. by apply putAll_values.
Qed.

(** X3.  A ['synced'] event that finds records in the log but no schema
    marker makes [handleSync] throw before it writes anything to the log or
    loads anything: the world is the one in which the listeners of this run
    are registered, nothing more, and [handleSync] stays subscribed, so the
    next ['synced'] event registers a third set of listeners.  The store
    holds no undelivered change. *)
Theorem synced_without_marker `{StoreSchema} `{Session} (w : World) :
  syncedSubscribed w = true →
  pendingHistory w = None →
  yStore w ≠ ∅ →
  meta w = None →
  (handleSync w).1 = Throw "No schema found"
  ∧ step w EvSynced = registered w
  ∧ step (step w EvSynced) EvSynced = registered (registered w)
  ∧ store (registered (registered w)) = store w
  ∧ yStore (registered (registered w)) = yStore w
  ∧ transactions (registered (registered w)) = transactions w
  ∧ activations (registered (registered w)) = S (S (activations w)).
Proof.
  intros Hsub Hidle Hne Hmeta.
  assert (Hstep : ∀ v, syncedSubscribed v = true → pendingHistory v = None →
                       yStore v ≠ ∅ → meta v = None →
                       handleSync v = (Throw "No schema found", registered v)
                       ∧ step v EvSynced = registered v).
  { intros v Hv Hp Hy Hm. pose proof (delivered_idle v Hp) as Hd.
    assert (Hrun : handleSync v = (Throw "No schema found", registered v)).
    { rewrite <- Hd at 2. apply handleSync_no_marker; [by rewrite Hd|done]. }
    split; [exact Hrun|].
    unfold step, exec, dispatch, bind. cbn [get]. by rewrite Hv, Hrun. }
  destruct (Hstep w Hsub Hidle Hne Hmeta) as [Hrun Hone].
  split_and!.
  - by rewrite Hrun.
  - exact Hone.
  - rewrite Hone. by apply Hstep.
  - done.
  - done.
  - unfold transactions, registered. cbn [trace with_awarenessListeners with_trace
                                          with_activations].
    rewrite !List.filter_app, !length_app.
    destruct (filter_replicate_merge (publications w)) as [-> _].
    match goal with |- context [replicate ?n MergeRemoteChanges] =>
      destruct (filter_replicate_merge n) as [-> _] end.
    cbn. lia.
  - done.
Qed.

(** X4.  The transaction of a reconciliation writes [meta], so the schema
    observers registered a few lines earlier hear of it.  When the local
    schema has no migration pending since itself they stay silent: a
    reconciliation that completes, in a store with no undelivered change,
    adds to the trace the merges of the presence handlers that heard the
    presence published, then one transaction, and nothing else, and it does
    not destroy the document. *)
Theorem reconciliation_is_silent `{StoreSchema} `{Session} (w w' : World) :
  getMigrationsSince serialize = Ok [] →
  pendingHistory w = None →
  handleSync w = (Normal Reconciled, w') →
  docDestroyed w' = docDestroyed w
  ∧ ∃ ops, trace w' = trace w ++ replicate (publications w) MergeRemoteChanges
                      ++ [Transact ops].
Proof.
  intros Hok Hidle Hrun. pose proof (delivered_idle w Hidle) as Hw.
  destruct (decide (yStore w = ∅)) as [Hempty|Hne].
  - rewrite <- Hw in Hempty.
    destruct (handleSync_seed w Hempty)
      as (v & k & Hv & _ & _ & _ & _ & _ & _ & _ & _ & Hsilent).
    rewrite Hv in Hrun. injection Hrun as <-.
    destruct (Hsilent Hok) as (_ & Hd & _ & Ht). rewrite Hw in Ht. eauto.
  - rewrite <- Hw in Hne. destruct (meta w) as [theirs|] eqn:Hmeta.
    + destruct (migrateStoreSnapshot theirs
                  (fromEntries (map_to_list (yStore (delivered w))).*2))
        as [value|reason] eqn:Hmig.
      * destruct (forallb validateRecord (map_to_list value).*2) eqn:Hvalid.
        -- destruct (handleSync_migrate w theirs value Hne Hmeta Hmig Hvalid)
             as (v & k & Hv & _ & _ & _ & _ & _ & _ & _ & _ & Hsilent).
           rewrite Hv in Hrun. injection Hrun as <-.
           destruct (Hsilent Hok) as (_ & Hd & _ & Ht). rewrite Hw in Ht. eauto.
        -- destruct (handleSync_rejected w theirs value Hne Hmeta Hmig Hvalid)
             as (v & k & Hv & _).
           rewrite Hv in Hrun. done.
      * rewrite (handleSync_error w theirs reason Hne Hmeta Hmig) in Hrun. done.
    + rewrite (handleSync_no_marker w Hne Hmeta) in Hrun. done.
Qed.

(** X5.  Reconciling again changes nothing of the log: on a log keyed by id
    whose marker is the local schema, with a migration that leaves such a
    log as it is and a store that accepts its records and holds no
    undelivered change, [handleSync] ends with the same log and marker, and
    with the store holding the log made usable. *)
Theorem reconciliation_is_idempotent `{StoreSchema} `{Session} (w : World) :
  pendingHistory w = None →
  yStore w ≠ ∅ →
  meta w = Some serialize →
  keyedById (yStore w) →
  migrateStoreSnapshot serialize (yStore w) = MigrationSuccess (yStore w) →
  forallb validateRecord (map_to_list (yStore w)).*2 = true →
  ∃ w', handleSync w = (Normal Reconciled, w')
    ∧ yStore w' = yStore w
    ∧ meta w' = meta w
    ∧ store w' = ensureStoreIsUsable (yStore w).
Proof.
  intros Hidle Hne Hmeta Hkeyed Hmig Hvalid.
  pose proof (delivered_idle w Hidle) as Hw.
  assert (Hmig' : migrateStoreSnapshot serialize
                    (fromEntries (map_to_list (yStore (delivered w))).*2)
                  = MigrationSuccess (yStore w)).
  { by rewrite Hw, fromEntries_values. }
  assert (Hne' : yStore (delivered w) ≠ ∅) by (by rewrite Hw).
  destruct (handleSync_migrate w serialize (yStore w) Hne' Hmeta Hmig' Hvalid)
    as (w' & k & Hrun & Hy & Hm & Hs & _).
  exists w'. split_and!; try done.
  - rewrite Hy, Hw. by apply migrate_log.
  - by rewrite Hm, Hmeta.
  - rewrite Hs. by rewrite putAll_values.
Qed.

(** ** Remote events: [handleChange] and [handleUpdate] seen from the log *)

Lemma preserves_logView_mergeRemoteChanges fn : preserves logView (mergeRemoteChanges fn).
Proof.
  unfold mergeRemoteChanges.
  apply preserves_bind.
  { apply preserves_modify. intros w. unfold logView, transactions. cbn.
    rewrite List.filter_app. cbn. by rewrite app_nil_r. }
  intros _. apply preserves_bind; [apply preserves_get|]. intros w.
  destruct (fn (store w)); [by apply preserves_modify|apply preserves_throw].
Qed.

Lemma preserves_logView_handleChange `{StoreSchema} changes local :
  preserves logView (handleChange changes local).
Proof.
  unfold handleChange. destruct local; [apply preserves_ret|].
  apply preserves_bind; [apply preserves_get|]. intros w.
  apply preserves_logView_mergeRemoteChanges.
Qed.

(** X6.  What comes from other participants never goes back to the log: an
    awareness update leaves log, marker and the count of this client's
    transactions as they were, and a remote change leaves the log as the
    remote transaction made it, however many listeners are registered
    and whether or not a handler throws. *)
Theorem remote_events_never_write_log `{StoreSchema} `{Session} (w : World) :
  (∀ states update, logView (step w (EvAwareness states update)) = logView w)
  ∧ (∀ log changes,
       logView (step w (EvRemoteChange log changes)) = (log, meta w, transactions w)).
Proof.
  split.
  - intros states update. unfold step, exec, dispatch.
    apply (preserves_bind logView); [apply preserves_get|]. intros w'.
    apply preserves_each. apply preserves_logView_mergeRemoteChanges.
  - intros log changes. unfold step, exec, dispatch.
    assert (Hrest : preserves logView
              (w' <~ get ;; each (activations w') (handleChange changes false))).
    { apply preserves_bind; [apply preserves_get|]. intros w'.
      apply preserves_each, preserves_logView_handleChange. }
    unfold bind at 1. cbn [modify]. by rewrite Hrest.
Qed.

(** ** Remote changes reach the store *)

Lemma mergeInto_idempotent remove put s :
  NoDup (id <$> put) →
  mergeInto remove put (mergeInto remove put s) = mergeInto remove put s.
Proof.
  intros Hnd. apply map_eq. intros k. unfold mergeInto.
  destruct (decide (k ∈ id <$> put)) as [Hin|Hout].
  - apply list_elem_of_fmap in Hin as (r & -> & Hr).
    by rewrite !lookup_putAll_elem.
  - rewrite !lookup_putAll_other by done. rewrite !lookup_store_remove.
    case_decide; [done|]. by rewrite lookup_putAll_other, lookup_store_remove, decide_False.
Qed.

(** Every registered [handleChange] merges the same batch. *)
Lemma each_handleChange_defined `{StoreSchema} n w changes :
  (∀ entry, entry ∈ changes → removedKey entry = None →
            is_Some (yStore w !! entry.1)) →
  forallb validateRecord (omap (fetchedRecord (yStore w)) changes) = true →
  ∃ w', each n (handleChange changes false) w = (Normal tt, w')
    ∧ store w'
      = Nat.iter n (mergeInto (omap removedKey changes)
                              (omap (fetchedRecord (yStore w)) changes)) (store w)
    ∧ yStore w' = yStore w
    ∧ merges w' = merges w + n
    ∧ transactions w' = transactions w.
Proof.
  revert w. induction n as [|n IH]; intros w Hall Hvalid.
  { exists w. by split_and!. }
  set (w1 := with_store (mergeInto (omap removedKey changes)
                                   (omap (fetchedRecord (yStore w)) changes) (store w))
                        (with_trace (trace w ++ [MergeRemoteChanges]) w)).
  assert (Hrun : handleChange changes false w = (Normal tt, w1)).
  { by rewrite handleChange_fetched, Hvalid. }
  destruct (IH w1 Hall Hvalid) as (w2 & Hrun2 & Hs & Hy & Hmg & Ht).
  exists w2. split_and!.
  - cbn [each]. unfold bind. by rewrite Hrun.
  - rewrite Hs. change (yStore w1) with (yStore w). change (store w1)
      with (mergeInto (omap removedKey changes)
                      (omap (fetchedRecord (yStore w)) changes) (store w)).
    by rewrite <- Nat.iter_succ_r.
  - by rewrite Hy.
  - rewrite Hmg. unfold merges, w1. cbn [trace with_store with_trace].
    rewrite List.filter_app, length_app. cbn. lia.
  - rewrite Ht. unfold transactions, w1. cbn [trace with_store with_trace].
    rewrite List.filter_app, length_app. cbn. lia.
Qed.

Lemma elem_of_fetched log (changes : list (string * Change)) r :
  r ∈ omap (fetchedRecord log) changes →
  ∃ entry, entry ∈ changes ∧ removedKey entry = None ∧ log !! entry.1 = Some r.
Proof.
  rewrite list_elem_of_omap. intros ([k c] & Hin & Hr). exists (k, c).
  split; [done|]. unfold fetchedRecord, removedKey in *. cbn in *. by destruct c.
Qed.

Lemma fetched_NoDup log (changes : list (string * Change)) :
  keyedById log → NoDup changes.*1 → NoDup (id <$> omap (fetchedRecord log) changes).
Proof.
  intros Hlog. induction changes as [|[k c] changes IH]; [constructor|].
  rewrite fmap_cons. intros [Hfresh Hnd]%NoDup_cons. cbn [omap list_omap].
  destruct (fetchedRecord log (k, c)) as [r|] eqn:Hr; [|by apply IH].
  rewrite fmap_cons. apply NoDup_cons. split; [|by apply IH].
  assert (Hk : id r = k).
  { apply Hlog. unfold fetchedRecord in Hr. cbn in Hr. by destruct c. }
  rewrite Hk. intros Hin. apply Hfresh.
  apply list_elem_of_fmap in Hin as (r' & Hid & Hr').
  apply elem_of_fetched in Hr' as ([k' c'] & Hin' & _ & Hlk). cbn in Hlk.
  rewrite Hid, (Hlog _ _ Hlk). apply list_elem_of_fmap. by exists (k', c').
Qed.

(** X7.  Mirror equivalence from the other side.  Let the log mirror the
    store, and let a remote transaction take the log to [log'], a log keyed
    by id that holds document records only, all of which the store accepts,
    with a notification that tells the truth about it.  After the registered
    handlers ran, each with one merge and none with a transaction, the
    document records of the store are exactly [log']. *)
Theorem remote_change_mirror `{StoreSchema} `{Session} (w : World)
    (log' : gmap string TLRecord) (changes : list (string * Change)) :
  0 < activations w →
  mirror w →
  keyedById log' →
  (∀ k r, log' !! k = Some r → inScope document r = true) →
  (∀ k r, log' !! k = Some r → validateRecord r = true) →
  faithfulChanges (yStore w) log' changes →
  mirror (step w (EvRemoteChange log' changes))
  ∧ yStore (step w (EvRemoteChange log' changes)) = log'
  ∧ merges (step w (EvRemoteChange log' changes)) = merges w + activations w
  ∧ transactions (step w (EvRemoteChange log' changes)) = transactions w.
Proof.
  intros Hact Hmirror Hkeyed Hdoc Hvalid (Hnd & Hrest & Htrue).
  rewrite Forall_forall in Htrue.
  set (w1 := with_yStore log' w).
  assert (Hall : ∀ entry, entry ∈ changes → removedKey entry = None →
                          is_Some (yStore w1 !! entry.1)).
  { intros [k c] Hin Hnone. specialize (Htrue _ Hin). unfold removedKey in Hnone.
    cbn in *. by destruct c. }
  assert (Hfetched : forallb validateRecord (omap (fetchedRecord (yStore w1)) changes)
                     = true).
  { apply forallb_elem_of. intros r Hr.
    apply elem_of_fetched in Hr as (entry & _ & _ & Hlk). by eapply Hvalid. }
  destruct (each_handleChange_defined (activations w) w1 changes Hall Hfetched)
    as (w2 & Hrun & Hs & Hy & Hmg & Ht).
  assert (Hstep : step w (EvRemoteChange log' changes) = w2).
  { unfold step, exec, dispatch, bind. cbn [modify get]. fold w1.
    change (activations w1) with (activations w). by rewrite Hrun. }
  rewrite Hstep. change (yStore w1) with log' in *.
  change (store w1) with (store w) in Hs.
  split_and!; [|done|done|done].
  set (dels := omap removedKey changes) in *.
  set (puts := omap (fetchedRecord log') changes) in *.
  assert (HndP : NoDup (id <$> puts)) by (by apply fetched_NoDup).
  assert (Hstore : store w2 = mergeInto dels puts (store w)).
  { rewrite Hs. destruct (activations w) as [|n]; [lia|].
    apply iter_idempotent. intros s. by apply mergeInto_idempotent. }
  unfold mirror. rewrite Hy, Hstore. apply map_eq. intros k.
  rewrite lookup_documentRecords. unfold mergeInto.
  destruct (decide (k ∈ id <$> puts)) as [Hin|Hout].
  - apply list_elem_of_fmap in Hin as (r & -> & Hr).
    rewrite lookup_putAll_elem by done.
    apply elem_of_fetched in Hr as ([k' c'] & _ & _ & Hlk). cbn in Hlk.
    rewrite (Hkeyed _ _ Hlk), Hlk. by rewrite (Hdoc _ _ Hlk).
  - rewrite lookup_putAll_other by done. rewrite lookup_store_remove.
    destruct (decide (k ∈ changes.*1)) as [Hk|Hk].
    + apply list_elem_of_fmap in Hk as ([k' c] & -> & Hin). cbn.
      pose proof (Htrue _ Hin) as Hc. cbn in Hc.
      destruct (removedKey (k', c)) as [k''|] eqn:Hrk.
      * assert (k'' = k') as -> by (unfold removedKey in Hrk; cbn in Hrk; destruct c; congruence).
        rewrite decide_True.
        -- unfold removedKey in Hrk. cbn in Hrk. by destruct c.
        -- apply list_elem_of_omap. by exists (k', c).
      * exfalso. apply Hout.
        assert (Hsome : is_Some (log' !! k')).
        { unfold removedKey in Hrk. cbn in Hrk. by destruct c. }
        destruct Hsome as [r Hr]. apply list_elem_of_fmap. exists r.
        split; [by rewrite (Hkeyed _ _ Hr)|].
        apply list_elem_of_omap. exists (k', c). split; [done|].
        unfold fetchedRecord, removedKey in *. cbn in *. by destruct c.
    + rewrite decide_False.
      * rewrite (Hrest k Hk), Hmirror. by rewrite lookup_documentRecords.
      * intros Hin. apply Hk. apply list_elem_of_omap in Hin as ([k' c] & Hin & Hrk).
        apply list_elem_of_fmap. exists (k', c). split; [|done].
        unfold removedKey in Hrk. cbn in *. destruct c; by inversion Hrk.
Qed.

(** ** C8: the schema observer *)

(** C8, as the code has it.  When [meta] holds a schema for which
    [getMigrationsSince] fails or reports a pending migration,
    [handleMetaUpdate] alerts and destroys the document.  Destroying it ends
    the presence channel with the awareness: the presence handlers run once
    more, for the removal of this participant, which can only delete its own
    presence record from the store, and are gone.  Nothing else stops: the
    log, the marker, the status and the subscription are as before, and the
    store listeners and log observers stay registered, so that a later user
    edit is written to the log by every one of them and a later remote
    change is merged into the store by every one of them. *)
Theorem stale_schema_destroys_document `{StoreSchema} `{Session} (w : World)
    (theirSchema : SerializedSchema) :
  meta w = Some theirSchema →
  ((∃ e, getMigrationsSince theirSchema = NotOk e)
   ∨ (∃ m ms, getMigrationsSince theirSchema = Ok (m :: ms))) →
  ∃ w', handleMetaUpdate w = (Normal tt, w')
    ∧ docDestroyed w' = true
    ∧ trace w' = trace w ++ [Alert "Please refresh the page, schema is updated"]
                 ++ replicate (publications w) MergeRemoteChanges
    ∧ awarenessListeners w' = (if docDestroyed w then awarenessListeners w else 0)
    ∧ (∀ key, key ≠ presenceId → store w' !! key = store w !! key)
    ∧ yStore w' = yStore w
    ∧ meta w' = meta w
    ∧ storeWithStatus w' = storeWithStatus w
    ∧ syncedSubscribed w' = syncedSubscribed w
    ∧ activations w' = activations w
    ∧ (∀ d, yStore (step w' (EvLocalEdit d))
            = Nat.iter (if isEmptyDiff (filterChangesByScope document d)
                        then 0 else activations w)
                       (applyDiff (filterChangesByScope document d))
                       (yStore (delivered w')))
    ∧ (∀ log' changes,
         (∀ entry, entry ∈ changes → removedKey entry = None →
                   is_Some (log' !! entry.1)) →
         forallb validateRecord (omap (fetchedRecord log') changes) = true →
         store (step w' (EvRemoteChange log' changes))
         = Nat.iter (activations w)
                    (mergeInto (omap removedKey changes)
                               (omap (fetchedRecord log') changes))
                    (store w')).
Proof.
  intros Hmeta Hstale.
  assert (Hrun : handleMetaUpdate w
    = (Normal tt,
       if docDestroyed w
       then with_trace (trace w ++ [Alert "Please refresh the page, schema is updated"]) w
       else with_awarenessListeners 0
              (with_store (store_remove (replicate (awarenessListeners w) presenceId)
                                        (store w))
                 (with_trace ((trace w
                               ++ [Alert "Please refresh the page, schema is updated"])
                              ++ replicate (awarenessListeners w) MergeRemoteChanges)
                    (with_docDestroyed true w))))).
  { unfold handleMetaUpdate, bind at 1. cbn [get]. rewrite Hmeta.
    assert (Hgo : (effect (Alert "Please refresh the page, schema is updated") ;;; destroy) w
                  = (Normal tt,
       if docDestroyed w
       then with_trace (trace w ++ [Alert "Please refresh the page, schema is updated"]) w
       else with_awarenessListeners 0
              (with_store (store_remove (replicate (awarenessListeners w) presenceId)
                                        (store w))
                 (with_trace ((trace w
                               ++ [Alert "Please refresh the page, schema is updated"])
                              ++ replicate (awarenessListeners w) MergeRemoteChanges)
                    (with_docDestroyed true w))))).
    { unfold bind. cbn [effect modify]. rewrite destroy_run.
      cbn [docDestroyed with_trace]. by destruct (docDestroyed w). }
    by destruct Hstale as [[e ->]|(m & ms & ->)]. }
  eexists. split; [exact Hrun|].
  set (w' := if docDestroyed w then _ else _).
  assert (Hact : activations w' = activations w).
  { unfold w'. by destruct (docDestroyed w). }
  split_and!.
  - unfold w'. by destruct (docDestroyed w) eqn:Hd.
  - unfold w', publications. destruct (docDestroyed w); cbn [trace with_trace
      with_awarenessListeners with_store replicate].
    + done.
    + by rewrite <- app_assoc.
  - unfold w'. by destruct (docDestroyed w).
  - intros key Hkey. unfold w'. destruct (docDestroyed w); [done|].
    cbn [store with_awarenessListeners with_store]. rewrite lookup_store_remove.
    rewrite decide_False; [done|]. by apply not_elem_of_replicate.
  - unfold w'. by destruct (docDestroyed w).
  - unfold w'. by destruct (docDestroyed w).
  - unfold w'. by destruct (docDestroyed w).
  - unfold w'. by destruct (docDestroyed w).
  - exact Hact.
  - intros d. destruct (step_local_edit_run w' d) as (_ & Hy & _). cbv zeta in Hy.
    by rewrite Hy, Hact.
  - intros log' changes Hall Hvalid.
    destruct (each_handleChange_defined (activations w) (with_yStore log' w') changes
                Hall Hvalid) as (w2 & Hrun2 & Hs & _).
    unfold step, exec, dispatch. unfold bind at 1. cbn [modify].
    unfold bind. cbn [get]. change (activations (with_yStore log' w')) with (activations w').
    by rewrite Hact, Hrun2.
Qed.

Lemma stale_schema_destroys_document_witness :
  meta Demo.synced = Some Demo.S_new
  ∧ getMigrationsSince Demo.S_old = Ok ["com.tldraw.shape/2"%string]
  ∧ ∃ w', handleMetaUpdate (with_meta (Some Demo.S_old) Demo.synced) = (Normal tt, w')
    ∧ docDestroyed w' = true
    ∧ awarenessListeners w' = 0
    ∧ activations w' = 1.
Proof.
  split; [reflexivity|]. split; [reflexivity|].
  destruct (stale_schema_destroys_document (with_meta (Some Demo.S_old) Demo.synced)
              Demo.S_old eq_refl)
    as (w' & Hrun & Hd & _ & Hal & _ & _ & _ & _ & _ & Ha & _).
  { right. exists "com.tldraw.shape/2"%string, []. reflexivity. }
  exists w'. split_and!; [exact Hrun|exact Hd|exact Hal|exact Ha].
Defined.

(** C8 (as the spec states it) fails: after the observer met a stale marker
    and destroyed the document, a user edit is still written to the log and a
    remote change is still merged into the store. *)
Lemma sync_continues_after_stale_schema :
  docDestroyed Demo.stale = true
  ∧ yStore Demo.stale !! "shape:b"%string = None
  ∧ yStore (step Demo.stale (EvLocalEdit (RecordsDiff.mk [Demo.r2] [] [])))
      !! "shape:b"%string = Some Demo.r2
  ∧ store Demo.stale !! "shape:b"%string = None
  ∧ store (step Demo.stale
             (EvRemoteChange (<["shape:b"%string := Demo.r2]> (yStore Demo.stale))
                             [("shape:b"%string, ActAdd Demo.r2)]))
      !! "shape:b"%string = Some Demo.r2.
Proof. vm_compute. done. Qed.

(** ** Local edits, for any number of registered listeners *)

Lemma step_local_edit_iter `{StoreSchema} `{Session} w d :
  let filtered := filterChangesByScope document d in
  let n := if isEmptyDiff filtered then 0 else activations w in
  store (step w (EvLocalEdit d)) = applyDiff d (store w)
  ∧ yStore (step w (EvLocalEdit d)) = Nat.iter n (applyDiff filtered) (yStore (delivered w))
  ∧ meta (step w (EvLocalEdit d)) = meta w
  ∧ transactions (step w (EvLocalEdit d)) = transactions w + historyTransactions w + n
  ∧ merges (step w (EvLocalEdit d)) = merges w.
Proof.
  destruct (step_local_edit_run w d) as (Hs & Hy & Ht & Hb & _).
  destruct (delivered_counts w) as (Htd & Hmd). cbv zeta in *.
  unfold besidesLog in Hb. injection Hb as _ _ Hm _ _ _ _ _.
  split_and!; [done..| |].
  - unfold transactions at 1. rewrite Ht, transactions_app, Htd.
    by destruct (filter_replicate_transact
                   (if isEmptyDiff (filterChangesByScope document d)
                    then 0 else activations w)
                   (syncOps (filterChangesByScope document d))) as [-> _].
  - unfold merges at 1. rewrite Ht, merges_app, Hmd.
    destruct (filter_replicate_transact
                (if isEmptyDiff (filterChangesByScope document d)
                 then 0 else activations w)
                (syncOps (filterChangesByScope document d))) as [_ ->].
    cbn. lia.
Qed.

(** X8.  A user edit costs one transaction per registered listener when it
    changes a document record and none when it does not, on top of what the
    delivery of a change the store still held costs; it never merges into
    the store and never writes the schema marker.  Before the first
    reconciliation, with nothing registered, no edit reaches the log. *)
Theorem local_edit_transactions `{StoreSchema} `{Session} (w : World)
    (d : RecordsDiff.t) :
  transactions (step w (EvLocalEdit d))
    = transactions w + historyTransactions w
      + (if isEmptyDiff (filterChangesByScope document d) then 0 else activations w)
  ∧ merges (step w (EvLocalEdit d)) = merges w
  ∧ meta (step w (EvLocalEdit d)) = meta w
  ∧ (activations w = 0 → yStore (step w (EvLocalEdit d)) = yStore w)
  ∧ (pendingHistory w = None → historyTransactions w = 0).
Proof.
  destruct (step_local_edit_iter w d) as (_ & Hy & Hm & Ht & Hmg). cbv zeta in *.
  split_and!; [done..| |].
  - intros Hzero. rewrite Hy, Hzero.
    destruct (flushHistory_run w) as (_ & -> & _).
    assert (historyTransactions w = 0) as ->.
    { unfold historyTransactions. rewrite Hzero.
      destruct (pendingHistory w) as [p|]; [|done].
      by destruct (isEmptyDiff (filterChangesByScope document p)). }
    by destruct (isEmptyDiff _).
  - intros Hidle. unfold historyTransactions. by rewrite Hidle.
Qed.

Lemma lookup_putAll_Some records (m : gmap string TLRecord) k r :
  putAll records m !! k = Some r → (r ∈ records ∧ id r = k) ∨ m !! k = Some r.
Proof.
  revert m. induction records as [|a records IH]; intros m; [by right|].
  change (putAll (a :: records) m) with (putAll records (<[id a := a]> m)).
  intros [[Hin Hid]|Hm]%IH.
  - left. split; [by right|done].
  - destruct (decide (id a = k)) as [Hk|Hk].
    + rewrite <- Hk, lookup_insert_eq in Hm. injection Hm as <-.
      left. split; [by left|done].
    + right. by rewrite lookup_insert_ne in Hm.
Qed.

Lemma lookup_applyDiff_Some d (m : gmap string TLRecord) k r :
  applyDiff d m !! k = Some r → (r ∈ puts d ∧ id r = k) ∨ m !! k = Some r.
Proof.
  rewrite applyDiff_puts, lookup_store_remove. case_decide; [done|].
  apply lookup_putAll_Some.
Qed.

(** What any number of listeners can leave in the log when they write the
    document part of a diff. *)
Lemma lookup_iter_applyDiff `{StoreSchema} n d (m : gmap string TLRecord) k r :
  Nat.iter n (applyDiff (filterChangesByScope document d)) m !! k = Some r →
  m !! k = Some r ∨ (scopeOf (typeName r) = document ∧ r ∈ puts d ∧ id r = k).
Proof.
  induction n as [|n IH]; [by left|].
  cbn [Nat.iter nat_rect]. intros [[Hin Hid]|Hprev]%lookup_applyDiff_Some; [|by apply IH].
  right. rewrite puts_filterChangesByScope in Hin.
  apply list_elem_of_filter in Hin as [Hdoc Hin].
  split_and!; [|done..]. unfold inScope in Hdoc. by apply bool_decide_unpack in Hdoc.
Qed.

(** X9.  Only document records travel: whatever a user edit holds, a record
    found in the log after it was there before or is a record of document
    scope, stored under its own id, that the edit added or updated, or that
    an earlier change the store had not delivered yet added or updated.
    Session and presence records of the store never reach the log this
    way. *)
Theorem local_edit_writes_document_records_only `{StoreSchema} `{Session}
    (w : World) (d : RecordsDiff.t) (k : string) (r : TLRecord) :
  yStore (step w (EvLocalEdit d)) !! k = Some r →
  yStore w !! k = Some r
  ∨ (scopeOf (typeName r) = document
     ∧ (r ∈ puts d ∨ r ∈ from_option puts [] (pendingHistory w))
     ∧ id r = k).
Proof.
  destruct (step_local_edit_iter w d) as (_ & -> & _). cbv zeta.
  intros [Hprev|(Hdoc & Hin & Hid)]%lookup_iter_applyDiff; [|right; by split_and!; [|left|]].
  destruct (flushHistory_run w) as (_ & Hy & _). rewrite Hy in Hprev.
  destruct (pendingHistory w) as [pending|]; cbn [from_option] in *.
  - apply lookup_iter_applyDiff in Hprev as [Hw|(Hdoc & Hin & Hid)]; [by left|].
    right. by split_and!; [|right|].
  - left. revert Hprev. generalize (historyTransactions w). intros n.
    by induction n.
Qed.

(** ** The lifecycle after the first connection *)

(** What one event does to the lifecycle, in one equation. *)
Lemma step_lifecycle `{StoreSchema} `{Session} w e :
  lifecycle (step w e)
  = if isConnected e then
      (storeWithStatus w, negb (hasConnectedBefore w), true, activations w)
    else if isDisconnected e then
      (synced_remote offline, syncedSubscribed w, hasConnectedBefore w, activations w)
    else if isSynced e && syncedSubscribed w then
      (if isReconciled (handleSync w).1 then synced_remote online else storeWithStatus w,
       true, hasConnectedBefore w, S (activations w))
    else lifecycle w.
Proof.
  destruct (event_cases e) as [->|[->|[->|(Hc & Hd & Hs)]]].
  - apply step_connected_lifecycle.
  - apply step_disconnected_lifecycle.
  - rewrite step_synced_lifecycle. cbn. by destruct (syncedSubscribed w).
  - rewrite Hc, Hd, Hs. cbn. by apply step_other_lifecycle.
Qed.

(** X10.  After a second ['connected'] status, when [hasConnectedBefore] is
    set and [handleSync] is unsubscribed, nothing sets the status any more
    except a ['disconnected'] status: after any events the status is offline
    when one of them was ['disconnected'] and what it was otherwise.  A
    session that reconnected is never reported online again. *)
Theorem status_after_reconnect `{StoreSchema} `{Session} (w : World)
    (events : list Event) :
  syncedSubscribed w = false →
  hasConnectedBefore w = true →
  storeWithStatus (run w events)
  = if existsb isDisconnected events then synced_remote offline else storeWithStatus w.
Proof.
  revert w. induction events as [|e events IH]; intros w Hsub Hbefore; [done|].
  change (run w (e :: events)) with (run (step w e) events).
  pose proof (step_lifecycle w e) as Hl. rewrite Hsub, Hbefore, andb_false_r in Hl.
  cbn [negb] in Hl.
  assert (Hstep : syncedSubscribed (step w e) = false
                  ∧ hasConnectedBefore (step w e) = true
                  ∧ storeWithStatus (step w e)
                    = if isDisconnected e then synced_remote offline
                      else storeWithStatus w).
  { destruct (isConnected e) eqn:Hc.
    - apply lifecycle_eq in Hl as (Hst & Hs' & Hb' & _).
      assert (isDisconnected e = false) as -> by (by destruct e as [[]| | | | | |]).
      done.
    - destruct (isDisconnected e).
      + by apply lifecycle_eq in Hl as (Hst & Hs' & Hb' & _).
      + unfold lifecycle in Hl. injection Hl as Hst Hs' Hb' _.
        by rewrite Hs', Hb', Hsub, Hbefore. }
  destruct Hstep as (Hs' & Hb' & Hst).
  rewrite IH by done. rewrite Hst. cbn [existsb].
  destruct (isDisconnected e); cbn; [|done]. by destruct (existsb isDisconnected events).
Qed.

(** X11.  From activation on, whatever events arrive: [handleSync] is
    subscribed only after a ['connected'] status, [hasConnectedBefore] tells
    whether one has arrived, the status is never [error], and it is online
    only after [handleSync] ran. *)
Theorem lifecycle_invariants `{StoreSchema} `{Session} (s y : gmap string TLRecord)
    (m : option SerializedSchema) (events : list Event) :
  hasConnectedBefore (run (activate s y m) events) = existsb isConnected events
  ∧ (syncedSubscribed (run (activate s y m) events) = true →
     hasConnectedBefore (run (activate s y m) events) = true)
  ∧ storeWithStatus (run (activate s y m) events) ≠ error
  ∧ (storeWithStatus (run (activate s y m) events) = synced_remote online →
     0 < activations (run (activate s y m) events)).
Proof.
  assert (Hgen : ∀ events w,
    (syncedSubscribed w = true → hasConnectedBefore w = true) →
    storeWithStatus w ≠ error →
    (storeWithStatus w = synced_remote online → 0 < activations w) →
    hasConnectedBefore (run w events) = hasConnectedBefore w || existsb isConnected events
    ∧ (syncedSubscribed (run w events) = true → hasConnectedBefore (run w events) = true)
    ∧ storeWithStatus (run w events) ≠ error
    ∧ (storeWithStatus (run w events) = synced_remote online → 0 < activations (run w events))).
  { clear events. induction events as [|e events IH]; intros w Hsub Herr Hon.
    { cbn. by rewrite orb_false_r. }
    change (run w (e :: events)) with (run (step w e) events).
    pose proof (step_lifecycle w e) as Hl.
    assert (Hstep : hasConnectedBefore (step w e) = hasConnectedBefore w || isConnected e
                    ∧ (syncedSubscribed (step w e) = true → hasConnectedBefore (step w e) = true)
                    ∧ storeWithStatus (step w e) ≠ error
                    ∧ (storeWithStatus (step w e) = synced_remote online →
                       0 < activations (step w e))).
    { destruct (isConnected e).
      - apply lifecycle_eq in Hl as (-> & -> & -> & ->).
        rewrite orb_true_r. by split_and!.
      - rewrite orb_false_r. destruct (isDisconnected e).
        + apply lifecycle_eq in Hl as (-> & -> & -> & ->). by split_and!.
        + destruct (isSynced e && syncedSubscribed w) eqn:Hrun.
          * apply lifecycle_eq in Hl as (-> & -> & -> & ->).
            apply andb_true_iff in Hrun as [_ Hs]. split_and!; [done|by auto| |lia].
            by destruct (isReconciled (handleSync w).1).
          * unfold lifecycle in Hl. injection Hl as -> -> -> ->. by split_and!. }
    destruct Hstep as (Hb & Hs' & He' & Ho').
    destruct (IH (step w e) Hs' He' Ho') as (IHb & IHrest).
    split; [|exact IHrest]. rewrite IHb, Hb. cbn [existsb]. by rewrite orb_assoc. }
  by apply (Hgen events (activate s y m)).
Qed.

(** ** Presence updates reach the store *)

Lemma each_handleUpdate_iter `{StoreSchema} `{Session} n states update w :
  forallb validateRecord (stagePut states update) = true →
  ∃ w', each n (handleUpdate states update) w = (Normal tt, w')
    ∧ store w'
      = Nat.iter n (mergeInto (stageRemove update) (stagePut states update)) (store w)
    ∧ merges w' = merges w + n.
Proof.
  intros Hvalid. revert w. induction n as [|n IH]; intros w.
  { exists w. by split_and!. }
  set (w1 := with_store (mergeInto (stageRemove update) (stagePut states update) (store w))
                        (with_trace (trace w ++ [MergeRemoteChanges]) w)).
  assert (Hrun : handleUpdate states update w = (Normal tt, w1)).
  { by rewrite handleUpdate_staged, Hvalid. }
  destruct (IH w1) as (w2 & Hrun2 & Hs & Hmg).
  exists w2. split_and!.
  - cbn [each]. unfold bind. by rewrite Hrun.
  - rewrite Hs. change (store w1)
      with (mergeInto (stageRemove update) (stagePut states update) (store w)).
    by rewrite <- Nat.iter_succ_r.
  - rewrite Hmg. unfold merges, w1. cbn [trace with_store with_trace].
    rewrite List.filter_app, length_app. cbn. lia.
Qed.

Lemma step_awareness `{StoreSchema} `{Session} w states update :
  0 < awarenessListeners w →
  forallb validateRecord (stagePut states update) = true →
  NoDup (id <$> stagePut states update) →
  store (step w (EvAwareness states update))
  = mergeInto (stageRemove update) (stagePut states update) (store w).
Proof.
  intros Hact Hvalid Hnd.
  destruct (each_handleUpdate_iter (awarenessListeners w) states update w Hvalid)
    as (w' & Hrun & Hs & _).
  assert (Hstep : step w (EvAwareness states update) = w').
  { unfold step, exec, dispatch, bind. cbn [get]. by rewrite Hrun. }
  rewrite Hstep, Hs. destruct (awarenessListeners w) as [|n]; [lia|].
  apply iter_idempotent. intros s. by apply mergeInto_idempotent.
Qed.

(** The first handler that stages a record the store rejects throws, and the
    event ends there with the store as it was. *)
Lemma step_awareness_rejected `{StoreSchema} `{Session} w states update :
  0 < awarenessListeners w →
  forallb validateRecord (stagePut states update) = false →
  step w (EvAwareness states update)
  = with_trace (trace w ++ [MergeRemoteChanges]) w.
Proof.
  intros Hact Hvalid. unfold step, exec, dispatch, bind at 1. cbn [get].
  destruct (awarenessListeners w) as [|n]; [lia|].
  cbn [each]. unfold bind. by rewrite handleUpdate_staged, Hvalid.
Qed.

(** X12.  What one awareness update leaves in the store, key by key, when
    the store accepts what was staged: the staged presence under its id,
    also when the same update removes that id (removals are applied first);
    nothing under an id that is removed and not put; and what was there
    under every other key.  When the store rejects a staged record, the
    store is left as it was. *)
Theorem presence_update_lookup `{StoreSchema} `{Session} (w : World)
    (states : gmap N AwarenessState) (update : AwarenessUpdate.t) :
  0 < awarenessListeners w →
  NoDup (id <$> stagePut states update) →
  (forallb validateRecord (stagePut states update) = true →
   (∀ p, p ∈ stagePut states update →
         store (step w (EvAwareness states update)) !! id p = Some p)
   ∧ (∀ k, k ∉ id <$> stagePut states update →
           store (step w (EvAwareness states update)) !! k
           = if decide (k ∈ stageRemove update) then None else store w !! k))
  ∧ (forallb validateRecord (stagePut states update) = false →
     store (step w (EvAwareness states update)) = store w).
Proof.
  intros Hact Hnd. split.
  - intros Hvalid. rewrite step_awareness by done. unfold mergeInto. split.
    + intros p Hp. by apply lookup_putAll_elem.
    + intros k Hk. by rewrite lookup_putAll_other, lookup_store_remove.
  - intros Hvalid. by rewrite step_awareness_rejected.
Qed.

Lemma createId_inj a b : createId a = createId b → a = b.
Proof. unfold createId. intros Heq. by simplify_eq/=. Qed.

(** X13.  The presence of a participant comes and goes with it.  When
    another client is added with a published presence whose id is the one
    made from its client id, as this hook makes its own, the store holds that
    record if it accepts it and is left as it was if it rejects it; when the
    client is later removed, the record is gone and every other key of the
    store is as it was before the two updates. *)
Theorem presence_comes_and_goes `{StoreSchema} `{Session} (w : World)
    (states states' : gmap N AwarenessState) (c : N) (p : TLRecord) :
  0 < awarenessListeners w →
  c ≠ clientID →
  states !! c = Some (mkAwarenessState (Some p)) →
  id p = createId (pretty c) →
  let joined := step w (EvAwareness states (AwarenessUpdate.mk [c] [] [])) in
  let left := step joined (EvAwareness states' (AwarenessUpdate.mk [] [] [c])) in
  (validateRecord p = true → store joined !! id p = Some p)
  ∧ (validateRecord p = false → store joined = store w)
  ∧ store left !! id p = None
  ∧ (∀ k, k ≠ id p → store left !! k = store w !! k).
Proof.
  intros Hact Hother Hstate Hid. cbv zeta.
  assert (Hnot : id p ≠ presenceId).
  { rewrite Hid. unfold presenceId. intros Heq%createId_inj.
    by apply (inj pretty) in Heq. }
  assert (Hput : stagePut states (AwarenessUpdate.mk [c] [] []) = [p]).
  { rewrite stagePut_omap. cbn. unfold remotePresence. rewrite Hstate. cbn.
    by rewrite decide_True. }
  assert (Hrem : stageRemove (AwarenessUpdate.mk [] [] [c]) = [id p]).
  { rewrite stageRemove_fmap. cbn. by rewrite Hid. }
  assert (Hvalid : forallb validateRecord (stagePut states (AwarenessUpdate.mk [c] [] []))
                   = validateRecord p).
  { rewrite Hput. cbn. apply andb_true_r. }
  set (joined := step w (EvAwareness states (AwarenessUpdate.mk [c] [] []))).
  assert (Hjoined : store joined
                    = if validateRecord p then <[id p := p]> (store w) else store w).
  { unfold joined. destruct (validateRecord p) eqn:Hp.
    - rewrite step_awareness; [|done|by rewrite Hvalid|].
      + by rewrite Hput.
      + rewrite Hput. apply NoDup_singleton.
    - rewrite step_awareness_rejected; [done|done|by rewrite Hvalid]. }
  assert (Hact' : 0 < awarenessListeners joined).
  { unfold joined. destruct (validateRecord p) eqn:Hp.
    - destruct (each_handleUpdate_iter (awarenessListeners w) states
                  (AwarenessUpdate.mk [c] [] []) w ltac:(by rewrite Hvalid))
        as (w' & Hrun & _).
      assert (Hal : awarenessListeners (each (awarenessListeners w)
                      (handleUpdate states (AwarenessUpdate.mk [c] [] [])) w).2
                    = awarenessListeners w).
      { apply (preserves_each awarenessListeners).
        unfold handleUpdate, mergeRemoteChanges. cbv zeta.
        apply preserves_bind; [by apply preserves_modify|]. intros _.
        apply preserves_bind; [apply preserves_get|]. intros v.
        destruct (mergeBatch _ _ _); [by apply preserves_modify|apply preserves_throw]. }
      unfold step, exec, dispatch, bind at 1. cbn [get]. by rewrite Hal.
    - by rewrite step_awareness_rejected by (done || by rewrite Hvalid). }
  assert (Hleft : store (step joined (EvAwareness states' (AwarenessUpdate.mk [] [] [c])))
                  = delete (id p) (store joined)).
  { rewrite step_awareness; [|done|by rewrite stagePut_omap|].
    - rewrite Hrem. by rewrite stagePut_omap.
    - rewrite stagePut_omap. cbn. constructor. }
  rewrite Hleft, Hjoined. split_and!.
  - intros ->. apply lookup_insert_eq.
  - by intros ->.
  - apply lookup_delete_eq.
  - intros k Hk. rewrite lookup_delete_ne by done.
    destruct (validateRecord p); [by rewrite lookup_insert_ne|done].
Qed.

(** X14.  No self-loop: an awareness update that only names this client, as
    the one its own presence publication causes, leaves the store as it
    was, given that the presence this client published carries its own
    presence id. *)
Theorem own_presence_echo `{StoreSchema} `{Session} (w : World)
    (states : gmap N AwarenessState) (update : AwarenessUpdate.t) :
  Forall (λ c, c = clientID)
         (AwarenessUpdate.added update ++ AwarenessUpdate.updated update) →
  AwarenessUpdate.removed update = [] →
  (∀ state p, states !! clientID = Some state → presence state = Some p →
              id p = presenceId) →
  store (step w (EvAwareness states update)) = store w
  ∧ logView (step w (EvAwareness states update)) = logView w.
Proof.
  intros Hown Hnone Hid.
  assert (Hput : stagePut states update = []).
  { rewrite stagePut_omap.
    induction (AwarenessUpdate.added update ++ AwarenessUpdate.updated update)
      as [|c l IH]; [done|].
    apply Forall_cons in Hown as [-> Hown]. cbn. rewrite IH by done.
    unfold remotePresence. destruct (states !! clientID) as [state|] eqn:Hs; [|done].
    cbn. destruct (presence state) as [p|] eqn:Hp; [|done]. cbn.
    rewrite decide_False; [done|]. intros Hne. apply Hne. by apply (Hid state). }
  assert (Hrem : stageRemove update = []).
  { by rewrite stageRemove_fmap, Hnone. }
  split.
  - destruct (each_handleUpdate_iter (awarenessListeners w) states update w
                ltac:(by rewrite Hput))
      as (w' & Hrun & Hs & _).
    assert (Hstep : step w (EvAwareness states update) = w').
    { unfold step, exec, dispatch, bind. cbn [get]. by rewrite Hrun. }
    rewrite Hstep, Hs, Hput, Hrem. clear.
    induction (awarenessListeners w) as [|n IH]; [done|]. by rewrite Nat.iter_succ_r.
  - unfold step, exec, dispatch.
    apply (preserves_bind logView); [apply preserves_get|]. intros w'.
    apply preserves_each. apply preserves_logView_mergeRemoteChanges.
Qed.

(** ** Store and log stay keyed by id *)

Section Maintenance.
Context (P : World → Prop).

Lemma maintains_ret {A} (a : A) : maintains P (ret a).
Proof. by intros w. Qed.

Lemma maintains_throw {A} message : maintains P (@throw A message).
Proof. by intros w. Qed.

Lemma maintains_get : maintains P get.
Proof. by intros w. Qed.

Lemma maintains_modify g : (∀ w, P w → P (g w)) → maintains P (modify g).
Proof. intros Hg w. apply Hg. Qed.

Lemma maintains_bind {A C} (c : M A) (k : A → M C) :
  maintains P c → (∀ a, maintains P (k a)) → maintains P (bind c k).
Proof.
  intros Hc Hk w Hw. unfold bind. specialize (Hc w Hw).
  destruct (c w) as [[a|e] w']; cbn in *; [|done].
  by apply Hk.
Qed.

Lemma maintains_each n c : maintains P c → maintains P (each n c).
Proof.
  intros Hc. induction n as [|n IH]; [apply maintains_ret|].
  cbn [each]. by apply maintains_bind.
Qed.
End Maintenance.

Lemma keyedById_applyDiff d m : keyedById m → keyedById (applyDiff d m).
Proof. intros Hm. by apply keyedById_store_remove, keyedById_putAll. Qed.

Lemma keyedById_store_put `{StoreSchema} put s s' :
  keyedById s → store_put put s = Ok s' → keyedById s'.
Proof.
  revert s. induction put as [|[record|] put IH]; intros s Hs; cbn [store_put].
  - by intros [= <-].
  - destruct (validateRecord record); [|done]. by apply IH, keyedById_insert.
  - done.
Qed.

Lemma keyedById_mergeBatch `{StoreSchema} remove put s s' :
  keyedById s → mergeBatch remove put s = Ok s' → keyedById s'.
Proof.
  intros Hs. unfold mergeBatch.
  set (s1 := if decide (length remove ≠ 0) then store_remove remove s else s).
  assert (Hs1 : keyedById s1).
  { unfold s1. case_decide; [by apply keyedById_store_remove|done]. }
  case_decide; [|by intros [= <-]].
  by apply keyedById_store_put.
Qed.

Lemma wellKeyed_effect e : maintains wellKeyed (effect e).
Proof. by apply maintains_modify. Qed.

Lemma wellKeyed_mergeRemoteChanges `{StoreSchema} remove put :
  maintains wellKeyed (mergeRemoteChanges (mergeBatch remove put)).
Proof.
  intros w [Hs Hy]. unfold mergeRemoteChanges, bind.
  cbn [effect modify get store with_trace].
  destruct (mergeBatch remove put (store w)) as [s'|message] eqn:Hfn; [|done].
  split; [|done]. cbn. exact (keyedById_mergeBatch _ _ _ _ Hs Hfn).
Qed.

Lemma wellKeyed_handleChange `{StoreSchema} changes local :
  maintains wellKeyed (handleChange changes local).
Proof.
  intros w Hw. unfold handleChange. destruct local; [done|].
  unfold bind at 1. cbn [get]. by apply wellKeyed_mergeRemoteChanges.
Qed.

Lemma wellKeyed_handleUpdate `{StoreSchema} `{Session} states update :
  maintains wellKeyed (handleUpdate states update).
Proof. apply wellKeyed_mergeRemoteChanges. Qed.

Lemma wellKeyed_destroy `{StoreSchema} `{Session} : maintains wellKeyed destroy.
Proof.
  unfold destroy.
  apply maintains_bind; [apply maintains_get|]. intros w.
  destruct (docDestroyed w); [apply maintains_ret|].
  apply maintains_bind; [by apply maintains_modify|]. intros _.
  apply maintains_bind; [apply maintains_each, wellKeyed_handleUpdate|]. intros _.
  by apply maintains_modify.
Qed.

Lemma wellKeyed_handleMetaUpdate `{StoreSchema} `{Session} :
  maintains wellKeyed handleMetaUpdate.
Proof.
  unfold handleMetaUpdate.
  apply maintains_bind; [apply maintains_get|]. intros w.
  destruct (meta w) as [theirs|]; [|apply maintains_throw].
  destruct (getMigrationsSince theirs) as [[|m ms]|e].
  - apply maintains_ret.
  - apply maintains_bind; [apply wellKeyed_effect|]. intros _. apply wellKeyed_destroy.
  - apply maintains_bind; [apply wellKeyed_effect|]. intros _. apply wellKeyed_destroy.
Qed.

Lemma wellKeyed_foldl_applyOp ops w :
  Forall keyedOp ops → wellKeyed w → wellKeyed (foldl applyOp w ops).
Proof.
  revert w. induction ops as [|op ops IH]; intros w Hops Hw; [done|].
  apply Forall_cons in Hops as [Hop Hops]. cbn [foldl]. apply IH; [done|].
  destruct Hw as [Hs Hy]. destruct op as [key val|key|schema]; cbn in *.
  - split; [done|]. rewrite <- Hop. by apply keyedById_insert.
  - split; [done|]. by apply keyedById_delete.
  - by split.
Qed.

Lemma wellKeyed_transact `{StoreSchema} `{Session} ops :
  Forall keyedOp ops → maintains wellKeyed (transact ops).
Proof.
  intros Hops. unfold transact.
  apply maintains_bind; [apply maintains_get|]. intros before.
  apply maintains_bind.
  { apply maintains_modify. intros w. by apply wellKeyed_foldl_applyOp. }
  intros _. apply maintains_bind; [apply wellKeyed_effect|]. intros _.
  apply maintains_bind; [apply maintains_each, wellKeyed_handleChange|]. intros _.
  destruct (existsb isMetaOp ops); [|apply maintains_ret].
  apply maintains_each, wellKeyed_handleMetaUpdate.
Qed.

Lemma keyedOp_sets {A} (f : A → TLRecord) (l : list A) :
  Forall keyedOp ((λ a, YSet (id (f a)) (f a)) <$> l).
Proof. apply Forall_fmap, Forall_forall. by intros a _. Qed.

Lemma keyedOp_deletes {A} (f : A → string) (l : list A) :
  Forall keyedOp ((λ a, YDelete (f a)) <$> l).
Proof. apply Forall_fmap, Forall_forall. by intros a _. Qed.

Lemma keyedOp_syncOps d : Forall keyedOp (syncOps d).
Proof.
  unfold syncOps. rewrite !Forall_app. split_and!.
  - apply (keyedOp_sets (λ r, r)).
  - apply (keyedOp_sets snd).
  - apply (keyedOp_deletes id).
Qed.

Lemma wellKeyed_flushHistory `{StoreSchema} `{Session} : maintains wellKeyed flushHistory.
Proof.
  unfold flushHistory.
  apply maintains_bind; [apply maintains_get|]. intros w.
  destruct (pendingHistory w) as [changes|]; [|apply maintains_ret].
  apply maintains_bind; [by apply maintains_modify|]. intros _.
  destruct (isEmptyDiff _); [apply maintains_ret|].
  apply maintains_each, wellKeyed_transact, keyedOp_syncOps.
Qed.

Lemma wellKeyed_loadSnapshot `{StoreSchema} snapshot :
  keyedMigration → maintains wellKeyed (loadSnapshot snapshot).
Proof.
  intros [_ Husable]. unfold loadSnapshot.
  apply maintains_bind; [apply maintains_get|]. intros v.
  destruct (store_put _ _) as [loaded|message] eqn:Hput; [|apply maintains_throw].
  apply maintains_bind.
  - apply maintains_modify. intros w [_ Hy]. split; [|done]. cbn.
    apply Husable. eapply keyedById_store_put; [apply keyedById_empty|exact Hput].
  - intros _. by apply maintains_modify.
Qed.

Lemma wellKeyed_handleSync `{StoreSchema} `{Session} :
  keyedMigration → maintains wellKeyed handleSync.
Proof.
  intros Hmig. unfold handleSync.
  apply maintains_bind; [apply wellKeyed_flushHistory|]. intros _.
  apply maintains_bind; [by apply maintains_modify|]. intros _.
  apply maintains_bind.
  { unfold publishPresence.
    apply maintains_bind; [apply maintains_get|]. intros w.
    destruct (docDestroyed w); [apply maintains_ret|].
    apply maintains_each, wellKeyed_handleUpdate. }
  intros _. apply maintains_bind; [by apply maintains_modify|]. intros _.
  apply maintains_bind; [apply maintains_get|]. intros w.
  assert (Hfinish : maintains wellKeyed
            (modify (with_storeWithStatus (synced_remote online)) ;;; ret Reconciled)).
  { apply maintains_bind; [by apply maintains_modify|]. intros _. apply maintains_ret. }
  destruct (decide (size (yStore w) ≠ 0)).
  - destruct (meta w) as [theirs|]; [|apply maintains_throw].
    destruct (migrateStoreSnapshot theirs _) as [value|reason].
    + apply maintains_bind.
      { apply wellKeyed_transact. unfold migrationOps. rewrite !Forall_app. split_and!.
        - apply (keyedOp_deletes id).
        - apply (keyedOp_sets (λ r, r)).
        - by apply Forall_singleton. }
      intros _. apply maintains_bind; [by apply wellKeyed_loadSnapshot|]. intros _.
      exact Hfinish.
    + apply maintains_bind; [apply wellKeyed_effect|]. intros _.
      apply maintains_bind; [apply wellKeyed_effect|]. intros _. apply maintains_ret.
  - apply maintains_bind; [|intros _; exact Hfinish].
    apply wellKeyed_transact. unfold seedOps. rewrite Forall_app. split.
    + apply (keyedOp_sets (λ r, r)).
    + by apply Forall_singleton.
Qed.

(** One event keeps store and log keyed. *)
Lemma wellKeyed_step `{StoreSchema} `{Session} w e :
  keyedMigration → keyedEvent e → wellKeyed w → wellKeyed (step w e).
Proof.
  intros Hmig He. revert w. change (maintains wellKeyed (dispatch e)).
  destruct e as [status| |d|log changes|schema|states update|]; cbn [dispatch].
  - unfold handleStatusChange. case_decide; [by apply maintains_modify|].
    apply maintains_bind; [by apply maintains_modify|]. intros _.
    case_decide; [|apply maintains_ret].
    apply maintains_bind; [apply maintains_get|]. intros w.
    destruct (hasConnectedBefore w); [apply maintains_ret|].
    apply maintains_bind; [by apply maintains_modify|]. intros _.
    by apply maintains_modify.
  - apply maintains_bind; [apply maintains_get|]. intros w.
    destruct (syncedSubscribed w); [|apply maintains_ret].
    apply maintains_bind; [by apply wellKeyed_handleSync|]. intros _.
    apply maintains_ret.
  - apply maintains_bind; [apply wellKeyed_flushHistory|]. intros _.
    apply maintains_bind.
    { apply maintains_modify. intros w [Hs Hy]. split; [|done].
      by apply keyedById_applyDiff. }
    intros _. destruct (isEmptyDiff _); [apply maintains_ret|].
    apply maintains_bind; [apply maintains_get|]. intros w.
    apply maintains_each, wellKeyed_transact, keyedOp_syncOps.
  - apply maintains_bind.
    { apply maintains_modify. intros w [Hs _]. by split. }
    intros _. apply maintains_bind; [apply maintains_get|]. intros w.
    apply maintains_each, wellKeyed_handleChange.
  - apply maintains_bind; [by apply maintains_modify|]. intros _.
    apply maintains_bind; [apply maintains_get|]. intros w.
    apply maintains_each, wellKeyed_handleMetaUpdate.
  - apply maintains_bind; [apply maintains_get|]. intros w.
    apply maintains_each, wellKeyed_handleUpdate.
  - apply wellKeyed_flushHistory.
Qed.

(** X15.  The hook never stores a record under a key that is not its id.
    When store and log start keyed by id, the schema migrates snapshots keyed
    by id to snapshots keyed by id, its integrity checker keeps a store keyed
    by id and every remote transaction leaves the log keyed by id, then after
    any events store and log are keyed by id, also when a handler threw on
    the way. *)
Theorem keyed_by_id_invariant `{StoreSchema} `{Session} (w : World)
    (events : list Event) :
  keyedMigration →
  wellKeyed w →
  Forall keyedEvent events →
  wellKeyed (run w events).
Proof.
  intros Hmig. revert w. induction events as [|e events IH]; intros w Hw Hev; [done|].
  apply Forall_cons in Hev as [He Hev].
  change (run w (e :: events)) with (run (step w e) events).
  apply IH; [|done]. by apply wellKeyed_step.
Qed.

(** ** The properties at concrete worlds *)

Lemma keyedById_singleton r : keyedById {[id r := r]}.
Proof. intros k r' [<- <-]%lookup_singleton_Some. done. Qed.

Lemma seed_empty_log_witness :
  yStore Scenes.first = ∅
  ∧ keyedById (store Scenes.first)
  ∧ ∃ w', handleSync Scenes.first = (Normal Reconciled, w')
    ∧ yStore w' = store Scenes.first
    ∧ meta w' = Some Demo.S_new.
Proof.
  assert (Hkeyed : keyedById (store Scenes.first)).
  { apply (keyedById_insert _ Demo.camera), (keyedById_singleton Demo.r1). }
  split; [reflexivity|]. split; [exact Hkeyed|].
  assert (Hcompat : getMigrationsSince serialize = Ok []) by (vm_compute; reflexivity).
  pose proof (seed_empty_log Scenes.first eq_refl Hcompat eq_refl Hkeyed) as Hseed.
  destruct Hseed as (w' & Hrun & Hy & Hm & _).
  exists w'. split; [exact Hrun|]. split; [exact Hy|exact Hm].
Defined.

Lemma synced_without_marker_witness :
  syncedSubscribed Scenes.unmarked = true
  ∧ meta Scenes.unmarked = None
  ∧ activations (step (step Scenes.unmarked EvSynced) EvSynced) = 2
  ∧ storeWithStatus (step (step Scenes.unmarked EvSynced) EvSynced) = loading.
Proof.
  split; [reflexivity|]. split; [reflexivity|].
  assert (Hne : yStore Scenes.unmarked ≠ ∅).
  { intros Heq. apply (f_equal (λ m, m !! "shape:a"%string)) in Heq.
    vm_compute in Heq. discriminate Heq. }
  pose proof (synced_without_marker Scenes.unmarked eq_refl eq_refl Hne eq_refl) as Hthrow.
  destruct Hthrow as (_ & _ & Htwice & _).
  rewrite Htwice. split; reflexivity.
Defined.

Lemma reconciliation_is_silent_witness :
  getMigrationsSince serialize = Ok []
  ∧ (handleSync (Demo.joining Demo.S_old)).1 = Normal Reconciled
  ∧ docDestroyed (handleSync (Demo.joining Demo.S_old)).2 = false
  ∧ ∃ ops, trace (handleSync (Demo.joining Demo.S_old)).2 = [Transact ops].
Proof.
  assert (Hrun : handleSync (Demo.joining Demo.S_old)
                 = (Normal Reconciled, (handleSync (Demo.joining Demo.S_old)).2)).
  { vm_compute. reflexivity. }
  assert (Hcompat : getMigrationsSince serialize = Ok []) by (vm_compute; reflexivity).
  pose proof (reconciliation_is_silent (Demo.joining Demo.S_old) _ Hcompat eq_refl Hrun)
    as Hsilent.
  destruct Hsilent as [Hd Ht].
  split; [exact Hcompat|]. split; [by rewrite Hrun|]. split; [exact Hd|exact Ht].
Defined.

Lemma reconciliation_is_idempotent_witness :
  meta (Demo.joining Demo.S_new) = Some serialize
  ∧ keyedById (yStore (Demo.joining Demo.S_new))
  ∧ ∃ w', handleSync (Demo.joining Demo.S_new) = (Normal Reconciled, w')
    ∧ yStore w' = {["shape:a"%string := Demo.r1]}
    ∧ store w' = ensureStoreIsUsable {["shape:a"%string := Demo.r1]}.
Proof.
  assert (Hne : yStore (Demo.joining Demo.S_new) ≠ ∅).
  { intros Heq. apply (f_equal (λ m, m !! "shape:a"%string)) in Heq.
    vm_compute in Heq. discriminate Heq. }
  split; [reflexivity|]. split; [apply (keyedById_singleton Demo.r1)|].
  assert (Hvalid : forallb validateRecord
                     (map_to_list (yStore (Demo.joining Demo.S_new))).*2 = true)
    by (vm_compute; reflexivity).
  pose proof (reconciliation_is_idempotent (Demo.joining Demo.S_new) eq_refl Hne eq_refl
                (keyedById_singleton Demo.r1) eq_refl Hvalid) as Hagain.
  destruct Hagain as (w' & Hrun & Hy & _ & Hs).
  exists w'. split; [exact Hrun|]. split; [exact Hy|exact Hs].
Defined.

Lemma remote_change_mirror_witness :
  mirror Demo.synced
  ∧ faithfulChanges (yStore Demo.synced) Scenes.remoteLog Scenes.remoteChanges
  ∧ mirror (step Demo.synced (EvRemoteChange Scenes.remoteLog Scenes.remoteChanges))
  ∧ merges (step Demo.synced (EvRemoteChange Scenes.remoteLog Scenes.remoteChanges)) = 1.
Proof.
  assert (Hfaithful : faithfulChanges (yStore Demo.synced) Scenes.remoteLog
                        Scenes.remoteChanges).
  { unfold faithfulChanges. split.
    { apply (bool_decide_unpack _). vm_compute. exact I. }
    split.
    - intros k Hk. apply not_elem_of_cons in Hk as [Ha Hk].
      apply not_elem_of_cons in Hk as [Hb _].
      change (yStore Demo.synced) with ({["shape:a"%string := Demo.r1]} : gmap string TLRecord).
      cbn [fst] in Ha, Hb. unfold Scenes.remoteLog.
      rewrite !lookup_singleton_ne; congruence.
    - apply List.Forall_cons; [vm_compute; reflexivity|].
      apply List.Forall_cons; [|apply List.Forall_nil].
      exists Demo.r2. vm_compute. reflexivity. }
  assert (Hmirror : mirror Demo.synced) by (vm_compute; reflexivity).
  assert (Hdoc : ∀ k r, Scenes.remoteLog !! k = Some r → inScope document r = true).
  { unfold Scenes.remoteLog. intros k r [<- <-]%lookup_singleton_Some.
    vm_compute. reflexivity. }
  assert (Hvalid : ∀ k r, Scenes.remoteLog !! k = Some r → validateRecord r = true).
  { unfold Scenes.remoteLog. intros k r [<- <-]%lookup_singleton_Some.
    vm_compute. reflexivity. }
  pose proof (remote_change_mirror Demo.synced Scenes.remoteLog Scenes.remoteChanges
                Nat.lt_0_1 Hmirror (keyedById_singleton Demo.r2) Hdoc Hvalid Hfaithful)
    as Hafter.
  destruct Hafter as (Hm & _ & Hmg & _).
  split; [exact Hmirror|]. split; [exact Hfaithful|]. split; [exact Hm|exact Hmg].
Defined.

Lemma local_edit_writes_document_records_only_witness :
  yStore (step Demo.synced (EvLocalEdit Scenes.edit)) !! "shape:b"%string = Some Demo.r2
  ∧ (yStore Demo.synced !! "shape:b"%string = Some Demo.r2
     ∨ (scopeOf (typeName Demo.r2) = document
        ∧ (Demo.r2 ∈ puts Scenes.edit
           ∨ Demo.r2 ∈ from_option puts [] (pendingHistory Demo.synced))
        ∧ id Demo.r2 = "shape:b"%string)).
Proof.
  assert (Hin : yStore (step Demo.synced (EvLocalEdit Scenes.edit)) !! "shape:b"%string
                = Some Demo.r2) by (vm_compute; reflexivity).
  split; [exact Hin|].
  exact (local_edit_writes_document_records_only Demo.synced Scenes.edit _ _ Hin).
Defined.

Lemma status_after_reconnect_witness :
  syncedSubscribed Scenes.reconnected = false
  ∧ hasConnectedBefore Scenes.reconnected = true
  ∧ storeWithStatus (run Scenes.reconnected [EvSynced; EvStatus connected; EvSynced])
    = synced_remote offline.
Proof.
  assert (Hsub : syncedSubscribed Scenes.reconnected = false) by (vm_compute; reflexivity).
  assert (Hbefore : hasConnectedBefore Scenes.reconnected = true) by (vm_compute; reflexivity).
  split; [exact Hsub|]. split; [exact Hbefore|].
  rewrite (status_after_reconnect Scenes.reconnected
             [EvSynced; EvStatus connected; EvSynced] Hsub Hbefore).
  vm_compute. reflexivity.
Defined.

Lemma presence_update_lookup_witness :
  NoDup (id <$> stagePut Demo.states (AwarenessUpdate.mk [11; 7; 5]%N [3]%N [11]%N))
  ∧ "instance_presence:11"%string
      ∈ stageRemove (AwarenessUpdate.mk [11; 7; 5]%N [3]%N [11]%N)
  ∧ store (step Demo.synced
             (EvAwareness Demo.states (AwarenessUpdate.mk [11; 7; 5]%N [3]%N [11]%N)))
      !! "instance_presence:11"%string = Some Demo.presenceA.
Proof.
  assert (Hnd : NoDup (id <$> stagePut Demo.states
                                (AwarenessUpdate.mk [11; 7; 5]%N [3]%N [11]%N))).
  { apply (bool_decide_unpack _). vm_compute. exact I. }
  split; [exact Hnd|]. split.
  { apply (bool_decide_unpack _). vm_compute. exact I. }
  pose proof (presence_update_lookup Demo.synced Demo.states
                (AwarenessUpdate.mk [11; 7; 5]%N [3]%N [11]%N) Nat.lt_0_1 Hnd) as Hlook.
  destruct Hlook as [Hvalid _].
  destruct Hvalid as [Hput _]; [vm_compute; reflexivity|].
  apply (Hput Demo.presenceA). apply (bool_decide_unpack _). vm_compute. exact I.
Defined.

Lemma presence_comes_and_goes_witness :
  Demo.states !! 11%N = Some (mkAwarenessState (Some Demo.presenceA))
  ∧ store (step Demo.synced (EvAwareness Demo.states (AwarenessUpdate.mk [11%N] [] [])))
      !! "instance_presence:11"%string = Some Demo.presenceA
  ∧ store (step (step Demo.synced
                   (EvAwareness Demo.states (AwarenessUpdate.mk [11%N] [] [])))
                (EvAwareness ∅ (AwarenessUpdate.mk [] [] [11%N])))
      !! "instance_presence:11"%string = None.
Proof.
  assert (Hstate : Demo.states !! 11%N = Some (mkAwarenessState (Some Demo.presenceA)))
    by (vm_compute; reflexivity).
  assert (Hother : 11%N ≠ clientID) by discriminate.
  pose proof (presence_comes_and_goes Demo.synced Demo.states ∅ 11%N Demo.presenceA
                Nat.lt_0_1 Hother Hstate eq_refl) as Hlife.
  cbv zeta in Hlife. destruct Hlife as (Hjoin & _ & Hleft & _).
  split; [exact Hstate|]. split; [|exact Hleft].
  apply Hjoin. vm_compute. reflexivity.
Defined.

Lemma own_presence_echo_witness :
  Demo.states !! clientID = Some (mkAwarenessState (Some Demo.ownPresence))
  ∧ store (step Demo.synced (EvAwareness Demo.states (AwarenessUpdate.mk [7%N] [7%N] [])))
    = store Demo.synced.
Proof.
  assert (Hstate : Demo.states !! clientID
                   = Some (mkAwarenessState (Some Demo.ownPresence)))
    by (vm_compute; reflexivity).
  split; [exact Hstate|].
  assert (Hown : Forall (λ c, c = clientID)
                   (AwarenessUpdate.added (AwarenessUpdate.mk [7%N] [7%N] [])
                    ++ AwarenessUpdate.updated (AwarenessUpdate.mk [7%N] [7%N] []))).
  { apply List.Forall_cons; [reflexivity|].
    apply List.Forall_cons; [reflexivity|apply List.Forall_nil]. }
  assert (Hid : ∀ state p, Demo.states !! clientID = Some state →
                           presence state = Some p → id p = presenceId).
  { intros state p Hs Hp. rewrite Hstate in Hs. injection Hs as <-.
    injection Hp as <-. vm_compute. reflexivity. }
  pose proof (own_presence_echo Demo.synced Demo.states
                (AwarenessUpdate.mk [7%N] [7%N] []) Hown eq_refl Hid) as Hecho.
  destruct Hecho as [Hstore _]. exact Hstore.
Defined.

Lemma keyed_by_id_invariant_witness :
  keyedMigration
  ∧ wellKeyed Demo.synced
  ∧ wellKeyed (run Demo.synced
                 [EvLocalEdit Scenes.edit;
                  EvRemoteChange Scenes.remoteLog Scenes.remoteChanges;
                  EvStatus connected; EvSynced]).
Proof.
  assert (Hmig : keyedMigration).
  { split.
    - intros theirs snapshot value Hsnap Hrun. cbn in Hrun.
      destruct (decide (theirs = Demo.S_new)); [by injection Hrun as <-|].
      destruct (decide (theirs = Demo.S_old)); [|discriminate Hrun].
      injection Hrun as <-. intros k r Hk. rewrite lookup_fmap in Hk.
      destruct (snapshot !! k) as [r0|] eqn:Hr0; [|discriminate Hk].
      injection Hk as <-. exact (Hsnap k r0 Hr0).
    - intros s Hs k r Hk. cbn in Hk.
      apply lookup_union_Some_raw in Hk as [Hk|[_ Hk]]; [by apply Hs|].
      assert (Hdefaults : map_Forall (λ key record, id record = key) Demo.defaultRecords).
      { apply (bool_decide_unpack _). vm_compute. exact I. }
      exact (Hdefaults k r Hk). }
  assert (Hkeyed : wellKeyed Demo.synced).
  { split.
    - apply (keyedById_insert _ Demo.camera), (keyedById_singleton Demo.r1).
    - apply (keyedById_singleton Demo.r1). }
  assert (Hevents : Forall keyedEvent
                      [EvLocalEdit Scenes.edit;
                       EvRemoteChange Scenes.remoteLog Scenes.remoteChanges;
                       EvStatus connected; EvSynced]).
  { apply List.Forall_cons; [exact I|].
    apply List.Forall_cons; [apply (keyedById_singleton Demo.r2)|].
    apply List.Forall_cons; [exact I|].
    apply List.Forall_cons; [exact I|apply List.Forall_nil]. }
  split; [exact Hmig|]. split; [exact Hkeyed|].
  exact (keyed_by_id_invariant Demo.synced _ Hmig Hkeyed Hevents).
Defined.
